(** * Tile-world simulation: a shallow embedding of the Terraria clone

    The repository holds two revisions of the game script: the minimal
    prototype [main.js] and the extended script (biomes, inventory, health,
    weather).  World helpers, the random generator and the collision resolver
    are textually identical in both; the world generator differs.  What is
    shared is embedded once at top level, the prototype's own generator lives
    in [Module MainJs].

    Numbers.  JavaScript numbers are IEEE doubles.  Tile coordinates and
    heights are integers well below 2^53 and are modelled in [Z]; so is the
    generator state, whose sum is rounded as a double does where it leaves
    that range.
    Lengths, velocities and times are modelled as exact rationals [Q]; results
    are compared with [==].  The seeded generator only ever produces multiples
    of 2^-32, on which every comparison and product of the world generator is
    exact in doubles too.  [Math.random] is modelled as an arbitrary stream of
    draws handed to the function that consumes them. *)

From Stdlib Require Import ZArith QArith Qround Qabs Qminmax Lqa Lia List Bool.
From stdpp Require Import base option list gmap.
Import ListNotations.
Open Scope Z_scope.

(** ** Configuration ([main.js], lines 10-21) *)

Definition TILE_SIZE : Q := 24.
Definition WORLD_WIDTH : Z := 200.
Definition WORLD_HEIGHT : Z := 120.
Definition GRAVITY : Q := 6 # 10.
Definition TERMINAL_VELOCITY : Q := 18.
Definition MOVE_ACCEL : Q := 9 # 10.
Definition AIR_ACCEL : Q := 5 # 10.
Definition FRICTION : Q := 85 # 100.
Definition JUMP_VELOCITY : Q := - (125 # 10).
Definition MAX_RUN_SPEED : Q := 52 # 10.
Definition REACH : Q := 6.
Definition DAY_NIGHT_CYCLE_DURATION : Q := 600.
Definition DAY_PORTION : Q := 7 # 10.

(** ** Tiles *)

Inductive Tile : Set :=
  AIR | GRASS | DIRT | STONE | WOOD | SAND | GLASS | TORCH | BRICK.

(** The numeric identifier of a tile, as in the [TILE] table. *)
Definition tile_id (t : Tile) : Z :=
  match t with
  | AIR => 0 | GRASS => 1 | DIRT => 2 | STONE => 3 | WOOD => 4
  | SAND => 5 | GLASS => 6 | TORCH => 7 | BRICK => 8
  end.

Definition tile_of_id (z : Z) : Tile :=
  match z with
  | 1 => GRASS | 2 => DIRT | 3 => STONE | 4 => WOOD
  | 5 => SAND | 6 => GLASS | 7 => TORCH | 8 => BRICK
  | _ => AIR
  end.

#[global] Instance Tile_eq_dec : EqDecision Tile.
Proof. solve_decision. Defined.

#[global] Instance Tile_countable : Countable Tile.
Proof.
  apply (inj_countable' tile_id tile_of_id).
  intros []; reflexivity.
Defined.

(** ** Small numeric helpers standing for the [Math] functions used *)

Definition Qltb (a b : Q) : bool := negb (Qle_bool b a).
Definition Qsign (q : Q) : Z := Z.sgn (Qnum q).
Definition Qnonzero (q : Q) : bool := negb (Qeq_bool q 0).
Definition ofZ (z : Z) : Q := inject_Z z.

(** [for (let i = lo; i < hi; i++) s = body(i, s)] *)
Fixpoint for_count {S : Type} (n : nat) (i : Z) (body : Z -> S -> S) (s : S) : S :=
  match n with
  | O => s
  | Datatypes.S n' => for_count n' (i + 1) body (body i s)
  end.

Definition for_lt {S : Type} (lo hi : Z) (body : Z -> S -> S) (s : S) : S :=
  for_count (Z.to_nat (hi - lo)) lo body s.

(** ** The tile grid: [world[y][x]], rows first *)

Abbreviation World := (list (list Tile)).

(** [new Array(WORLD_HEIGHT).fill(0).map(() => new Array(WORLD_WIDTH).fill(TILE.AIR))] *)
Definition empty_world : World :=
  replicate (Z.to_nat WORLD_HEIGHT) (replicate (Z.to_nat WORLD_WIDTH) AIR).

(** The grid is allocated once with its full size and never resized. *)
Definition wf_world (w : World) : Prop :=
  length w = Z.to_nat WORLD_HEIGHT /\
  Forall (fun row => length row = Z.to_nat WORLD_WIDTH) w.

(** Raw read [world[ty][tx]] for indices inside the allocated grid. *)
Definition cell (w : World) (tx ty : Z) : Tile :=
  default AIR (row ← w !! Z.to_nat ty; row !! Z.to_nat tx).

(** Raw write [world[ty][tx] = id] for indices inside the allocated grid. *)
Definition store (w : World) (tx ty : Z) (id : Tile) : World :=
  alter (fun row => <[Z.to_nat tx := id]> row) (Z.to_nat ty) w.

Definition inBounds (tx ty : Z) : bool :=
  (0 <=? tx) && (0 <=? ty) && (tx <? WORLD_WIDTH) && (ty <? WORLD_HEIGHT).

Definition isSolid (tileId : Tile) : bool :=
  negb (bool_decide (tileId = AIR)).

Definition getTile (w : World) (tx ty : Z) : Tile :=
  if negb (inBounds tx ty) then STONE (* treat out-of-bounds as solid *)
  else cell w tx ty.

Definition setTile (w : World) (tx ty : Z) (id : Tile) : World :=
  if negb (inBounds tx ty) then w
  else store w tx ty id.

(** ** The seeded generator [mulberry32]

    The closure variable [a] is a double: [a += 0x6d2b79f5] has no [| 0], so
    the state is not reduced to 32 bits and grows with every call.  The sum
    of two integers is exact in doubles up to 2^53 and is rounded to 53
    significant bits, ties to even, beyond ([dbl]).  The bit operators reduce
    their operands modulo 2^32, so every intermediate value is tracked as its
    unsigned 32-bit pattern. *)

(** The double nearest to the integer [z] (round to nearest, ties to even),
    for [z] within the range of finite doubles. *)
Definition dbl (z : Z) : Z :=
  let m := Z.abs z in
  if m <? 2 ^ 53 then z
  else
    let e := Z.log2 m - 52 in
    let q := Z.shiftr m e in
    let r := m - Z.shiftl q e in
    let half := Z.shiftl 1 (e - 1) in
    let q := if r <? half then q
             else if half <? r then q + 1
             else if Z.even q then q else q + 1 in
    Z.sgn z * Z.shiftl q e.

Definition u32 (z : Z) : Z := z mod 4294967296.
Definition imul (a b : Z) : Z := u32 (a * b).

(** One call [rand()]: the value returned and the new closure state. *)
Definition mulberry32 (a : Z) : Q * Z :=
  let a := dbl (a + 0x6d2b79f5) in
  let t := u32 a in
  let t := imul (Z.lxor t (Z.shiftr t 15)) (Z.lor t 1) in
  let t := Z.lxor t (u32 (t + imul (Z.lxor t (Z.shiftr t 7)) (Z.lor t 61))) in
  (Z.lxor t (Z.shiftr t 14) # 4294967296, a).

(** The integer states the closure variable can hold: integers that are
    doubles, far enough from the largest double for the next sum to be
    finite. *)
Definition finite_double (a : Z) : bool :=
  (dbl a =? a) && (Z.abs a <? 2 ^ 1023).

(** ** World generation (extended script, [generateWorld]) *)

Inductive Biome : Set := forest | desert.

#[global] Instance Biome_eq_dec : EqDecision Biome.
Proof. solve_decision. Defined.

(** The random walk of surface heights; returns the heights and the
    generator state after the loop. *)
Fixpoint gen_heights (n : nat) (a : Z) (h : Z) : list Z * Z :=
  match n with
  | O => ([], a)
  | Datatypes.S n' =>
      let '(r1, a) := mulberry32 a in
      let step := ((r1 - (1 # 2)) * 2)%Q in
      let '(r2, a) := mulberry32 a in
      let h := h + Qsign step * (if Qltb r2 (55 # 100) then 1 else 0) in
      let h := Z.max 20 (Z.min (WORLD_HEIGHT - 15) h) in
      let '(hs, a) := gen_heights n' a h in
      (h :: hs, a)
  end.

(** The biome runs; [biomeLength] counts the columns left in the run. *)
Fixpoint gen_biomes (n : nat) (a : Z) (currentBiome : Biome) (biomeLength : Z)
  : list Biome * Z :=
  match n with
  | O => ([], a)
  | Datatypes.S n' =>
      let '(currentBiome, biomeLength, a) :=
        if biomeLength <=? 0 then
          let '(r, a) := mulberry32 a in
          (match currentBiome with forest => desert | desert => forest end,
           20 + Qfloor (r * 30), a)
        else (currentBiome, biomeLength, a) in
      let '(bs, a) := gen_biomes n' a currentBiome (biomeLength - 1) in
      (currentBiome :: bs, a)
  end.

(** The tile laid at row [y] of a column whose surface is [groundY]. *)
Definition layer_tile (biome : Biome) (groundY y : Z) : Tile :=
  if y >? groundY + 20 then STONE
  else if y >? groundY + 3 then DIRT
  else if y =? groundY then
    (if bool_decide (biome = desert) then SAND else GRASS)
  else if (y >? groundY) && (y <=? groundY + 3) then
    (if bool_decide (biome = desert) then SAND else DIRT)
  else AIR.

(** The stone patch anchored at column [x]: both loop bounds carry the
    [&& yy < WORLD_HEIGHT] and [&& xx < WORLD_WIDTH] guards of the source. *)
Definition stone_patch (x sy sh sw : Z) (w : World) : World :=
  for_lt sy (Z.min (sy + sh) WORLD_HEIGHT) (fun yy w =>
    for_lt x (Z.min (x + sw) WORLD_WIDTH) (fun xx w =>
      if negb (bool_decide (cell w xx yy = AIR)) then store w xx yy STONE else w) w) w.

Definition tree_trunk (x groundY treeHeight : Z) (w : World) : World :=
  for_lt 0 treeHeight (fun ty w =>
    let treeY := groundY - ty - 1 in
    if treeY >=? 0 then store w x treeY WOOD else w) w.

(** "Sprinkle some stone patches": one seeded draw decides, three more
    give the patch its place and size. *)
Definition sprinkle_patch (x groundY : Z) (s : Z * World) : Z * World :=
  let '(a, w) := s in
  let '(r, a) := mulberry32 a in
  if Qltb r (1 # 10) then
    let '(r1, a) := mulberry32 a in
    let sy := groundY + 5 + Qfloor (r1 * 10) in
    let '(r2, a) := mulberry32 a in
    let sh := 3 + Qfloor (r2 * 4) in
    let '(r3, a) := mulberry32 a in
    let sw := 3 + Qfloor (r3 * 6) in
    (a, stone_patch x sy sh sw w)
  else (a, w).

(** "Add some wood in forest biomes": [&&] makes the draw only in a forest. *)
Definition grow_tree (biome : Biome) (x groundY : Z) (s : Z * World) : Z * World :=
  let '(a, w) := s in
  match biome with
  | forest =>
      let '(r, a) := mulberry32 a in
      if Qltb r (3 # 100) then
        let '(r4, a) := mulberry32 a in
        let treeHeight := 5 + Qfloor (r4 * 3) in
        (a, tree_trunk x groundY treeHeight w)
      else (a, w)
  | desert => (a, w)
  end.

(** The body of the main column loop: layers, then patch, then tree. *)
Definition gen_column (heights : list Z) (biomes : list Biome) (x : Z)
  (s : Z * World) : Z * World :=
  let '(a, w) := s in
  let groundY := default 0 (heights !! Z.to_nat x) in
  let biome := default forest (biomes !! Z.to_nat x) in
  let w := for_lt 0 WORLD_HEIGHT (fun y w => store w x y (layer_tile biome groundY y)) w in
  grow_tree biome x groundY (sprinkle_patch x groundY (a, w)).

(** [generateWorld(seed)] acting on the global grid [w]. *)
Definition generateWorld (seed : Z) (w : World) : World :=
  let a := seed in
  let base := Qfloor (ofZ WORLD_HEIGHT * (55 # 100)) in
  let '(heights, a) := gen_heights (Z.to_nat WORLD_WIDTH) a base in
  let '(r, a) := mulberry32 a in
  let '(biomes, a) := gen_biomes (Z.to_nat WORLD_WIDTH) a forest (20 + Qfloor (r * 30)) in
  snd (for_lt 0 WORLD_WIDTH (gen_column heights biomes) (a, w)).

(** ** World generation (prototype [main.js], [generateWorld])

    The prototype has no biomes and no trees, and decides whether a column
    gets a stone patch with [Math.random()], not with the seeded [rand].
    [unseeded k] is the value of the [k]-th call of [Math.random] made during
    the run. *)

Module MainJs.

Definition layer_tile (groundY y : Z) : Tile :=
  if y >? groundY + 20 then STONE
  else if y >? groundY + 3 then DIRT
  else if y =? groundY then GRASS
  else if (y >? groundY) && (y <=? groundY + 3) then DIRT
  else AIR.

(** Loop state: seeded generator state, unseeded draws made so far, grid. *)
Definition gen_column (unseeded : nat -> Q) (heights : list Z) (x : Z)
  (s : Z * nat * World) : Z * nat * World :=
  let '(a, k, w) := s in
  let groundY := default 0 (heights !! Z.to_nat x) in
  let w := for_lt 0 WORLD_HEIGHT (fun y w => store w x y (layer_tile groundY y)) w in
  let u := unseeded k in
  let k := Datatypes.S k in
  if Qltb u (1 # 10) then
    let '(r1, a) := mulberry32 a in
    let sy := groundY + 5 + Qfloor (r1 * 10) in
    let '(r2, a) := mulberry32 a in
    let sh := 3 + Qfloor (r2 * 4) in
    let '(r3, a) := mulberry32 a in
    let sw := 3 + Qfloor (r3 * 6) in
    (a, k, stone_patch x sy sh sw w)
  else (a, k, w).

Definition generateWorld (unseeded : nat -> Q) (seed : Z) (w : World) : World :=
  let a := seed in
  let base := Qfloor (ofZ WORLD_HEIGHT * (55 # 100)) in
  let '(heights, a) := gen_heights (Z.to_nat WORLD_WIDTH) a base in
  snd (for_lt 0 WORLD_WIDTH (gen_column unseeded heights) (a, O, w)).

End MainJs.

(** ** The collision resolver [aabbVsTiles] *)

Record Result : Set := mkResult {
  res_x : Q;
  res_y : Q;
  grounded : bool;
  hitX : bool;
  hitY : bool
}.

(** [Math.sign] as a number. *)
Definition Qsgn (q : Q) : Q := ofZ (Qsign q).

(** Tile index of a world coordinate: [Math.floor(c / TILE_SIZE)]. *)
Definition tile_index (c : Q) : Z := Qfloor (c / TILE_SIZE).

(** [for (let ty = top; ty <= bottom; ty++) if (isSolid(getTile(tx, ty))) ...] *)
Definition column_hit (w : World) (tx top bottom : Z) : bool :=
  existsb (fun ty => isSolid (getTile w tx ty)) (seqZ top (bottom - top + 1)).

(** [for (let tx = left; tx <= right; tx++) if (isSolid(getTile(tx, ty))) ...] *)
Definition row_hit (w : World) (ty left right : Z) : bool :=
  existsb (fun tx => isSolid (getTile w tx ty)) (seqZ left (right - left + 1)).

(** The horizontal sweep loop.  [moved] and [newX] are the loop variables;
    the loop either returns from the function ([inl]) or falls through with
    the final [newX] ([inr]).  [None]: the iteration budget ran out. *)
Fixpoint sweepX (fuel : nat) (w : World) (px py pw ph dx dir step : Q)
  (moved newX : Q) : option (Result + Q) :=
  match fuel with
  | O => None
  | Datatypes.S fuel' =>
      if Qltb moved (Qabs dx) then
        let nextX := (px + Qmin (Qabs dx) (moved + Qabs step) * dir)%Q in
        let left := tile_index (nextX - pw / 2) in
        let right := tile_index (nextX + pw / 2) in
        let top := tile_index (py - ph / 2) in
        let bottom := tile_index (py + ph / 2 - 1) in
        let tx := if Qltb 0 dir then right else left in
        if column_hit w tx top bottom then
          let newX := (if Qltb 0 dir then ofZ right * TILE_SIZE - pw / 2
                       else (ofZ left + 1) * TILE_SIZE + pw / 2)%Q in
          Some (inl (mkResult newX py false true false))
        else sweepX fuel' w px py pw ph dx dir step (moved + Qabs step)%Q nextX
      else Some (inr newX)
  end.

(** The vertical sweep loop, entered with the resolved [newX]. *)
Fixpoint sweepY (fuel : nat) (w : World) (newX py pw ph dy dir step : Q)
  (moved newY : Q) : option Result :=
  match fuel with
  | O => None
  | Datatypes.S fuel' =>
      if Qltb moved (Qabs dy) then
        let nextY := (py + Qmin (Qabs dy) (moved + Qabs step) * dir)%Q in
        let left := tile_index (newX - pw / 2) in
        let right := tile_index (newX + pw / 2) in
        let top := tile_index (nextY - ph / 2) in
        let bottom := tile_index (nextY + ph / 2 - 1) in
        let ty := if Qltb 0 dir then bottom else top in
        if row_hit w ty left right then
          if Qltb 0 dir then
            Some (mkResult newX (ofZ bottom * TILE_SIZE - ph / 2) true false true)
          else
            Some (mkResult newX ((ofZ top + 1) * TILE_SIZE + ph / 2) false false true)
        else sweepY fuel' w newX py pw ph dy dir step (moved + Qabs step)%Q nextY
      else Some (mkResult newX newY false false false)
  end.

(** Loop tests needed to sweep a displacement [d] in steps of
    [min(|d|, TILE_SIZE)]: one per iteration and the final failing one. *)
Definition sweep_fuel (d : Q) : nat :=
  Datatypes.S (Z.to_nat (Qceiling (Qabs d / Qmin (Qabs d) TILE_SIZE))).

Definition aabbVsTiles (w : World) (px py pw ph dx dy : Q) : option Result :=
  let newX := (px + dx)%Q in
  let newY := (py + dy)%Q in
  horizontal ←
    (if Qnonzero dx then
       let dir := Qsgn dx in
       let step := (dir * Qmin (Qabs dx) TILE_SIZE)%Q in
       sweepX (sweep_fuel dx) w px py pw ph dx dir step 0 newX
     else Some (inr newX));
  match horizontal with
  | inl r => Some r
  | inr newX =>
      if Qnonzero dy then
        let dir := Qsgn dy in
        let step := (dir * Qmin (Qabs dy) TILE_SIZE)%Q in
        sweepY (sweep_fuel dy) w newX py pw ph dy dir step 0 newY
      else Some (mkResult newX newY false false false)
  end.

(** ** Game state (extended script) *)

Record Player : Set := mkPlayer {
  pl_x : Q;
  pl_y : Q;
  vx : Q;
  vy : Q;
  width : Q;
  height : Q;
  onGround : bool;
  facing : Z;
  health : Q;
  maxHealth : Q;
  invulnerableTime : Q;
  lastDamageTime : Q;
  (** [player.wasOnGround] is absent from the object literal; it is only read
      as [!player.wasOnGround], for which [undefined] behaves as [false]. *)
  wasOnGround : bool
}.

Definition initial_player : Player :=
  mkPlayer (ofZ WORLD_WIDTH / 2 * TILE_SIZE) 0 0 0 18 34 false 1 100 100 0 0 false.

Definition set_pos (p : Player) (x y : Q) : Player :=
  mkPlayer x y (vx p) (vy p) (width p) (height p) (onGround p) (facing p)
    (health p) (maxHealth p) (invulnerableTime p) (lastDamageTime p) (wasOnGround p).

Definition set_vx (p : Player) (v : Q) : Player :=
  mkPlayer (pl_x p) (pl_y p) v (vy p) (width p) (height p) (onGround p) (facing p)
    (health p) (maxHealth p) (invulnerableTime p) (lastDamageTime p) (wasOnGround p).

Definition set_vy (p : Player) (v : Q) : Player :=
  mkPlayer (pl_x p) (pl_y p) (vx p) v (width p) (height p) (onGround p) (facing p)
    (health p) (maxHealth p) (invulnerableTime p) (lastDamageTime p) (wasOnGround p).

Definition set_onGround (p : Player) (b : bool) : Player :=
  mkPlayer (pl_x p) (pl_y p) (vx p) (vy p) (width p) (height p) b (facing p)
    (health p) (maxHealth p) (invulnerableTime p) (lastDamageTime p) (wasOnGround p).

Definition set_facing (p : Player) (f : Z) : Player :=
  mkPlayer (pl_x p) (pl_y p) (vx p) (vy p) (width p) (height p) (onGround p) f
    (health p) (maxHealth p) (invulnerableTime p) (lastDamageTime p) (wasOnGround p).

Definition set_health (p : Player) (h : Q) : Player :=
  mkPlayer (pl_x p) (pl_y p) (vx p) (vy p) (width p) (height p) (onGround p) (facing p)
    h (maxHealth p) (invulnerableTime p) (lastDamageTime p) (wasOnGround p).

Definition set_invulnerableTime (p : Player) (t : Q) : Player :=
  mkPlayer (pl_x p) (pl_y p) (vx p) (vy p) (width p) (height p) (onGround p) (facing p)
    (health p) (maxHealth p) t (lastDamageTime p) (wasOnGround p).

Definition set_lastDamageTime (p : Player) (t : Q) : Player :=
  mkPlayer (pl_x p) (pl_y p) (vx p) (vy p) (width p) (height p) (onGround p) (facing p)
    (health p) (maxHealth p) (invulnerableTime p) t (wasOnGround p).

Definition set_wasOnGround (p : Player) (b : bool) : Player :=
  mkPlayer (pl_x p) (pl_y p) (vx p) (vy p) (width p) (height p) (onGround p) (facing p)
    (health p) (maxHealth p) (invulnerableTime p) (lastDamageTime p) b.

Record Camera : Set := mkCamera {
  cam_x : Q;
  cam_y : Q;
  cam_width : Q;
  cam_height : Q
}.

Inductive WeatherType : Set := clear | rain | storm.

#[global] Instance WeatherType_eq_dec : EqDecision WeatherType.
Proof. solve_decision. Defined.

Record Particle : Set := mkParticle {
  part_x : Q;
  part_y : Q;
  speed : Q;
  length_ : Q
}.

Record Weather : Set := mkWeather {
  wtype : WeatherType;
  intensity : Q;
  timeLeft : Q;
  particles : list Particle
}.

Definition initial_weather : Weather := mkWeather clear 0 0 [].

(** The part of [gameState] the simulation reads and writes. *)
Record GameState : Type := mkGameState {
  dayTime : Q;
  totalTime : Q;
  isDaytime : bool;
  inventory : gmap Tile Z;
  weather : Weather
}.

Record Game : Type := mkGame {
  world : World;
  player : Player;
  camera : Camera;
  gameState : GameState
}.

(** What the event handlers have recorded when a frame starts. *)
Record Input : Set := mkInput {
  key_left : bool;
  key_right : bool;
  key_jump : bool;
  mouse_x : Q;
  mouse_y : Q;
  mouse_left : bool;
  mouse_right : bool;
  selectedHotbar : nat
}.

Definition HOTBAR : list Tile :=
  [DIRT; STONE; WOOD; SAND; BRICK; GLASS; TORCH; GRASS; AIR].

(** The stream of [Math.random()] results still to be consumed. *)
Definition Rand := nat -> Q.

Definition draw (o : Rand) : Q * Rand := (o O, fun n => o (Datatypes.S n)).

(** ** Health *)

Definition damagePlayer (now : Q) (amount : Q) (p : Player) : Player :=
  if Qltb 0 (invulnerableTime p) then p
  else
    let p := set_health p (Qmax 0 (health p - amount)) in
    let p := set_invulnerableTime p 1 in
    set_lastDamageTime p now.

(** The scan of [spawnPlayerOnSurface], from row [y] on, [n] rows left. *)
Fixpoint spawn_scan (n : nat) (y : Z) (w : World) (p : Player) : Player :=
  match n with
  | O => p
  | Datatypes.S n' =>
      let t := getTile w (Qfloor (ofZ WORLD_WIDTH / 2)) y in
      if bool_decide (t = GRASS) then
        set_pos p (ofZ WORLD_WIDTH / 2 * TILE_SIZE) ((ofZ y - 2) * TILE_SIZE)
      else spawn_scan n' (y + 1) w p
  end.

Definition spawnPlayerOnSurface (w : World) (p : Player) : Player :=
  spawn_scan (Z.to_nat WORLD_HEIGHT) 0 w p.

(** The fall-damage amount computed inside [updatePlayerHealth]. *)
Definition fallDamage (p : Player) : Z :=
  Z.max 0 (Qfloor ((vy p - TERMINAL_VELOCITY * (7 # 10)) * 5)).

(** The guard of the fall-damage block. *)
Definition fall_damage_due (p : Player) : bool :=
  Qltb (TERMINAL_VELOCITY * (8 # 10)) (vy p) && onGround p && negb (wasOnGround p).

Definition updatePlayerHealth (dt : Q) (o : Rand) (g : Game) : Game * Rand :=
  let gs := gameState g in
  let w := world g in
  let p := player g in
  (* Update invulnerability timer *)
  let p := if Qltb 0 (invulnerableTime p)
           then set_invulnerableTime p (invulnerableTime p - dt / 60) else p in
  (* Fall damage *)
  let p := if fall_damage_due p then
             if 0 <? fallDamage p then damagePlayer (totalTime gs) (ofZ (fallDamage p)) p
             else p
           else p in
  let p := set_wasOnGround p (onGround p) in
  (* Lightning damage: [&&] evaluates the draw only in a storm at night *)
  let '(p, o) :=
    if bool_decide (wtype (weather gs) = storm) && negb (isDaytime gs) then
      let '(r, o) := draw o in
      if Qltb r ((1 # 10000) * dt) &&
         negb (isSolid (getTile w (tile_index (pl_x p))
                                  (Qfloor (pl_y p / TILE_SIZE - 2)))) then
        let '(r', o) := draw o in
        (damagePlayer (totalTime gs) (ofZ (10 + Qfloor (r' * 10))) p, o)
      else (p, o)
    else (p, o) in
  (* Health regeneration (slow) *)
  let p := if Qltb (health p) (maxHealth p) && Qltb 5 (totalTime gs - lastDamageTime p)
           then set_health p (Qmin (maxHealth p) (health p + (1 # 100) * dt / 60))
           else p in
  (* Death check *)
  let p := if Qle_bool (health p) 0
           then spawnPlayerOnSurface w (set_health p (maxHealth p)) else p in
  (mkGame w p (camera g) gs, o).

(** ** Weather *)

(** The sums are exact here.  In doubles they are rounded, so a draw just
    below 1 can give the upper end of a range (1, 150 or 80), which the exact
    sum never reaches. *)
Definition startNewWeather (o : Rand) (we : Weather) : Weather * Rand :=
  let '(r, o) := draw o in
  if Qltb r (7 # 10) then
    let '(r1, o) := draw o in
    let '(r2, o) := draw o in
    (mkWeather rain ((3 # 10) + r1 * (7 # 10)) (30 + r2 * 120) [], o)
  else
    let '(r1, o) := draw o in
    let '(r2, o) := draw o in
    (mkWeather storm ((6 # 10) + r1 * (4 # 10)) (20 + r2 * 60) [], o).

(** The spawning loop of [updateWeatherParticles]. *)
Fixpoint spawn_particles (n : nat) (ty : WeatherType) (cam : Camera)
  (ps : list Particle) (o : Rand) : list Particle * Rand :=
  match n with
  | O => (ps, o)
  | Datatypes.S n' =>
      let '(r1, o) := draw o in
      let x := (cam_x cam + r1 * cam_width cam)%Q in
      let y := cam_y cam in
      let '(r2, o) := draw o in
      let speed := (if bool_decide (ty = rain) then 10 + r2 * 15 else 15 + r2 * 20)%Q in
      let '(r3, o) := draw o in
      let len := (if bool_decide (ty = rain) then 10 + r3 * 15 else 5 + r3 * 10)%Q in
      spawn_particles n' ty cam (ps ++ [mkParticle x y speed len]) o
  end.

(** The backwards loop over the particles: the tail of the list (higher
    indices) is visited first; removed particles are spliced out. *)
Fixpoint move_particles (dt : Q) (ty : WeatherType) (cam : Camera)
  (ps : list Particle) (w : World) (o : Rand) : list Particle * World * Rand :=
  match ps with
  | [] => ([], w, o)
  | particle :: rest =>
      let '(rest, w, o) := move_particles dt ty cam rest w o in
      let particle := mkParticle (part_x particle)
                        (part_y particle + speed particle * dt / 5)
                        (speed particle) (length_ particle) in
      if Qltb (cam_y cam + cam_height cam) (part_y particle) then (rest, w, o)
      else
        let tx := tile_index (part_x particle) in
        let ty' := tile_index (part_y particle) in
        if isSolid (getTile w tx ty') then
          if bool_decide (ty = rain) && bool_decide (getTile w tx ty' = SAND) then
            let '(r, o) := draw o in
            if Qltb r (1 # 1000) then (rest, setTile w tx ty' DIRT, o)
            else (rest, w, o)
          else (rest, w, o)
        else (particle :: rest, w, o)
  end.

Definition updateWeatherParticles (dt : Q) (cam : Camera) (we : Weather)
  (w : World) (o : Rand) : Weather * World * Rand :=
  if bool_decide (wtype we = clear) then (we, w, o)
  else
    let particleCount :=
      if bool_decide (wtype we = rain) then Qfloor (intensity we * 3 * dt)
      else Qfloor (intensity we * 5 * dt) in
    let '(ps, o) := spawn_particles (Z.to_nat particleCount) (wtype we) cam
                      (particles we) o in
    let '(ps, w, o) := move_particles dt (wtype we) cam ps w o in
    (mkWeather (wtype we) (intensity we) (timeLeft we) ps, w, o).

(** The countdown and trigger of [updateWeather], before the particles. *)
Definition weather_tick (dt : Q) (we : Weather) (o : Rand) : Weather * Rand :=
  if Qltb 0 (timeLeft we) then
    let we := mkWeather (wtype we) (intensity we) (timeLeft we - dt / 60) (particles we) in
    if Qle_bool (timeLeft we) 0 then (mkWeather clear 0 (timeLeft we) [], o)
    else (we, o)
  else
    let '(r, o) := draw o in
    if Qltb r ((1 # 1000) * dt) then startNewWeather o we
    else (we, o).

Definition updateWeather (dt : Q) (cam : Camera) (we : Weather) (w : World)
  (o : Rand) : Weather * World * Rand :=
  let '(we, o) := weather_tick dt we o in
  updateWeatherParticles dt cam we w o.

(** ** The frame step [update] *)

(** [a % b] on numbers: the remainder has the sign of the dividend. *)
Definition Qtrunc (q : Q) : Z := Z.quot (Qnum q) (Z.pos (Qden q)).
Definition Qrem (a b : Q) : Q := (a - b * ofZ (Qtrunc (a / b)))%Q.

(** Day/night clock (first lines of [update]). *)
Definition update_clock (dt : Q) (gs : GameState) : GameState :=
  let totalTime := (totalTime gs + dt / 60)%Q in
  let dayTime := (Qrem totalTime DAY_NIGHT_CYCLE_DURATION / DAY_NIGHT_CYCLE_DURATION)%Q in
  mkGameState dayTime totalTime (Qltb dayTime DAY_PORTION) (inventory gs) (weather gs).

(** Movement input and gravity, up to the two resolver calls. *)
Definition apply_input (inp : Input) (p : Player) : Player :=
  let left := key_left inp in
  let right := key_right inp in
  let jump := key_jump inp in
  let accel := if onGround p then MOVE_ACCEL else AIR_ACCEL in
  let p := if left && negb right then set_vx p (vx p - accel) else p in
  let p := if right && negb left then set_vx p (vx p + accel) else p in
  let p := if left && negb right then set_facing p (-1) else p in
  let p := if right && negb left then set_facing p 1 else p in
  let p := if negb (xorb left right) then set_vx p (vx p * FRICTION) else p in
  let p := set_vx p (Qmax (- MAX_RUN_SPEED) (Qmin MAX_RUN_SPEED (vx p))) in
  let p := if jump && onGround p
           then set_onGround (set_vy p JUMP_VELOCITY) false else p in
  (* Gravity *)
  set_vy p (Qmin TERMINAL_VELOCITY (vy p + GRAVITY)).

(** Integrate with collisions: one resolver call per axis. *)
Definition integrate (w : World) (p : Player) : option Player :=
  resultX ← aabbVsTiles w (pl_x p) (pl_y p) (width p) (height p) (vx p) 0;
  let p := set_pos p (res_x resultX) (pl_y p) in
  let p := if hitX resultX then set_vx p 0 else p in
  resultY ← aabbVsTiles w (pl_x p) (pl_y p) (width p) (height p) 0 (vy p);
  let p := set_pos p (pl_x p) (res_y resultY) in
  let p := if hitY resultY then set_vy p 0 else p in
  Some (set_onGround p (grounded resultY)).

Definition follow_camera (p : Player) (cam : Camera) : Camera :=
  let targetX := (pl_x p - cam_width cam / 2)%Q in
  let targetY := (pl_y p - cam_height cam / 2)%Q in
  let x := (cam_x cam + (targetX - cam_x cam) * (15 # 100))%Q in
  let y := (cam_y cam + (targetY - cam_y cam) * (15 # 100))%Q in
  let x := Qmax 0 (Qmin x (ofZ WORLD_WIDTH * TILE_SIZE - cam_width cam)) in
  let y := Qmax 0 (Qmin y (ofZ WORLD_HEIGHT * TILE_SIZE - cam_height cam)) in
  mkCamera x y (cam_width cam) (cam_height cam).

(** [Math.hypot(a, b) <= REACH], decided on the squares of the exact
    quotients.  The code compares the double [Math.hypot] returns on the
    rounded quotients, which can differ from the exact distance in the last
    bits; the two tests can disagree only for a target whose exact distance
    is within such a rounding error of [REACH]. *)
Definition inReach (p : Player) (tx ty : Z) : bool :=
  let pxTile := (pl_x p / TILE_SIZE)%Q in
  let pyTile := (pl_y p / TILE_SIZE)%Q in
  Qle_bool ((ofZ tx - pxTile) * (ofZ tx - pxTile) + (ofZ ty - pyTile) * (ofZ ty - pyTile))
           (REACH * REACH).

(** A target in reach with room to spare: the exact squared distance in tiles
    is at most 35, against [REACH * REACH = 36].  When the player or the
    target lies inside the world, the quotients are below 2^8 and the code's
    rounded distance is within 2^-40 of the exact one, while the margin to
    [REACH] is above 2^-4, so for such a target the code's [dist <= REACH]
    is true as well. *)
Definition well_in_reach (p : Player) (tx ty : Z) : bool :=
  let pxTile := (pl_x p / TILE_SIZE)%Q in
  let pyTile := (pl_y p / TILE_SIZE)%Q in
  Qle_bool ((ofZ tx - pxTile) * (ofZ tx - pxTile) + (ofZ ty - pyTile) * (ofZ ty - pyTile))
           35.

(** The player's centre lies inside the world rectangle. *)
Definition player_in_world (p : Player) : Prop :=
  (0 <= pl_x p <= ofZ WORLD_WIDTH * TILE_SIZE /\
   0 <= pl_y p <= ofZ WORLD_HEIGHT * TILE_SIZE)%Q.

(** [inventory[id] > 0]; a missing entry is [undefined], not greater than 0. *)
Definition has_item (inv : gmap Tile Z) (id : Tile) : bool :=
  match inv !! id with
  | Some n => 0 <? n
  | None => false
  end.

Definition intersectsX (p : Player) (tx : Z) : bool :=
  let tileWorldX := (ofZ tx * TILE_SIZE + TILE_SIZE / 2)%Q in
  Qltb (Qabs (tileWorldX - pl_x p)) ((TILE_SIZE + width p) / 2).

Definition intersectsY (p : Player) (ty : Z) : bool :=
  let tileWorldY := (ofZ ty * TILE_SIZE + TILE_SIZE / 2)%Q in
  Qltb (Qabs (tileWorldY - pl_y p)) ((TILE_SIZE + height p) / 2).

(** The [mouse.left] branch: mine the targeted tile. *)
Definition mine (tx ty : Z) (w : World) (inv : gmap Tile Z) : World * gmap Tile Z :=
  let t := getTile w tx ty in
  if negb (bool_decide (t = AIR)) then
    (setTile w tx ty AIR, <[t := default 0 (inv !! t) + 1]> inv)
  else (w, inv).

(** The [mouse.right] branch: place the selected hotbar tile.  An index
    outside the hotbar reads [undefined], which passes the first test and
    fails the inventory test. *)
Definition place (sel : nat) (tx ty : Z) (p : Player) (w : World)
  (inv : gmap Tile Z) : World * gmap Tile Z :=
  match HOTBAR !! sel with
  | None => (w, inv)
  | Some placeId =>
      if negb (bool_decide (placeId = AIR)) && bool_decide (getTile w tx ty = AIR) then
        if has_item inv placeId || bool_decide (placeId = DIRT) then
          if negb (intersectsX p tx && intersectsY p ty) then
            (setTile w tx ty placeId,
             if negb (bool_decide (placeId = DIRT))
             then alter (fun n => n - 1) placeId inv else inv)
          else (w, inv)
        else (w, inv)
      else (w, inv)
  end.

(** Interact: mine/place (last block of [update]). *)
Definition interact (inp : Input) (tx ty : Z) (p : Player) (w : World)
  (inv : gmap Tile Z) : World * gmap Tile Z :=
  if inReach p tx ty then
    if mouse_left inp then mine tx ty w inv
    else if mouse_right inp then place (selectedHotbar inp) tx ty p w inv
    else (w, inv)
  else (w, inv).

(** [update(dt)].  The message timer and the sprite animation, which only
    the drawing code reads, are left out.  [None] only if a resolver call
    ran out of budget, which [aabbVsTiles_total] excludes. *)
Definition update (dt : Q) (inp : Input) (o : Rand) (g : Game) : option (Game * Rand) :=
  let gs := update_clock dt (gameState g) in
  let '(we, w, o) := updateWeather dt (camera g) (weather gs) (world g) o in
  let gs := mkGameState (dayTime gs) (totalTime gs) (isDaytime gs) (inventory gs) we in
  let '(g, o) := updatePlayerHealth dt o (mkGame w (player g) (camera g) gs) in
  p ← integrate (world g) (apply_input inp (player g));
  let cam := follow_camera p (camera g) in
  let tx := tile_index (cam_x cam + mouse_x inp) in
  let ty := tile_index (cam_y cam + mouse_y inp) in
  let '(w, inv) := interact inp tx ty p (world g) (inventory (gameState g)) in
  let gs := gameState g in
  Some (mkGame w p cam
          (mkGameState (dayTime gs) (totalTime gs) (isDaytime gs) inv (weather gs)), o).

(** ** Fixtures and specification-level predicates *)

(** The grid after boot without a save: [generateWorld()] with its default
    seed on the freshly allocated grid, evaluated once
    (see [world1337_generated]). *)
Definition world1337 : World :=
  Eval vm_compute in generateWorld 1337 empty_world.

(** The target tile's square and the actor's box share interior points. *)
Definition footprint_overlaps (p : Player) (tx ty : Z) : Prop :=
  (ofZ tx * TILE_SIZE < pl_x p + width p / 2 /\
   pl_x p - width p / 2 < ofZ tx * TILE_SIZE + TILE_SIZE /\
   ofZ ty * TILE_SIZE < pl_y p + height p / 2 /\
   pl_y p - height p / 2 < ofZ ty * TILE_SIZE + TILE_SIZE)%Q.

(** Every [Math.random()] result lies in [0, 1). *)
Definition valid_rand (o : Rand) : Prop := forall n, (0 <= o n /\ o n < 1)%Q.

(** The health bounds of the data model. *)
Definition health_in_range (p : Player) : Prop :=
  (0 <= health p /\ health p <= maxHealth p)%Q.

(** The operations that touch the actor's health: a direct damage call, the
    per-frame health step (timers, fall and lightning damage, regeneration,
    respawn), and a whole frame. *)
Inductive HealthOp : Type :=
  | Damage (amount : Q)
  | HealthStep (dt : Q) (o : Rand)
  | Frame (dt : Q) (inp : Input) (o : Rand).

(** Callers pass non-negative damage; random draws lie in [0, 1). *)
Definition valid_op (op : HealthOp) : Prop :=
  match op with
  | Damage amount => (0 <= amount)%Q
  | HealthStep _ o => valid_rand o
  | Frame _ _ o => valid_rand o
  end.

Definition with_player (g : Game) (p : Player) : Game :=
  mkGame (world g) p (camera g) (gameState g).

Definition run_op (op : HealthOp) (g : Game) : option Game :=
  match op with
  | Damage amount =>
      Some (with_player g (damagePlayer (totalTime (gameState g)) amount (player g)))
  | HealthStep dt o => Some (fst (updatePlayerHealth dt o g))
  | Frame dt inp o => fst <$> update dt inp o g
  end.

Fixpoint run_ops (ops : list HealthOp) (g : Game) : option Game :=
  match ops with
  | [] => Some g
  | op :: ops => g' ← run_op op g; run_ops ops g'
  end.

(** [n] consecutive frames with the same elapsed time and input. *)
Fixpoint run_frames (n : nat) (dt : Q) (inp : Input) (o : Rand) (g : Game)
  : option Game :=
  match n with
  | O => Some g
  | Datatypes.S n' => '(g', o') ← update dt inp o g; run_frames n' dt inp o' g'
  end.

Definition no_input : Input := mkInput false false false 0 0 false false O.

(** An actor in free fall at terminal velocity above the surface of the
    default world, at full health; it lands in its second frame. *)
Definition falling_game : Game :=
  mkGame world1337
    (mkPlayer 2400 1500 0 18 18 34 false 1 100 100 0 0 false)
    (mkCamera 0 0 800 600)
    (mkGameState 0 0 true ∅ initial_weather).

(** The weather graph drawn in the design: into rain or storm from clear,
    back to clear from either. *)
Inductive weather_edge : WeatherType -> WeatherType -> Prop :=
  | clear_to_rain : weather_edge clear rain
  | clear_to_storm : weather_edge clear storm
  | rain_to_clear : weather_edge rain clear
  | storm_to_clear : weather_edge storm clear.

(** An active weather type has time left on its countdown. *)
Definition weather_ok (we : Weather) : Prop :=
  wtype we <> clear -> (0 < timeLeft we)%Q.

(** The slot [world[y][x]], if the grid has it. *)
Definition peek (w : World) (x y : nat) : option Tile :=
  row ← w !! y; row !! x.

(** Both grids have the declared size and agree on the columns left of [X]. *)
Definition agree (X : nat) (w1 w2 : World) : Prop :=
  wf_world w1 /\ wf_world w2 /\
  forall x y, (x < X)%nat -> peek w1 x y = peek w2 x y.

(** What holds of the game after [n] idle frames of [falling_game]. *)
Definition after_frames (n : nat) (P : Game -> Prop) : Prop :=
  match run_frames n 1%Q no_input (fun _ => 1 # 2)%Q falling_game with
  | Some g => P g
  | None => False
  end.

(** ** Crafting ([RECIPES] and the click handling of [drawCraftingMenu]) *)

(** A recipe's [input] and [output] objects, as the lists [Object.entries]
    yields for them: the keys are tile numbers, enumerated in ascending order
    (Stone before Wood for the torch). *)
Record Recipe : Set := mkRecipe {
  input : list (Tile * Z);
  output : list (Tile * Z)
}.

Definition RECIPES : list Recipe :=
  [ mkRecipe [(SAND, 2)] [(GLASS, 1)];
    mkRecipe [(STONE, 3)] [(BRICK, 1)];
    mkRecipe [(STONE, 1); (WOOD, 1)] [(TORCH, 4)] ].

(** "Check if we can craft this": [(inventory[id] || 0) < count] on any
    input clears [canCraft]. *)
Definition canCraft (inv : gmap Tile Z) (recipe : Recipe) : bool :=
  forallb (fun '(inputId, count) => negb (default 0 (inv !! inputId) <? count))
          (input recipe).

(** "Consume inputs": [inventory[id] -= count].  The statement is only
    reached under [canCraft], where every input has an entry. *)
Definition consume (recipe : Recipe) (inv : gmap Tile Z) : gmap Tile Z :=
  fold_left (fun inv '(inputId, count) => alter (fun n => n - count) inputId inv)
            (input recipe) inv.

(** "Add outputs": [inventory[id] = (inventory[id] || 0) + count]. *)
Definition produce (recipe : Recipe) (inv : gmap Tile Z) : gmap Tile Z :=
  fold_left (fun inv '(outputId, count) =>
               <[outputId := default 0 (inv !! outputId) + count]> inv)
            (output recipe) inv.

(** The click test of the Craft button drawn for the recipe at [recipeY]. *)
Definition craft_clicked (menuX menuWidth recipeY : Q) (mx my : Q) : bool :=
  Qle_bool (menuX + menuWidth - 70) mx && Qle_bool mx (menuX + menuWidth - 20) &&
  Qle_bool (recipeY - 10) my && Qle_bool my (recipeY + 10).

(** The loop over the recipes; the state is [mouse.left] and the inventory. *)
Fixpoint craft_loop (menuX menuWidth : Q) (mx my : Q) (recipes : list Recipe)
  (recipeY : Q) (s : bool * gmap Tile Z) : bool * gmap Tile Z :=
  match recipes with
  | [] => s
  | recipe :: rest =>
      let '(mouseLeft, inv) := s in
      let s :=
        if canCraft inv recipe &&
           (mouseLeft && craft_clicked menuX menuWidth recipeY mx my)
        then (false, produce recipe (consume recipe inv))
        else (mouseLeft, inv) in
      craft_loop menuX menuWidth mx my rest (recipeY + 40)%Q s
  end.

(** What [drawCraftingMenu] does besides drawing. *)
Definition drawCraftingMenu (cam : Camera) (mx my : Q) (mouseLeft : bool)
  (inv : gmap Tile Z) : bool * gmap Tile Z :=
  let menuWidth := 300%Q in
  let menuHeight := 250%Q in
  let menuX := ((cam_width cam - menuWidth) / 2)%Q in
  let menuY := ((cam_height cam - menuHeight) / 2)%Q in
  craft_loop menuX menuWidth mx my RECIPES (menuY + 100)%Q (mouseLeft, inv).

(** ** Sprite animation state ([player_anim.js]) *)

Module PlayerAnim.

Inductive State : Set := idle | run | jump | fall.

(** [player.anim] *)
Record Anim : Set := mkAnim {
  time : Q;
  walk : Q;
  state : State
}.

Definition determineState (p : Player) : State :=
  if negb (onGround p) then
    (if Qltb (vy p) (- (5 # 10)) then jump else fall)
  else if Qltb (25 # 100) (Qabs (vx p)) then run
  else idle.

(** [update(player, dt)]; [None] stands for a player object that has no
    [anim] field yet. *)
Definition update (p : Player) (anim : option Anim) (dt : Q) : Anim :=
  let anim := default (mkAnim 0 0 idle) anim in
  let state := determineState p in
  let time := (time anim + dt)%Q in
  (* advance walk cycle based on horizontal speed *)
  let walkSpeed := (Qmin (15 # 10) (Qabs (vx p) / (45 # 10)) * (35 # 100))%Q in
  mkAnim time
    (walk anim + walkSpeed * dt * (if onGround p then 1 else 3 # 10))%Q
    state.

End PlayerAnim.

(** ** Hotbar selection (the [keydown] handler) *)

Definition HOTBAR_SIZE : Z := 9.

(** What the handler tells apart in [e.key]: a digit character, the letters
    q and e in either case, anything else. *)
Inductive Key : Set := KeyDigit (d : Z) | KeyQ | KeyE | KeyOther.

(** The handler's effect on [selectedHotbar]; [%] is the remainder of
    truncated division. *)
Definition keydown (repeat : bool) (key : Key) (selectedHotbar : Z) : Z :=
  if repeat then selectedHotbar
  else
    (* Hotbar selection (1-9) *)
    let selectedHotbar :=
      match key with
      | KeyDigit d => if (1 <=? d) && (d <=? 9) then d - 1 else selectedHotbar
      | _ => selectedHotbar
      end in
    (* Scroll through hotbar with Q and E *)
    let selectedHotbar :=
      match key with
      | KeyQ => Z.rem (selectedHotbar - 1 + HOTBAR_SIZE) HOTBAR_SIZE
      | _ => selectedHotbar
      end in
    match key with
    | KeyE => Z.rem (selectedHotbar + 1) HOTBAR_SIZE
    | _ => selectedHotbar
    end.

(** ** Predicates and views used by the further properties *)

(** The surface heights and biomes [generateWorld(seed)] works with. *)
Definition heights_of (seed : Z) : list Z :=
  fst (gen_heights (Z.to_nat WORLD_WIDTH) seed
         (Qfloor (ofZ WORLD_HEIGHT * (55 # 100)))).

Definition biomes_of (seed : Z) : list Biome :=
  let '(_, a) := gen_heights (Z.to_nat WORLD_WIDTH) seed
                   (Qfloor (ofZ WORLD_HEIGHT * (55 # 100))) in
  let '(r, a) := mulberry32 a in
  fst (gen_biomes (Z.to_nat WORLD_WIDTH) a forest (20 + Qfloor (r * 30))).

(** Neighbouring entries of a list differ by at most one. *)
Fixpoint gentle (prev : Z) (hs : list Z) : Prop :=
  match hs with
  | [] => True
  | h :: hs' => Z.abs (h - prev) <= 1 /\ gentle h hs'
  end.

(** The surface and sub-surface tiles of a biome. *)
Definition surface_tile (b : Biome) : Tile :=
  match b with forest => GRASS | desert => SAND end.

Definition subsurface_tile (b : Biome) : Tile :=
  match b with forest => DIRT | desert => SAND end.

(** The shape of a finished column [x] with surface row [g] in biome [b]:
    stone at depth, dirt that patches may have turned to stone down to five
    rows under the surface, untouched layers above that, the surface tile,
    and above it air, or the wood of a trunk at most seven rows high. *)
Definition column_shape (b : Biome) (g : Z) (w : World) (x : Z) : Prop :=
  (forall y, g + 20 < y < WORLD_HEIGHT -> cell w x y = STONE) /\
  (forall y, g + 4 < y <= g + 20 -> y < WORLD_HEIGHT ->
             cell w x y = DIRT \/ cell w x y = STONE) /\
  cell w x (g + 4) = DIRT /\
  (forall y, g < y <= g + 3 -> cell w x y = subsurface_tile b) /\
  cell w x g = surface_tile b /\
  (forall y, 0 <= y < g ->
             cell w x y = AIR \/ (cell w x y = WOOD /\ b = forest /\ g - 7 <= y)).

(** Every slot of [w'] is the slot of [w], or was changed in the way [P]
    allows (coordinates, old tile, new tile). *)
Definition changed_only (P : Z -> Z -> Tile -> Tile -> Prop) (w w' : World) : Prop :=
  forall x y, 0 <= x -> 0 <= y ->
    cell w' x y = cell w x y \/ P x y (cell w x y) (cell w' x y).

(** No inventory entry holds a negative count. *)
Definition counts_nonneg (inv : gmap Tile Z) : Prop :=
  forall t n, inv !! t = Some n -> 0 <= n.

(** Grid [w'] is grid [w] except for Sand cells that became Dirt, which
    only the weather type [ty = rain] allows. *)
Definition sand_to_dirt (ty : WeatherType) (w w' : World) : Prop :=
  forall x y, getTile w' x y = getTile w x y \/
              (getTile w x y = SAND /\ getTile w' x y = DIRT /\ ty = rain).

(** The generator state with which the column loop of [generateWorld(seed)]
    starts, after the heights and the biomes have been drawn. *)
Definition columns_start (seed : Z) : Z :=
  let '(_, a) := gen_heights (Z.to_nat WORLD_WIDTH) seed
                   (Qfloor (ofZ WORLD_HEIGHT * (55 # 100))) in
  let '(r, a) := mulberry32 a in
  snd (gen_biomes (Z.to_nat WORLD_WIDTH) a forest (20 + Qfloor (r * 30))).

(** The generator state when the column loop reaches column [x]. *)
Definition column_state (seed : Z) (x : Z) : Z :=
  fst (for_lt 0 x (gen_column (heights_of seed) (biomes_of seed))
         (columns_start seed, empty_world)).

(** The pass of the column loop for column [x] alone, run on an empty grid
    with the generator state the loop has there. *)
Definition own_pass (seed : Z) (x : Z) : World :=
  snd (gen_column (heights_of seed) (biomes_of seed) x
         (column_state seed x, empty_world)).

(** Both grids have the declared size and hold the same column [X]. *)
Definition same_column (X : nat) (w1 w2 : World) : Prop :=
  wf_world w1 /\ wf_world w2 /\ forall y, peek w1 X y = peek w2 X y.

(** * Proofs *)

Lemma world1337_generated : world1337 = generateWorld 1337 empty_world.
Proof. vm_compute. reflexivity. Qed.

(** * Rational arithmetic helpers *)

(** [lra] does not look through divisions; divisions by literals are turned
    into multiplications first. *)
Ltac qlra := unfold Qdiv in *; cbn [Qinv Qnum Qden] in *; lra.

Section QHelpers.
Open Scope Q_scope.

Lemma Qltb_lt a b : Qltb a b = true <-> a < b.
Proof.
  unfold Qltb. rewrite negb_true_iff. split.
  - intros H. apply Qnot_le_lt. intros Hle. apply Qle_bool_iff in Hle. congruence.
  - intros H. destruct (Qle_bool b a) eqn:E; [|reflexivity].
    apply Qle_bool_iff in E. lra.
Qed.

Lemma Qltb_ge a b : Qltb a b = false <-> b <= a.
Proof.
  unfold Qltb. rewrite negb_false_iff. apply Qle_bool_iff.
Qed.

Lemma Qle_bool_gt a b : Qle_bool a b = false <-> b < a.
Proof.
  rewrite <- Qltb_lt. unfold Qltb. destruct (Qle_bool a b); simpl; intuition congruence.
Qed.

Lemma Qnonzero_true q : Qnonzero q = true <-> ~ q == 0.
Proof.
  unfold Qnonzero. rewrite negb_true_iff. split.
  - intros H. apply Qeq_bool_neq. exact H.
  - intros H. destruct (Qeq_bool q 0) eqn:E; [|reflexivity].
    apply Qeq_bool_iff in E. contradiction.
Qed.

Lemma Qnonzero_false q : Qnonzero q = false <-> q == 0.
Proof.
  unfold Qnonzero. rewrite negb_false_iff. apply Qeq_bool_iff.
Qed.

Lemma Qfloor_ub x : x < inject_Z (Qfloor x) + 1.
Proof.
  pose proof (Qlt_floor x) as H. rewrite inject_Z_plus in H. exact H.
Qed.

Lemma Qfloor_spec x z : Qfloor x = z <-> inject_Z z <= x < inject_Z z + 1.
Proof.
  split.
  - intros <-. split; [apply Qfloor_le|apply Qfloor_ub].
  - intros [H1 H2].
    pose proof (Qfloor_le x) as H3. pose proof (Qfloor_ub x) as H4.
    assert (inject_Z z < inject_Z (Qfloor x + 1)) as A
      by (rewrite inject_Z_plus; change (inject_Z 1) with 1; lra).
    assert (inject_Z (Qfloor x) < inject_Z (z + 1)) as B
      by (rewrite inject_Z_plus; change (inject_Z 1) with 1; lra).
    rewrite <- Zlt_Qlt in A, B. lia.
Qed.

Lemma Qfloor_ge_iff x z : (z <= Qfloor x)%Z <-> inject_Z z <= x.
Proof.
  pose proof (Qfloor_le x) as H3. pose proof (Qfloor_ub x) as H4.
  split.
  - intros H. rewrite Zle_Qle in H. lra.
  - intros H. assert (inject_Z z < inject_Z (Qfloor x + 1)) as A
      by (rewrite inject_Z_plus; change (inject_Z 1) with 1; lra).
    rewrite <- Zlt_Qlt in A. lia.
Qed.

Lemma Qceiling_spec x z : Qceiling x = z <-> inject_Z z - 1 < x <= inject_Z z.
Proof.
  unfold Qceiling. split.
  - intros <-. pose proof (proj1 (Qfloor_spec (- x) _) eq_refl) as [H1 H2].
    rewrite inject_Z_opp. lra.
  - intros [H1 H2]. assert (Qfloor (- x) = (- z)%Z) as ->; [|lia].
    apply Qfloor_spec. rewrite inject_Z_opp. lra.
Qed.

Lemma inject_Z_pred z : inject_Z (z - 1) == inject_Z z - 1.
Proof. unfold Z.sub. rewrite inject_Z_plus. unfold Qminus. reflexivity. Qed.

Lemma inject_Z_succ z : inject_Z (z + 1) == inject_Z z + 1.
Proof. rewrite inject_Z_plus. reflexivity. Qed.

Lemma Qceiling_pred x : Qceiling (x - 1) = (Qceiling x - 1)%Z.
Proof.
  apply Qceiling_spec.
  pose proof (proj1 (Qceiling_spec x _) eq_refl) as [H1 H2].
  rewrite inject_Z_pred. lra.
Qed.

Lemma Qceiling_pos x : 0 < x -> (1 <= Qceiling x)%Z.
Proof.
  intros H. pose proof (proj1 (Qceiling_spec x _) eq_refl) as [H1 H2].
  assert (inject_Z 0 < inject_Z (Qceiling x)) as A by (change (inject_Z 0) with 0; lra).
  rewrite <- Zlt_Qlt in A. lia.
Qed.

Lemma tile_index_ge c z : (z <= tile_index c)%Z <-> inject_Z z * TILE_SIZE <= c.
Proof.
  unfold tile_index, TILE_SIZE. rewrite Qfloor_ge_iff.
  split; intros H.
  - apply (Qmult_le_compat_r _ _ 24) in H; [|lra].
    assert (c / 24 * 24 == c) as E by (field). rewrite E in H. exact H.
  - apply Qle_shift_div_l; lra.
Qed.

Lemma tile_index_lt c z : (tile_index c < z)%Z <-> c < inject_Z z * TILE_SIZE.
Proof.
  split; intros H.
  - apply Qnot_le_lt. intros C. apply tile_index_ge in C. lia.
  - apply Z.lt_nge. intros C. apply tile_index_ge in C. lra.
Qed.

Lemma Qsgn_abs d : ~ d == 0 -> Qabs (Qsgn d) == 1.
Proof.
  intros H. unfold Qsgn, Qsign, ofZ. destruct d as [n den]. simpl.
  destruct n; simpl.
  - exfalso. apply H. reflexivity.
  - reflexivity.
  - reflexivity.
Qed.

Lemma Qsgn_pos d : 0 < d -> Qsgn d = 1.
Proof.
  destruct d as [n den]. unfold Qlt, Qsgn, Qsign, ofZ. simpl. intros H.
  destruct n; try lia. reflexivity.
Qed.

End QHelpers.

(** * The sweeps terminate *)
Section SweepTotal.
Open Scope Q_scope.

Lemma budget_step A moved S (fuel : nat) :
  0 < S -> moved < A ->
  (Z.to_nat (Qceiling ((A - moved) / S)) < Datatypes.S fuel)%nat ->
  (Z.to_nat (Qceiling ((A - (moved + S)) / S)) < fuel)%nat.
Proof.
  intros HS Hm Hf.
  assert ((A - (moved + S)) / S == (A - moved) / S - 1) as E by (field; lra).
  rewrite E, Qceiling_pred.
  assert (0 < (A - moved) / S) as Hpos by (apply Qlt_shift_div_l; lra).
  apply Qceiling_pos in Hpos. lia.
Qed.

Lemma sweepY_total w newX py pw ph dy dir step :
  0 < Qabs step ->
  forall fuel moved newY,
    (Z.to_nat (Qceiling ((Qabs dy - moved) / Qabs step)) < fuel)%nat ->
    is_Some (sweepY fuel w newX py pw ph dy dir step moved newY).
Proof.
  intros HS. induction fuel as [|fuel IH]; intros moved newY Hf; [lia|].
  simpl. destruct (Qltb moved (Qabs dy)) eqn:Hlt; [|eauto].
  apply Qltb_lt in Hlt.
  destruct (row_hit _ _ _ _); [destruct (Qltb 0 dir); eauto|].
  apply IH. apply budget_step; assumption.
Qed.

Lemma sweepX_total w px py pw ph dx dir step :
  0 < Qabs step ->
  forall fuel moved newX,
    (Z.to_nat (Qceiling ((Qabs dx - moved) / Qabs step)) < fuel)%nat ->
    is_Some (sweepX fuel w px py pw ph dx dir step moved newX).
Proof.
  intros HS. induction fuel as [|fuel IH]; intros moved newX Hf; [lia|].
  simpl. destruct (Qltb moved (Qabs dx)) eqn:Hlt; [|eauto].
  apply Qltb_lt in Hlt.
  destruct (column_hit _ _ _ _); [eauto|].
  apply IH. apply budget_step; assumption.
Qed.

Lemma Qabs_nonzero d : ~ d == 0 -> 0 < Qabs d.
Proof.
  intros H. destruct (Qlt_le_dec 0 d) as [Hp|Hn].
  - rewrite Qabs_pos; lra.
  - rewrite Qabs_neg; [|exact Hn].
    destruct (Qlt_le_dec d 0) as [|Hge]; [lra|].
    exfalso. apply H. lra.
Qed.

Lemma step_abs d :
  ~ d == 0 ->
  Qabs (Qsgn d * Qmin (Qabs d) TILE_SIZE) == Qmin (Qabs d) TILE_SIZE /\
  0 < Qmin (Qabs d) TILE_SIZE.
Proof.
  intros H. pose proof (Qabs_nonzero d H) as Hpos.
  assert (0 < Qmin (Qabs d) TILE_SIZE) as Hmin.
  { apply Q.min_glb_lt; [exact Hpos|reflexivity]. }
  split; [|exact Hmin].
  rewrite Qabs_Qmult, (Qsgn_abs d H), Qabs_pos; lra.
Qed.

Lemma sweep_fuel_enough d step :
  ~ d == 0 -> step = Qsgn d * Qmin (Qabs d) TILE_SIZE ->
  0 < Qabs step /\
  (Z.to_nat (Qceiling ((Qabs d - 0) / Qabs step)) < sweep_fuel d)%nat.
Proof.
  intros H ->. destruct (step_abs d H) as [E Hpos].
  split; [rewrite E; exact Hpos|].
  unfold sweep_fuel.
  assert ((Qabs d - 0) / Qabs (Qsgn d * Qmin (Qabs d) TILE_SIZE)
          == Qabs d / Qmin (Qabs d) TILE_SIZE) as ->.
  { rewrite E. field. lra. }
  lia.
Qed.

Theorem aabbVsTiles_total w px py pw ph dx dy :
  is_Some (aabbVsTiles w px py pw ph dx dy).
Proof.
  unfold aabbVsTiles.
  assert (is_Some (if Qnonzero dx
    then sweepX (sweep_fuel dx) w px py pw ph dx (Qsgn dx)
           (Qsgn dx * Qmin (Qabs dx) TILE_SIZE) 0 (px + dx)
    else Some (inr (px + dx)))) as [h Hh].
  { destruct (Qnonzero dx) eqn:Ex; [|eauto].
    apply Qnonzero_true in Ex.
    destruct (sweep_fuel_enough dx _ Ex eq_refl) as [H1 H2].
    apply sweepX_total; assumption. }
  rewrite Hh. cbn [mbind option_bind]. destruct h as [r|newX]; [eauto|].
  destruct (Qnonzero dy) eqn:Ey; [|eauto].
  apply Qnonzero_true in Ey.
  destruct (sweep_fuel_enough dy _ Ey eq_refl) as [H1 H2].
  apply sweepY_total; assumption.
Qed.

End SweepTotal.

(** * Frame properties of the two sweeps *)
Section SweepFrame.
Open Scope Q_scope.

#[global] Instance tile_index_comp : Proper (Qeq ==> eq) tile_index.
Proof. intros a b E. unfold tile_index. rewrite E. reflexivity. Qed.

Lemma sweepX_keeps_y w px py pw ph dx dir step :
  forall fuel moved newX r,
    sweepX fuel w px py pw ph dx dir step moved newX = Some (inl r) ->
    res_y r = py /\ hitX r = true /\ grounded r = false.
Proof.
  induction fuel as [|fuel IH]; intros moved newX r; simpl; [discriminate|].
  destruct (Qltb moved (Qabs dx)); [|discriminate].
  destruct (column_hit _ _ _ _).
  - intros [= <-]. simpl. auto.
  - apply IH.
Qed.

Lemma sweepY_keeps_x w newX py pw ph dy dir step :
  forall fuel moved newY r,
    sweepY fuel w newX py pw ph dy dir step moved newY = Some r ->
    res_x r = newX /\ hitX r = false.
Proof.
  induction fuel as [|fuel IH]; intros moved newY r; simpl; [discriminate|].
  destruct (Qltb moved (Qabs dy)).
  - destruct (row_hit _ _ _ _).
    + destruct (Qltb 0 dir); intros [= <-]; simpl; auto.
    + apply IH.
  - intros [= <-]. simpl. auto.
Qed.

(** Unfolding of the resolver when one of the deltas is zero. *)
Lemma aabbVsTiles_dx0 w px py pw ph dx dy :
  dx == 0 ->
  aabbVsTiles w px py pw ph dx dy =
    if Qnonzero dy then
      sweepY (sweep_fuel dy) w (px + dx) py pw ph dy (Qsgn dy)
        (Qsgn dy * Qmin (Qabs dy) TILE_SIZE) 0 (py + dy)
    else Some (mkResult (px + dx) (py + dy) false false false).
Proof.
  intros H. apply Qnonzero_false in H. unfold aabbVsTiles. rewrite H. reflexivity.
Qed.

Lemma row_hit_true w ty left right tx :
  (left <= tx <= right)%Z -> isSolid (getTile w tx ty) = true ->
  row_hit w ty left right = true.
Proof.
  intros Hr Hs. unfold row_hit. apply existsb_exists. exists tx. split; [|exact Hs].
  apply list_elem_of_In, elem_of_seqZ. lia.
Qed.

Lemma row_hit_false w ty left right :
  (forall tx, (left <= tx <= right)%Z -> getTile w tx ty = AIR) ->
  row_hit w ty left right = false.
Proof.
  intros H. unfold row_hit. apply not_true_is_false. intros C.
  apply existsb_exists in C as (tx & Hin & Hs).
  apply list_elem_of_In, elem_of_seqZ in Hin.
  rewrite H in Hs by lia. discriminate.
Qed.

End SweepFrame.

Section Landing.
Open Scope Q_scope.

Variable w : World.
Variables newX py pw ph dy step : Q.
Variable R : Z.

Let left := tile_index (newX - pw / 2).
Let right := tile_index (newX + pw / 2).

Hypothesis step_size : 0 < Qabs step /\ Qabs step <= TILE_SIZE.
Hypothesis dy_pos : 0 < dy.
Hypothesis free_above :
  forall r tx, (tile_index (py + ph / 2 - 1) <= r < R)%Z ->
               (left <= tx <= right)%Z -> getTile w tx r = AIR.
Hypothesis blocked :
  exists tx, (left <= tx <= right)%Z /\ isSolid (getTile w tx R) = true.
Hypothesis reaches : ofZ R * TILE_SIZE - (py + ph / 2) + 1 <= dy.

Lemma sweepY_lands :
  forall fuel moved newY,
    0 <= moved ->
    py + ph / 2 - 1 + moved < ofZ R * TILE_SIZE ->
    (Z.to_nat (Qceiling ((Qabs dy - moved) / Qabs step)) < fuel)%nat ->
    sweepY fuel w newX py pw ph dy 1 step moved newY =
      Some (mkResult newX (ofZ R * TILE_SIZE - ph / 2) true false true).
Proof.
  destruct step_size as [HS1 HS2]. unfold TILE_SIZE in HS2.
  unfold left, right in *.
  assert (Qabs dy == dy) as EA by (apply Qabs_pos; lra).
  induction fuel as [|fuel IH]; intros moved newY Hm Hbelow Hf; [lia|].
  simpl.
  assert (moved < Qabs dy) as Hlt by (unfold TILE_SIZE in *; lra).
  rewrite (proj2 (Qltb_lt _ _) Hlt).
  change (Qltb 0 1) with true. cbv iota.
  set (s := Qmin (Qabs dy) (moved + Qabs step)).
  assert (0 <= s /\ s <= moved + Qabs step /\ (s == Qabs dy \/ s == moved + Qabs step))
    as (Hs0 & Hs1 & Hs2).
  { destruct (Q.min_spec (Qabs dy) (moved + Qabs step)) as [[? E]|[? E]];
      fold s in E; rewrite E; repeat split; try lra; auto. }
  set (bottom := tile_index (py + s * 1 + ph / 2 - 1)).
  assert (tile_index (py + ph / 2 - 1) <= bottom)%Z as Hb0.
  { apply tile_index_ge.
    pose proof (proj1 (tile_index_ge (py + ph / 2 - 1) _) (Z.le_refl _)). lra. }
  assert (bottom < R + 1)%Z as Hb1.
  { apply tile_index_lt. rewrite inject_Z_succ. unfold ofZ, TILE_SIZE in *. lra. }
  destruct (Z.eq_dec bottom R) as [Heq|Hne].
  - rewrite Heq. destruct blocked as (tx & Hr & Hsolid).
    rewrite (row_hit_true w R _ _ tx Hr Hsolid). reflexivity.
  - rewrite row_hit_false.
    2:{ intros tx Hr. apply free_above; [lia|exact Hr]. }
    assert (bottom < R)%Z as Hbl by lia.
    apply tile_index_lt in Hbl. unfold ofZ, TILE_SIZE in *.
    apply IH.
    + lra.
    + destruct Hs2 as [E|E]; lra.
    + apply budget_step; assumption.
Qed.

End Landing.

(** * Claims on the grid accessors and the resolver *)
Section ResolverClaims.
Open Scope Q_scope.

(** C2.  For every coordinate outside the grid bounds
    0 <= x < WORLD_WIDTH, 0 <= y < WORLD_HEIGHT, [getTile] returns the solid
    sentinel tile Stone and [setTile] leaves the whole grid unchanged. *)
Theorem out_of_bounds_access (w : World) (x y : Z) (tile : Tile) :
  ~ (0 <= x < WORLD_WIDTH /\ 0 <= y < WORLD_HEIGHT)%Z ->
  getTile w x y = STONE /\ isSolid (getTile w x y) = true /\ setTile w x y tile = w.
Proof.
  intros H. assert (inBounds x y = false) as E.
  { unfold inBounds. apply not_true_is_false. intros C.
    rewrite !andb_true_iff in C. destruct C as [[[A B] C] D].
    apply H. unfold WORLD_WIDTH, WORLD_HEIGHT in *. lia. }
  unfold getTile, setTile. rewrite E. simpl. auto.
Qed.

(** Left of and below the grid. *)
Lemma out_of_bounds_access_witness :
  getTile world1337 (-1) 200 = STONE /\
  isSolid (getTile world1337 (-1) 200) = true /\
  setTile world1337 (-1) 200 AIR = world1337.
Proof.
  apply (out_of_bounds_access world1337 (-1) 200 AIR).
  unfold WORLD_WIDTH, WORLD_HEIGHT. lia.
Defined.

(** C10.  For every position, half-extents and displacement the resolver
    returns a result; with a zero vertical delta its y is the input y, and
    with a zero horizontal delta its x is the input x. *)
Theorem axis_sweeps_independent (w : World) (px py pw ph dx dy : Q) :
  (dy == 0 ->
   exists r, aabbVsTiles w px py pw ph dx dy = Some r /\ res_y r == py) /\
  (dx == 0 ->
   exists r, aabbVsTiles w px py pw ph dx dy = Some r /\ res_x r == px).
Proof.
  destruct (aabbVsTiles_total w px py pw ph dx dy) as [r Hr].
  split; intros H0; exists r; (split; [exact Hr|]).
  - unfold aabbVsTiles in Hr.
    destruct (Qnonzero dx) eqn:Ex.
    + destruct (sweepX _ _ _ _ _ _ _ _ _ _ _) as [[r'|newX]|] eqn:Es;
        cbn [mbind option_bind] in Hr; [| |discriminate].
      * injection Hr as <-. apply sweepX_keeps_y in Es as [-> _]. reflexivity.
      * rewrite (proj2 (Qnonzero_false dy) H0) in Hr. injection Hr as <-. simpl. lra.
    + cbn [mbind option_bind] in Hr.
      rewrite (proj2 (Qnonzero_false dy) H0) in Hr. injection Hr as <-. simpl. lra.
  - rewrite (aabbVsTiles_dx0 _ _ _ _ _ _ _ H0) in Hr.
    destruct (Qnonzero dy).
    + apply sweepY_keeps_x in Hr as [-> _]. lra.
    + injection Hr as <-. simpl. lra.
Qed.

(** A purely horizontal and a purely vertical move on the default world. *)
Lemma axis_sweeps_independent_witness :
  (exists r, aabbVsTiles world1337 2400 1496 18 34 5 0 = Some r /\ res_y r == 1496) /\
  (exists r, aabbVsTiles world1337 2400 1496 18 34 0 5 = Some r /\ res_x r == 2400).
Proof.
  split.
  - apply (axis_sweeps_independent world1337 2400 1496 18 34 5 0). reflexivity.
  - apply (axis_sweeps_independent world1337 2400 1496 18 34 0 5). reflexivity.
Defined.

(** C4, as the code has it.  A resolver call with zero horizontal and zero
    vertical delta returns the input position unchanged and reports
    grounded = false (no sweep runs, so no contact is reported), wherever the
    actor stands, also when it rests exactly on a solid row. *)
Theorem zero_motion_is_identity_ungrounded (w : World) (px py pw ph dx dy : Q) :
  dx == 0 -> dy == 0 ->
  exists r, aabbVsTiles w px py pw ph dx dy = Some r /\
            res_x r == px /\ res_y r == py /\ grounded r = false /\
            hitX r = false /\ hitY r = false.
Proof.
  intros Hx Hy. rewrite (aabbVsTiles_dx0 _ _ _ _ _ _ _ Hx).
  rewrite (proj2 (Qnonzero_false dy) Hy).
  eexists. split; [reflexivity|]. simpl. repeat split; lra.
Qed.

(** The actor resting on row 64 of the default world. *)
Lemma zero_motion_is_identity_ungrounded_witness :
  exists r, aabbVsTiles world1337 2400 1519 18 34 0 0 = Some r /\
            res_x r == 2400 /\ res_y r == 1519 /\ grounded r = false /\
            hitX r = false /\ hitY r = false.
Proof.
  apply (zero_motion_is_identity_ungrounded world1337 2400 1519 18 34 0 0);
    reflexivity.
Defined.

(** C4 as stated fails: at rest on a solid row, zero motion reports
    grounded = false. *)
Lemma resting_zero_motion_not_grounded :
  (* the box of the actor at (2400, 1519) ends exactly on the top edge of
     row 64, which is solid under it *)
  1519 + 34 / 2 == ofZ 64 * TILE_SIZE /\
  isSolid (getTile world1337 99 64) = true /\
  tile_index (2400 - 18 / 2) = 99%Z /\
  ~ (exists r, aabbVsTiles world1337 2400 1519 18 34 0 0 = Some r /\
               grounded r = true /\ res_x r == 2400 /\ res_y r == 1519).
Proof.
  split; [reflexivity|]. split; [vm_compute; reflexivity|].
  split; [vm_compute; reflexivity|].
  intros (r & Hr & Hg & _).
  assert (aabbVsTiles world1337 2400 1519 18 34 0 0
          = Some (mkResult 2400 1519 false false false)) as E
    by (vm_compute; reflexivity).
  rewrite E in Hr. injection Hr as <-. discriminate Hg.
Qed.

(** C3 fails in the code.  On the default world the box of the actor at
    (2400, 1496), 18 wide and 34 high, ends 23 units above row 64, which is
    solid under it, with row 63 free.  Asked to move straight down by 23.5,
    more than the remaining gap, the resolver reports no contact: the actor
    ends at y = 1519.5, not grounded, its bottom edge half a unit inside the
    solid row, instead of at 64 * TILE_SIZE - 17 = 1519 and grounded.  The
    downward test samples the row of the bottom edge minus one unit, so an
    overlap below one unit goes unseen; a delta of 24 does snap to 1519, and
    the rightward test, which samples the edge itself, stops the same box at
    a wall it would enter by half a unit. *)
Theorem landing_within_one_unit_sinks_into_floor :
  (* the remaining gap is 23, the requested delta 23.5 *)
  ofZ 64 * TILE_SIZE - (1496 + 34 / 2) == 23 /\
  23 <= 47 # 2 /\
  tile_index (2400 - 18 / 2) = 99%Z /\ tile_index (2400 + 18 / 2) = 100%Z /\
  isSolid (getTile world1337 99 64) = true /\
  getTile world1337 99 63 = AIR /\ getTile world1337 100 63 = AIR /\
  (* what the resolver returns *)
  aabbVsTiles world1337 2400 1496 18 34 0 (47 # 2)
    = Some (mkResult 2400 (3039 # 2) false false false) /\
  ofZ 64 * TILE_SIZE < (3039 # 2) + 34 / 2 /\
  (* what the claim requires *)
  ~ (exists r, aabbVsTiles world1337 2400 1496 18 34 0 (47 # 2) = Some r /\
               res_y r == ofZ 64 * TILE_SIZE - 34 / 2 /\ grounded r = true) /\
  (* one more half unit and the same fall lands *)
  (exists r, aabbVsTiles world1337 2400 1496 18 34 0 24 = Some r /\
             res_y r == ofZ 64 * TILE_SIZE - 34 / 2 /\ grounded r = true) /\
  (* the rightward test stops on an overlap of half a unit *)
  isSolid (getTile world1337 105 64) = true /\
  2508 + 18 / 2 + (7 # 2) == ofZ 105 * TILE_SIZE + (1 # 2) /\
  (exists r, aabbVsTiles world1337 2508 1543 18 34 (7 # 2) 0 = Some r /\
             res_x r == ofZ 105 * TILE_SIZE - 18 / 2 /\ hitX r = true).
Proof.
  assert (aabbVsTiles world1337 2400 1496 18 34 0 (47 # 2)
          = Some (mkResult 2400 (3039 # 2) false false false)) as E
    by (vm_compute; reflexivity).
  split; [reflexivity|]. split; [vm_compute; discriminate|].
  split; [vm_compute; reflexivity|]. split; [vm_compute; reflexivity|].
  split; [vm_compute; reflexivity|]. split; [vm_compute; reflexivity|].
  split; [vm_compute; reflexivity|]. split; [exact E|].
  split; [vm_compute; reflexivity|].
  split.
  { intros (r & Hr & _ & Hg). rewrite E in Hr. injection Hr as <-.
    discriminate Hg. }
  split.
  { destruct (aabbVsTiles world1337 2400 1496 18 34 0 24) as [r|] eqn:Er;
      [|vm_compute in Er; discriminate Er].
    exists r. split; [reflexivity|].
    vm_compute in Er. injection Er as <-. split; reflexivity. }
  split; [vm_compute; reflexivity|]. split; [reflexivity|].
  destruct (aabbVsTiles world1337 2508 1543 18 34 (7 # 2) 0) as [r|] eqn:Er;
    [|vm_compute in Er; discriminate Er].
  exists r. split; [reflexivity|].
  vm_compute in Er. injection Er as <-. split; reflexivity.
Qed.

End ResolverClaims.

Section Interaction.
Open Scope Q_scope.

Lemma overlap_intersects (p : Player) (tx ty : Z) :
  footprint_overlaps p tx ty ->
  intersectsX p tx = true /\ intersectsY p ty = true.
Proof.
  unfold footprint_overlaps, intersectsX, intersectsY, TILE_SIZE.
  intros (H1 & H2 & H3 & H4).
  split; apply Qltb_lt, Qabs_Qlt_condition; unfold ofZ in *; qlra.
Qed.

Lemma has_item_zero (inv : gmap Tile Z) (id : Tile) :
  default 0%Z (inv !! id) = 0%Z -> has_item inv id = false.
Proof.
  unfold has_item. destruct (inv !! id) as [n|]; simpl; [|reflexivity].
  intros ->. reflexivity.
Qed.

(** C5.  A place attempt (right button, left button up) is refused, leaving
    grid and inventory unchanged, whenever the target tile is not Air, or the
    selected hotbar tile is Air, or the inventory holds none of the selected
    tile and it is not Dirt, or the target tile's square overlaps the actor's
    box. *)
Theorem place_refused (inp : Input) (tx ty : Z) (p : Player) (w : World)
  (inv : gmap Tile Z) (placeId : Tile) :
  mouse_left inp = false ->
  HOTBAR !! selectedHotbar inp = Some placeId ->
  getTile w tx ty <> AIR \/
  placeId = AIR \/
  (default 0%Z (inv !! placeId) = 0%Z /\ placeId <> DIRT) \/
  footprint_overlaps p tx ty ->
  interact inp tx ty p w inv = (w, inv).
Proof.
  intros Hleft Hsel Hcase. unfold interact. rewrite Hleft.
  destruct (inReach p tx ty); [|reflexivity].
  destruct (mouse_right inp); [|reflexivity].
  unfold place. rewrite Hsel.
  destruct Hcase as [Hocc|[Hair|[[Hzero Hnd]|Hov]]].
  - rewrite (bool_decide_eq_false_2 _ Hocc), andb_false_r. reflexivity.
  - rewrite (bool_decide_eq_true_2 _ Hair). reflexivity.
  - rewrite (has_item_zero _ _ Hzero), (bool_decide_eq_false_2 _ Hnd).
    simpl. destruct (_ && _); reflexivity.
  - destruct (overlap_intersects p tx ty Hov) as [-> ->]. simpl.
    destruct (_ && _); [|reflexivity]. destruct (_ || _); reflexivity.
Qed.

(** Stone selected (slot 2) with an empty inventory. *)
Lemma place_refused_witness :
  interact (mkInput false false false 0 0 false true 1%nat) 100 60
    (mkPlayer 2400 1519 0 0 18 34 true 1 100 100 0 0 true) world1337 ∅
  = (world1337, ∅).
Proof.
  apply (place_refused _ _ _ _ _ _ STONE).
  - reflexivity.
  - reflexivity.
  - right. right. left. split; [reflexivity|discriminate].
Defined.

End Interaction.

Section Health.
Open Scope Q_scope.

Lemma damagePlayer_in_range now amount p :
  0 <= amount -> health_in_range p -> health_in_range (damagePlayer now amount p).
Proof.
  intros Ha [H0 H1]. unfold damagePlayer.
  destruct (Qltb 0 (invulnerableTime p)); [split; assumption|].
  unfold health_in_range. simpl. split.
  - apply Q.le_max_l.
  - apply Q.max_lub; lra.
Qed.

Lemma spawn_scan_health n y w p :
  health (spawn_scan n y w p) = health p /\
  maxHealth (spawn_scan n y w p) = maxHealth p.
Proof.
  revert y. induction n as [|n IH]; intros y; simpl; [auto|].
  destruct (bool_decide _); [simpl; auto|apply IH].
Qed.

Lemma valid_rand_draw o :
  valid_rand o -> (0 <= fst (draw o) /\ fst (draw o) < 1) /\ valid_rand (snd (draw o)).
Proof.
  intros H. split; [apply H|]. intros n. apply H.
Qed.

Lemma lightning_amount_nonneg r : 0 <= r -> 0 <= ofZ (10 + Qfloor (r * 10)).
Proof.
  intros H. assert (0 <= Qfloor (r * 10))%Z as Hf.
  { apply Qfloor_ge_iff. change (inject_Z 0) with 0. lra. }
  unfold ofZ. change 0 with (inject_Z 0). rewrite <- Zle_Qle. lia.
Qed.

Lemma fallDamage_nonneg p : 0 <= ofZ (fallDamage p).
Proof.
  unfold ofZ, fallDamage. change 0 with (inject_Z 0). rewrite <- Zle_Qle. lia.
Qed.

(** The health step keeps the bounds, whatever the elapsed time. *)
Lemma updatePlayerHealth_in_range dt o g :
  valid_rand o -> health_in_range (player g) ->
  health_in_range (player (fst (updatePlayerHealth dt o g))).
Proof.
  intros Ho Hin. unfold updatePlayerHealth.
  set (p1 := if Qltb 0 (invulnerableTime (player g)) then _ else _).
  assert (health_in_range p1) as H1.
  { subst p1. destruct (Qltb _ _); exact Hin. }
  clearbody p1.
  set (p2 := if fall_damage_due p1 then _ else _).
  assert (health_in_range p2) as H2.
  { subst p2. destruct (fall_damage_due p1); [|exact H1].
    destruct (_ <? _)%Z; [|exact H1].
    apply damagePlayer_in_range; [apply fallDamage_nonneg|exact H1]. }
  clearbody p2.
  set (p3 := set_wasOnGround p2 (onGround p2)).
  assert (health_in_range p3) as H3 by exact H2.
  clearbody p3.
  destruct (valid_rand_draw o Ho) as [[Hr0 _] Ho1].
  destruct (valid_rand_draw _ Ho1) as [[Hr1 _] _].
  set (q := if bool_decide _ && negb _ then _ else _).
  assert (health_in_range (fst q)) as H4.
  { subst q. destruct (_ && _); [|exact H3].
    simpl. destruct (_ && _); [|exact H3].
    simpl. apply damagePlayer_in_range; [|exact H3].
    apply lightning_amount_nonneg. exact Hr1. }
  destruct q as [p4 o4]. simpl in H4.
  set (p5 := if Qltb (health p4) (maxHealth p4) && _ then _ else _).
  assert (health p5 <= maxHealth p5 /\ 0 <= maxHealth p5) as [H5 H5'].
  { destruct H4 as [A B]. subst p5. destruct (_ && _); simpl.
    - split; [apply Q.le_min_l|lra].
    - split; lra. }
  clearbody p5. simpl.
  destruct (Qle_bool (health p5) 0) eqn:Hdead.
  - unfold spawnPlayerOnSurface, health_in_range.
    destruct (spawn_scan_health (Z.to_nat WORLD_HEIGHT) 0 (world g)
                (set_health p5 (maxHealth p5))) as [-> ->].
    simpl. split; lra.
  - apply Qle_bool_gt in Hdead. split; lra.
Qed.

End Health.

Section RandThreading.
Open Scope Q_scope.

Lemma startNewWeather_valid o we :
  valid_rand o -> valid_rand (snd (startNewWeather o we)).
Proof.
  intros H. unfold startNewWeather, draw.
  destruct (Qltb (o O) (7 # 10)); simpl; intros n; apply H.
Qed.

Lemma weather_tick_valid dt we o :
  valid_rand o -> valid_rand (snd (weather_tick dt we o)).
Proof.
  intros H. unfold weather_tick.
  destruct (Qltb 0 (timeLeft we)).
  - destruct (Qle_bool _ _); exact H.
  - unfold draw. cbv iota beta.
    destruct (Qltb (o O) _); [|intros n; apply H].
    apply startNewWeather_valid. intros n; apply H.
Qed.

Lemma spawn_particles_valid n ty cam :
  forall ps o, valid_rand o -> valid_rand (snd (spawn_particles n ty cam ps o)).
Proof.
  induction n as [|n IH]; intros ps o H; simpl; [exact H|].
  apply IH. intros k. apply H.
Qed.

Lemma move_particles_valid dt ty cam ps :
  forall w o, valid_rand o -> valid_rand (snd (move_particles dt ty cam ps w o)).
Proof.
  induction ps as [|p ps IH]; intros w o H; simpl; [exact H|].
  specialize (IH w o H).
  destruct (move_particles dt ty cam ps w o) as [[rest w'] o']. simpl in IH.
  destruct (Qltb _ _); [exact IH|].
  destruct (isSolid _); [|exact IH].
  destruct (_ && _); [|exact IH].
  unfold draw. cbv iota beta. destruct (Qltb (o' O) _); simpl; intros k; apply IH.
Qed.

Lemma updateWeatherParticles_valid dt cam we w o :
  valid_rand o -> valid_rand (snd (updateWeatherParticles dt cam we w o)).
Proof.
  intros H. unfold updateWeatherParticles.
  destruct (bool_decide _); [exact H|].
  set (n := Z.to_nat _).
  pose proof (spawn_particles_valid n (wtype we) cam (particles we) o H) as H1.
  destruct (spawn_particles _ _ _ _ _) as [ps o1]. simpl in H1.
  pose proof (move_particles_valid dt (wtype we) cam ps w o1 H1) as H2.
  destruct (move_particles _ _ _ _ _ _) as [[ps' w'] o2]. exact H2.
Qed.

Lemma updateWeather_valid dt cam we w o :
  valid_rand o -> valid_rand (snd (updateWeather dt cam we w o)).
Proof.
  intros H. unfold updateWeather.
  pose proof (weather_tick_valid dt we o H) as H1.
  destruct (weather_tick dt we o) as [we' o']. simpl in H1.
  apply updateWeatherParticles_valid, H1.
Qed.

End RandThreading.

Section FrameHealth.
Open Scope Q_scope.

Lemma apply_input_health inp p :
  health (apply_input inp p) = health p /\
  maxHealth (apply_input inp p) = maxHealth p.
Proof.
  unfold apply_input.
  repeat match goal with |- context [if ?c then _ else _] => destruct c end;
    simpl; auto.
Qed.

Lemma integrate_health w p p' :
  integrate w p = Some p' -> health p' = health p /\ maxHealth p' = maxHealth p.
Proof.
  unfold integrate.
  destruct (aabbVsTiles w (pl_x p) _ _ _ _ _) as [rx|]; [|discriminate].
  cbn [mbind option_bind].
  match goal with |- context [aabbVsTiles ?a ?b ?c ?d ?e ?f ?g] =>
    destruct (aabbVsTiles a b c d e f g) as [ry|] end; [|discriminate].
  cbn [mbind option_bind]. intros [= <-].
  destruct (hitX rx), (hitY ry); simpl; auto.
Qed.

Lemma integrate_total w p : is_Some (integrate w p).
Proof.
  unfold integrate.
  destruct (aabbVsTiles_total w (pl_x p) (pl_y p) (width p) (height p) (vx p) 0)
    as [rx ->].
  cbn [mbind option_bind].
  match goal with |- context [aabbVsTiles ?a ?b ?c ?d ?e ?f ?g] =>
    destruct (aabbVsTiles_total a b c d e f g) as [ry ->] end.
  cbn [mbind option_bind]. eauto.
Qed.

(** What a frame does to the actor: the health step, then input and motion. *)
Lemma update_player dt inp o g :
  exists g' o' we w o1,
    update dt inp o g = Some (g', o') /\
    updateWeather dt (camera g) (weather (update_clock dt (gameState g))) (world g) o
      = (we, w, o1) /\
    let gs := update_clock dt (gameState g) in
    let g1 := fst (updatePlayerHealth dt o1
                (mkGame w (player g) (camera g)
                   (mkGameState (dayTime gs) (totalTime gs) (isDaytime gs)
                      (inventory gs) we))) in
    integrate (world g1) (apply_input inp (player g1)) = Some (player g').
Proof.
  unfold update.
  destruct (updateWeather _ _ _ _ _) as [[we w] o1].
  destruct (updatePlayerHealth _ _ _) as [g1 o2] eqn:E1.
  destruct (integrate_total (world g1) (apply_input inp (player g1))) as [p Hp].
  rewrite Hp. cbn [mbind option_bind].
  destruct (interact _ _ _ _ _ _) as [w' inv'].
  eexists _, _, we, w, o1. split; [reflexivity|]. split; [reflexivity|].
  cbv zeta. rewrite E1. exact Hp.
Qed.

Lemma update_in_range dt inp o g :
  valid_rand o -> health_in_range (player g) ->
  exists g' o', update dt inp o g = Some (g', o') /\ health_in_range (player g').
Proof.
  intros Ho Hin.
  destruct (update_player dt inp o g) as (g' & o' & we & w & o1 & Hu & Hw & Hi).
  exists g', o'. split; [exact Hu|].
  pose proof (updateWeather_valid dt (camera g)
                (weather (update_clock dt (gameState g))) (world g) o Ho) as Hv.
  rewrite Hw in Hv. simpl in Hv. cbv zeta in Hi.
  match type of Hi with integrate (world ?G) _ = _ => set (g1 := G) in * end.
  apply integrate_health in Hi as [Eh Em].
  destruct (apply_input_health inp (player g1)) as [Eh' Em'].
  unfold health_in_range. rewrite Eh, Em, Eh', Em'. subst g1.
  apply updatePlayerHealth_in_range; [exact Hv|exact Hin].
Qed.

(** C6.  After every sequence of damage calls, health steps (fall and
    lightning damage, regeneration, respawn) and whole frames, the sequence
    runs to the end and the actor's health satisfies
    0 <= health <= maxHealth. *)
Theorem health_stays_in_range (ops : list HealthOp) (g : Game) :
  Forall valid_op ops ->
  health_in_range (player g) ->
  exists g', run_ops ops g = Some g' /\
             (0 <= health (player g') /\ health (player g') <= maxHealth (player g')).
Proof.
  intros Hops. revert g. induction Hops as [|op ops Hop _ IH]; intros g Hin.
  - exists g. split; [reflexivity|exact Hin].
  - assert (exists g1, run_op op g = Some g1 /\ health_in_range (player g1))
      as (g1 & E1 & H1).
    { destruct op as [amount|dt o|dt inp o]; simpl in Hop |- *.
      - eexists. split; [reflexivity|]. simpl.
        apply damagePlayer_in_range; assumption.
      - eexists. split; [reflexivity|].
        apply updatePlayerHealth_in_range; assumption.
      - destruct (update_in_range dt inp o g Hop Hin) as (g' & o' & -> & H').
        exists g'. split; [reflexivity|exact H']. }
    destruct (IH g1 H1) as (g' & E' & H').
    exists g'. split; [|exact H'].
    simpl. rewrite E1. exact E'.
Qed.

(** A damage call, a health step and a frame on the falling actor. *)
Lemma health_stays_in_range_witness :
  exists g',
    run_ops [Damage 30; HealthStep 1 (fun _ => 1 # 2);
             Frame 1 no_input (fun _ => 1 # 2)] falling_game = Some g' /\
    (0 <= health (player g') /\ health (player g') <= maxHealth (player g')).
Proof.
  apply (health_stays_in_range
           [Damage 30; HealthStep 1 (fun _ => 1 # 2);
            Frame 1 no_input (fun _ => 1 # 2)] falling_game).
  - repeat constructor; try discriminate; reflexivity.
  - split; [discriminate|]. vm_compute. discriminate.
Defined.

End FrameHealth.

Section FallDamage.
Open Scope Q_scope.

Lemma sweepY_grounded_hit w newX py pw ph dy dir step :
  forall fuel moved newY r,
    sweepY fuel w newX py pw ph dy dir step moved newY = Some r ->
    grounded r = true -> hitY r = true.
Proof.
  induction fuel as [|fuel IH]; intros moved newY r; simpl; [discriminate|].
  destruct (Qltb moved (Qabs dy)).
  - destruct (row_hit _ _ _ _).
    + destruct (Qltb 0 dir); intros [= <-]; simpl; auto.
    + apply IH.
  - intros [= <-]. simpl. discriminate.
Qed.

(** [grounded] is only ever reported together with a vertical hit. *)
Lemma aabbVsTiles_grounded_hit w px py pw ph dx dy r :
  aabbVsTiles w px py pw ph dx dy = Some r -> grounded r = true -> hitY r = true.
Proof.
  unfold aabbVsTiles.
  destruct (if Qnonzero dx then _ else _) as [[r'|newX]|] eqn:Eh;
    cbn [mbind option_bind]; [| |discriminate].
  - intros [= <-] Hg. destruct (Qnonzero dx); [|discriminate].
    apply sweepX_keeps_y in Eh as (_ & _ & Hf). congruence.
  - destruct (Qnonzero dy).
    + apply sweepY_grounded_hit.
    + intros [= <-]. simpl. discriminate.
Qed.

(** Landing zeroes the vertical velocity: after the motion step an actor on
    the ground has no fall speed left. *)
Lemma integrate_grounded_still w p p' :
  integrate w p = Some p' -> onGround p' = true -> vy p' = 0.
Proof.
  unfold integrate.
  destruct (aabbVsTiles w (pl_x p) _ _ _ _ _) as [rx|]; [|discriminate].
  cbn [mbind option_bind].
  match goal with |- context [aabbVsTiles ?a ?b ?c ?d ?e ?f ?g] =>
    destruct (aabbVsTiles a b c d e f g) as [ry|] eqn:Ey end; [|discriminate].
  cbn [mbind option_bind]. intros [= <-]. simpl. intros Hg.
  rewrite (aabbVsTiles_grounded_hit _ _ _ _ _ _ _ _ Ey Hg). reflexivity.
Qed.

Lemma update_grounded_still dt inp o g g' o' :
  update dt inp o g = Some (g', o') ->
  onGround (player g') = true -> vy (player g') = 0.
Proof.
  intros Hu.
  destruct (update_player dt inp o g) as (g2 & o2 & we & w & o1 & Hu' & _ & Hi).
  rewrite Hu in Hu'. injection Hu' as <- <-.
  apply (integrate_grounded_still _ _ _ Hi).
Qed.

(** The guard of the fall-damage block is false in every state a frame
    produces, so the block never runs on the following frame. *)
Lemma fall_damage_guard_unreachable dt inp o g g' o' :
  update dt inp o g = Some (g', o') ->
  forall t, fall_damage_due (set_invulnerableTime (player g') t) = false /\
            fall_damage_due (player g') = false.
Proof.
  intros Hu t. pose proof (update_grounded_still _ _ _ _ _ _ Hu) as H.
  unfold fall_damage_due. simpl.
  destruct (onGround (player g')).
  - rewrite H by reflexivity. split; reflexivity.
  - rewrite !andb_false_r. split; reflexivity.
Qed.

(** C7: evaluation at the failing input.  The actor of [falling_game] falls
    at terminal velocity (frame 1), lands in frame 2 and stands in frame 3; its
    health is 100 throughout, although the impact speed 18 exceeds 70% of
    terminal velocity by an amount worth 27 points of fall damage. *)
Theorem landing_at_terminal_velocity_costs_no_health :
  after_frames 1 (fun g => onGround (player g) = false /\ vy (player g) == 18 /\
                           health (player g) == 100) /\
  after_frames 2 (fun g => onGround (player g) = true /\ health (player g) == 100) /\
  after_frames 3 (fun g => health (player g) == 100) /\
  Z.max 0 (Qfloor ((18 - TERMINAL_VELOCITY * (7 # 10)) * 5)) = 27%Z.
Proof.
  split; [|split; [|split]].
  - vm_compute. repeat split; reflexivity.
  - vm_compute. repeat split; reflexivity.
  - vm_compute. reflexivity.
  - vm_compute. reflexivity.
Qed.

End FallDamage.

Section WeatherMachine.
Open Scope Q_scope.

Lemma updateWeatherParticles_fields dt cam we w o :
  let we' := fst (fst (updateWeatherParticles dt cam we w o)) in
  wtype we' = wtype we /\ intensity we' = intensity we /\
  timeLeft we' = timeLeft we /\
  (wtype we = clear -> particles we' = particles we).
Proof.
  unfold updateWeatherParticles.
  destruct (bool_decide (wtype we = clear)) eqn:E.
  - simpl. auto.
  - apply bool_decide_eq_false in E.
    destruct (spawn_particles _ _ _ _ _) as [ps o1].
    destruct (move_particles _ _ _ _ _ _) as [[ps' w'] o2]. simpl.
    repeat split; try reflexivity. intros C. contradiction.
Qed.

(** The countdown and the trigger, before particles are touched. *)
Lemma weather_tick_machine dt we o :
  0 < dt -> valid_rand o -> weather_ok we ->
  let we' := fst (weather_tick dt we o) in
  (wtype we' = wtype we \/ weather_edge (wtype we) (wtype we')) /\
  (wtype we <> clear -> timeLeft we' < timeLeft we) /\
  (wtype we <> clear -> timeLeft we' <= 0 ->
   wtype we' = clear /\ intensity we' == 0 /\ particles we' = []) /\
  weather_ok we'.
Proof.
  intros Hdt Ho Hok. unfold weather_tick, weather_ok.
  destruct (Qltb 0 (timeLeft we)) eqn:Hact.
  - apply Qltb_lt in Hact. cbn [timeLeft].
    destruct (Qle_bool (timeLeft we - dt / 60) 0) eqn:Hend; cbn [fst];
      cbn [wtype intensity timeLeft particles].
    + apply Qle_bool_iff in Hend. split; [|split; [|split]].
      * destruct (wtype we); [left; reflexivity|right; constructor..].
      * intros _. qlra.
      * intros _ _. repeat split; reflexivity.
      * intros C. contradiction.
    + apply Qle_bool_gt in Hend. split; [|split; [|split]].
      * left; reflexivity.
      * intros _. qlra.
      * intros _ C. exfalso. qlra.
      * intros _. exact Hend.
  - apply Qltb_ge in Hact.
    assert (wtype we = clear) as Hclear.
    { destruct (decide (wtype we = clear)) as [|Hn]; [assumption|].
      specialize (Hok Hn). lra. }
    unfold draw. cbv iota beta.
    destruct (Qltb (o O) ((1 # 1000) * dt)).
    + unfold startNewWeather, draw.
      destruct (Ho 3%nat) as [H0 _].
      destruct (Qltb (o 1%nat) (7 # 10)); cbn [fst wtype intensity timeLeft particles];
        rewrite Hclear; (split; [|split; [|split]]);
        try (intros C; contradiction);
        try (right; constructor);
        intros _; lra.
    + cbn [fst]. split; [|split; [|split]]; try (intros C; contradiction).
      left; reflexivity.
Qed.

(** C8.  One step of the weather machine, from a state in which an active
    type has time left and with a positive elapsed time: the type stays or
    moves along clear->rain, clear->storm, rain->clear or storm->clear; while a
    type is active [timeLeft] strictly decreases; when it reaches <= 0 the
    type is clear, the intensity 0 and the particle list empty; and the state
    reached again gives an active type time left. *)
Theorem weather_machine (dt : Q) (cam : Camera) (we : Weather) (w : World)
  (o : Rand) :
  0 < dt -> valid_rand o -> weather_ok we ->
  let we' := fst (fst (updateWeather dt cam we w o)) in
  (wtype we' = wtype we \/ weather_edge (wtype we) (wtype we')) /\
  (wtype we <> clear -> timeLeft we' < timeLeft we) /\
  (wtype we <> clear -> timeLeft we' <= 0 ->
   wtype we' = clear /\ intensity we' == 0 /\ particles we' = []) /\
  weather_ok we'.
Proof.
  intros Hdt Ho Hok.
  pose proof (weather_tick_machine dt we o Hdt Ho Hok) as Htick.
  unfold updateWeather.
  destruct (weather_tick dt we o) as [we1 o1]. cbn [fst] in Htick.
  destruct (updateWeatherParticles_fields dt cam we1 w o1) as (Et & Ei & El & Ep).
  cbv zeta in *.
  set (we' := fst (fst (updateWeatherParticles dt cam we1 w o1))) in *.
  clearbody we'.
  destruct Htick as (T1 & T2 & T3 & T4).
  unfold weather_ok in *. rewrite Et, El, Ei.
  split; [|split; [|split]].
  - exact T1.
  - exact T2.
  - intros Ha Hz. destruct (T3 Ha Hz) as (Hc & Hi & Hp).
    split; [exact Hc|]. split; [exact Hi|]. rewrite (Ep Hc). exact Hp.
  - exact T4.
Qed.

(** Rain with a hundredth of a second left ends within the frame. *)
Lemma weather_machine_witness :
  let we := mkWeather rain (1 # 2) (1 # 100) [] in
  let we' := fst (fst (updateWeather 1 (mkCamera 0 0 800 600) we world1337
                         (fun _ => 1 # 2))) in
  (wtype we' = wtype we \/ weather_edge (wtype we) (wtype we')) /\
  (wtype we <> clear -> timeLeft we' < timeLeft we) /\
  (wtype we <> clear -> timeLeft we' <= 0 ->
   wtype we' = clear /\ intensity we' == 0 /\ particles we' = []) /\
  weather_ok we'.
Proof.
  apply (weather_machine 1 (mkCamera 0 0 800 600)
           (mkWeather rain (1 # 2) (1 # 100) []) world1337 (fun _ => 1 # 2)).
  - reflexivity.
  - intros n. split; [discriminate|reflexivity].
  - intros _. reflexivity.
Defined.

End WeatherMachine.

Section Spawn.
Open Scope Q_scope.

(** C9.  On the grid generated with seed 1337, [spawnPlayerOnSurface] scans
    the centre column 100, whose first non-Air tile from the top is the Grass
    tile of row 65, and places the actor at the centre column's x and exactly
    two tile heights above that row. *)
Theorem spawn_two_tiles_above_surface (p : Player) :
  let w := generateWorld 1337 empty_world in
  let column := Qfloor (ofZ WORLD_WIDTH / 2) in
  let p' := spawnPlayerOnSurface w p in
  column = 100%Z /\
  getTile w column 65 = GRASS /\
  (forall y, (0 <= y < 65)%Z -> getTile w column y = AIR) /\
  pl_x p' == ofZ column * TILE_SIZE /\
  pl_y p' == (65 - 2) * TILE_SIZE.
Proof.
  cbv zeta. rewrite <- world1337_generated.
  split; [reflexivity|]. split; [vm_compute; reflexivity|].
  split; [|split].
  - assert (forallb (fun y => bool_decide (getTile world1337 100 y = AIR))
              (seqZ 0 65) = true) as H by (vm_compute; reflexivity).
    intros y Hy. rewrite forallb_forall in H.
    change (Qfloor (ofZ WORLD_WIDTH / 2)) with 100%Z.
    assert (In y (seqZ 0 65)) as Hin by (apply list_elem_of_In, elem_of_seqZ; lia).
    apply H in Hin. apply bool_decide_eq_true in Hin. exact Hin.
  - vm_compute. reflexivity.
  - vm_compute. reflexivity.
Qed.

End Spawn.

(** * Loop invariants *)
Section Loops.
Context {S : Type}.

(** Two runs of the same loop from related states stay related. *)
Lemma for_count_rel (R : Z -> S -> S -> Prop) (body : Z -> S -> S) :
  forall n i s1 s2,
    (forall j t1 t2, i <= j < i + Z.of_nat n ->
                     R j t1 t2 -> R (j + 1) (body j t1) (body j t2)) ->
    R i s1 s2 ->
    R (i + Z.of_nat n) (for_count n i body s1) (for_count n i body s2).
Proof.
  induction n as [|n IH]; intros i s1 s2 Hstep H0; simpl for_count.
  - replace (i + Z.of_nat 0) with i by lia. exact H0.
  - replace (i + Z.of_nat (Datatypes.S n)) with (i + 1 + Z.of_nat n) by lia.
    apply IH.
    + intros j t1 t2 Hj. apply Hstep. lia.
    + apply Hstep; [lia|exact H0].
Qed.

Lemma for_lt_rel (R : S -> S -> Prop) (body : Z -> S -> S) lo hi s1 s2 :
  (forall j t1 t2, lo <= j < hi -> R t1 t2 -> R (body j t1) (body j t2)) ->
  R s1 s2 -> R (for_lt lo hi body s1) (for_lt lo hi body s2).
Proof.
  intros Hstep H0. unfold for_lt.
  apply (for_count_rel (fun _ => R) body (Z.to_nat (hi - lo)) lo s1 s2); [|exact H0].
  intros j t1 t2 Hj. apply Hstep. lia.
Qed.

(** The indexed form, for a loop that runs from [lo] up to [hi >= lo]. *)
Lemma for_lt_rel_indexed (R : Z -> S -> S -> Prop) (body : Z -> S -> S) lo hi s1 s2 :
  lo <= hi ->
  (forall j t1 t2, lo <= j < hi -> R j t1 t2 -> R (j + 1) (body j t1) (body j t2)) ->
  R lo s1 s2 -> R hi (for_lt lo hi body s1) (for_lt lo hi body s2).
Proof.
  intros Hle Hstep H0. unfold for_lt.
  replace hi with (lo + Z.of_nat (Z.to_nat (hi - lo))) at 1 by lia.
  apply for_count_rel; [|exact H0].
  intros j t1 t2 Hj. apply Hstep. lia.
Qed.

End Loops.

(** * Reading and writing cells *)
Section Grid.

Lemma cell_peek w tx ty : cell w tx ty = default AIR (peek w (Z.to_nat tx) (Z.to_nat ty)).
Proof. reflexivity. Qed.

Lemma peek_store w tx ty id x y :
  peek (store w tx ty id) x y =
    if decide (x = Z.to_nat tx /\ y = Z.to_nat ty)
    then (fun _ => id) <$> peek w x y else peek w x y.
Proof.
  unfold peek, store.
  destruct (decide (y = Z.to_nat ty)) as [->|Hy].
  - rewrite list_lookup_alter_eq.
    destruct (w !! Z.to_nat ty) as [row|] eqn:Er; simpl.
    + destruct (decide (x = Z.to_nat tx)) as [->|Hx].
      * rewrite decide_True by auto.
        destruct (row !! Z.to_nat tx) as [t|] eqn:Et; simpl.
        -- apply list_lookup_insert_eq. eapply lookup_lt_Some. exact Et.
        -- apply lookup_ge_None. rewrite length_insert.
           apply lookup_ge_None in Et. exact Et.
      * rewrite decide_False by tauto.
        apply list_lookup_insert_ne. congruence.
    + destruct (decide _); reflexivity.
  - rewrite list_lookup_alter_ne by congruence.
    rewrite decide_False by tauto. reflexivity.
Qed.

Lemma wf_world_store w tx ty id : wf_world w -> wf_world (store w tx ty id).
Proof.
  intros [Hl Hr]. unfold store, wf_world. split.
  - rewrite length_alter. exact Hl.
  - apply Forall_alter; [exact Hr|].
    intros row _ Hrow. rewrite length_insert. exact Hrow.
Qed.

Lemma wf_world_peek w x y :
  wf_world w ->
  is_Some (peek w x y) <-> (x < Z.to_nat WORLD_WIDTH /\ y < Z.to_nat WORLD_HEIGHT)%nat.
Proof.
  intros [Hl Hr]. unfold peek. split.
  - intros [t Ht]. destruct (w !! y) as [row|] eqn:Er; simpl in Ht; [|discriminate].
    split.
    + rewrite Forall_lookup in Hr. rewrite <- (Hr _ _ Er).
      eapply lookup_lt_Some. exact Ht.
    + rewrite <- Hl. eapply lookup_lt_Some. exact Er.
  - intros [Hx Hy].
    destruct (lookup_lt_is_Some_2 w y) as [row Er]; [lia|].
    rewrite Er. simpl. apply lookup_lt_is_Some_2.
    rewrite Forall_lookup in Hr. rewrite (Hr _ _ Er). exact Hx.
Qed.

(** Two grids of the declared size with the same slots are the same grid. *)
Lemma world_ext w1 w2 :
  wf_world w1 -> wf_world w2 ->
  (forall x y, (x < Z.to_nat WORLD_WIDTH)%nat -> peek w1 x y = peek w2 x y) ->
  w1 = w2.
Proof.
  intros Hw1 Hw2 H. apply list_eq. intros y.
  destruct (decide (y < Z.to_nat WORLD_HEIGHT)%nat) as [Hy|Hy].
  - destruct Hw1 as [Hl1 Hr1], Hw2 as [Hl2 Hr2].
    destruct (lookup_lt_is_Some_2 w1 y) as [r1 E1]; [lia|].
    destruct (lookup_lt_is_Some_2 w2 y) as [r2 E2]; [lia|].
    rewrite E1, E2. f_equal. apply list_eq. intros x.
    rewrite Forall_lookup in Hr1, Hr2.
    destruct (decide (x < Z.to_nat WORLD_WIDTH)%nat) as [Hx|Hx].
    + specialize (H x y Hx). unfold peek in H. rewrite E1, E2 in H. exact H.
    + rewrite !lookup_ge_None_2; [reflexivity| |].
      * rewrite (Hr2 _ _ E2). lia.
      * rewrite (Hr1 _ _ E1). lia.
  - destruct Hw1 as [Hl1 _], Hw2 as [Hl2 _].
    rewrite !lookup_ge_None_2; [reflexivity|lia|lia].
Qed.

Lemma wf_empty_world : wf_world empty_world.
Proof.
  unfold empty_world, wf_world. split.
  - apply length_replicate.
  - apply Forall_replicate, length_replicate.
Qed.

End Grid.

(** * The extended generator does not depend on the grid it overwrites *)
Section Determinism.

Lemma agree_store X w1 w2 tx ty id :
  agree X w1 w2 -> agree X (store w1 tx ty id) (store w2 tx ty id).
Proof.
  intros (H1 & H2 & H). split; [|split]; try (apply wf_world_store; assumption).
  intros x y Hx. rewrite !peek_store, (H x y Hx). reflexivity.
Qed.

Lemma agree_store_l X w1 w2 tx ty id :
  (X <= Z.to_nat tx)%nat -> agree X w1 w2 -> agree X (store w1 tx ty id) w2.
Proof.
  intros Hc (H1 & H2 & H). split; [|split]; try (apply wf_world_store); try assumption.
  intros x y Hx. rewrite peek_store, decide_False by lia. apply H, Hx.
Qed.

Lemma agree_store_r X w1 w2 tx ty id :
  (X <= Z.to_nat tx)%nat -> agree X w1 w2 -> agree X w1 (store w2 tx ty id).
Proof.
  intros Hc (H1 & H2 & H). split; [|split]; try (apply wf_world_store); try assumption.
  intros x y Hx. rewrite peek_store, decide_False by lia. apply H, Hx.
Qed.

Lemma agree_cell X w1 w2 tx ty :
  agree X w1 w2 -> (Z.to_nat tx < X)%nat -> cell w1 tx ty = cell w2 tx ty.
Proof.
  intros (_ & _ & H) Hx. rewrite !cell_peek, (H _ _ Hx). reflexivity.
Qed.

(** Laying the layers of column [x] makes the grids agree on it too. *)
Lemma layers_agree (f : Z -> Tile) x w1 w2 :
  0 <= x < WORLD_WIDTH ->
  agree (Z.to_nat x) w1 w2 ->
  agree (Datatypes.S (Z.to_nat x))
    (for_lt 0 WORLD_HEIGHT (fun y w => store w x y (f y)) w1)
    (for_lt 0 WORLD_HEIGHT (fun y w => store w x y (f y)) w2).
Proof.
  intros Hx Hag.
  set (R := fun (y : Z) (u1 u2 : World) =>
    wf_world u1 /\ wf_world u2 /\
    forall x' y', (x' < Z.to_nat x)%nat \/ (x' = Z.to_nat x /\ Z.of_nat y' < y) ->
                  peek u1 x' y' = peek u2 x' y').
  assert (R WORLD_HEIGHT
            (for_lt 0 WORLD_HEIGHT (fun y w => store w x y (f y)) w1)
            (for_lt 0 WORLD_HEIGHT (fun y w => store w x y (f y)) w2))
    as (H1 & H2 & H).
  { apply (for_lt_rel_indexed R); [unfold WORLD_HEIGHT; lia| |].
    - intros j t1 t2 Hj (W1 & W2 & Hp).
      split; [|split]; try (apply wf_world_store; assumption).
      intros x' y' Hc. rewrite !peek_store.
      destruct (decide (x' = Z.to_nat x /\ y' = Z.to_nat j)) as [[-> ->]|Hn].
      + assert (is_Some (peek t1 (Z.to_nat x) (Z.to_nat j))) as [a ->].
        { apply wf_world_peek; [exact W1|]. unfold WORLD_WIDTH, WORLD_HEIGHT in *. lia. }
        assert (is_Some (peek t2 (Z.to_nat x) (Z.to_nat j))) as [b ->].
        { apply wf_world_peek; [exact W2|]. unfold WORLD_WIDTH, WORLD_HEIGHT in *. lia. }
        reflexivity.
      + apply Hp. destruct Hc as [Hc|[-> Hc]]; [left; exact Hc|].
        right. split; [reflexivity|]. 
        assert (y' <> Z.to_nat j) by tauto. lia.
    - destruct Hag as (W1 & W2 & Hp). split; [exact W1|]. split; [exact W2|].
      intros x' y' [Hc|[_ Hc]]; [apply Hp, Hc|lia]. }
  split; [exact H1|]. split; [exact H2|].
  intros x' y' Hc.
  destruct (decide (y' < Z.to_nat WORLD_HEIGHT)%nat) as [Hy|Hy].
  - apply H. destruct (decide (x' = Z.to_nat x)) as [->|Hne].
    + right. split; [reflexivity|]. unfold WORLD_HEIGHT in *. lia.
    + left. lia.
  - assert (peek (for_lt 0 WORLD_HEIGHT (fun y w => store w x y (f y)) w1) x' y' = None)
      as ->.
    { apply eq_None_not_Some. rewrite (wf_world_peek _ _ _ H1). lia. }
    symmetry. apply eq_None_not_Some. rewrite (wf_world_peek _ _ _ H2). lia.
Qed.

Lemma stone_patch_agree x sy sh sw w1 w2 :
  0 <= x ->
  agree (Datatypes.S (Z.to_nat x)) w1 w2 ->
  agree (Datatypes.S (Z.to_nat x)) (stone_patch x sy sh sw w1) (stone_patch x sy sh sw w2).
Proof.
  intros Hx. unfold stone_patch.
  apply for_lt_rel. intros yy t1 t2 _.
  apply for_lt_rel. intros xx u1 u2 Hxx Hag.
  destruct (decide (xx = x)) as [->|Hne].
  - rewrite (agree_cell _ u1 u2 x yy Hag) by lia.
    destruct (negb _); [apply agree_store|]; exact Hag.
  - assert (Datatypes.S (Z.to_nat x) <= Z.to_nat xx)%nat as Hc by lia.
    destruct (negb (bool_decide (cell u1 xx yy = AIR))),
             (negb (bool_decide (cell u2 xx yy = AIR)));
      repeat first [apply agree_store_l; [exact Hc|] | apply agree_store_r; [exact Hc|]];
      exact Hag.
Qed.

Lemma tree_trunk_agree X x groundY treeHeight w1 w2 :
  agree X w1 w2 ->
  agree X (tree_trunk x groundY treeHeight w1) (tree_trunk x groundY treeHeight w2).
Proof.
  unfold tree_trunk. apply for_lt_rel. intros ty t1 t2 _ Hag.
  destruct (_ >=? _); [apply agree_store|]; exact Hag.
Qed.

Lemma sprinkle_patch_agree x groundY a w1 w2 :
  0 <= x ->
  agree (Datatypes.S (Z.to_nat x)) w1 w2 ->
  fst (sprinkle_patch x groundY (a, w1)) = fst (sprinkle_patch x groundY (a, w2)) /\
  agree (Datatypes.S (Z.to_nat x))
    (snd (sprinkle_patch x groundY (a, w1))) (snd (sprinkle_patch x groundY (a, w2))).
Proof.
  intros Hx Hag. unfold sprinkle_patch.
  destruct (mulberry32 a) as [r a1]. destruct (Qltb r (1 # 10)).
  - destruct (mulberry32 a1) as [r1 b1]. destruct (mulberry32 b1) as [r2 b2].
    destruct (mulberry32 b2) as [r3 b3]. simpl. split; [reflexivity|].
    apply stone_patch_agree; assumption.
  - simpl. split; [reflexivity|exact Hag].
Qed.

Lemma grow_tree_agree X biome x groundY a w1 w2 :
  agree X w1 w2 ->
  fst (grow_tree biome x groundY (a, w1)) = fst (grow_tree biome x groundY (a, w2)) /\
  agree X (snd (grow_tree biome x groundY (a, w1)))
          (snd (grow_tree biome x groundY (a, w2))).
Proof.
  intros Hag. unfold grow_tree. destruct biome.
  - destruct (mulberry32 a) as [r a1]. destruct (Qltb r (3 # 100)).
    + destruct (mulberry32 a1) as [r4 a2]. simpl. split; [reflexivity|].
      apply tree_trunk_agree, Hag.
    + simpl. split; [reflexivity|exact Hag].
  - simpl. split; [reflexivity|exact Hag].
Qed.

Lemma gen_column_agree heights biomes x a w1 w2 :
  0 <= x < WORLD_WIDTH ->
  agree (Z.to_nat x) w1 w2 ->
  fst (gen_column heights biomes x (a, w1)) = fst (gen_column heights biomes x (a, w2)) /\
  agree (Z.to_nat (x + 1))
    (snd (gen_column heights biomes x (a, w1)))
    (snd (gen_column heights biomes x (a, w2))).
Proof.
  intros Hx Hag. replace (Z.to_nat (x + 1)) with (Datatypes.S (Z.to_nat x)) by lia.
  unfold gen_column.
  set (groundY := default 0 (heights !! Z.to_nat x)).
  set (biome := default forest (biomes !! Z.to_nat x)).
  pose proof (layers_agree (layer_tile biome groundY) x w1 w2 Hx Hag) as Hl.
  set (u1 := for_lt 0 WORLD_HEIGHT _ w1) in *.
  set (u2 := for_lt 0 WORLD_HEIGHT _ w2) in *.
  clearbody u1 u2.
  destruct (sprinkle_patch_agree x groundY a u1 u2 (proj1 Hx) Hl) as [Ea Hv].
  destruct (sprinkle_patch x groundY (a, u1)) as [a1 v1].
  destruct (sprinkle_patch x groundY (a, u2)) as [a2 v2].
  simpl in Ea, Hv. subst a2.
  apply grow_tree_agree, Hv.
Qed.

Lemma columns_agree heights biomes a w1 w2 :
  wf_world w1 -> wf_world w2 ->
  let s1 := for_lt 0 WORLD_WIDTH (gen_column heights biomes) (a, w1) in
  let s2 := for_lt 0 WORLD_WIDTH (gen_column heights biomes) (a, w2) in
  fst s1 = fst s2 /\ agree (Z.to_nat WORLD_WIDTH) (snd s1) (snd s2).
Proof.
  intros H1 H2. cbv zeta.
  apply (for_lt_rel_indexed
           (fun x (s1 s2 : Z * World) =>
              fst s1 = fst s2 /\ agree (Z.to_nat x) (snd s1) (snd s2))).
  - unfold WORLD_WIDTH. lia.
  - intros x [a1 u1] [a2 u2] Hx [Ea Hag]. simpl in Ea, Hag. subst a2.
    apply gen_column_agree; assumption.
  - simpl. split; [reflexivity|]. split; [exact H1|]. split; [exact H2|].
    intros x y Hx. lia.
Qed.

(** The grid produced by [generateWorld] is a function of the seed alone:
    whatever the grid held before, every cell is overwritten the same way. *)
Theorem generateWorld_deterministic (seed : Z) (w1 w2 : World) :
  wf_world w1 -> wf_world w2 ->
  generateWorld seed w1 = generateWorld seed w2 /\ wf_world (generateWorld seed w1).
Proof.
  intros H1 H2. unfold generateWorld.
  destruct (gen_heights _ _ _) as [heights a1].
  destruct (mulberry32 a1) as [r a2].
  destruct (gen_biomes _ _ _ _) as [biomes a3].
  destruct (columns_agree heights biomes a3 w1 w2 H1 H2) as [_ (W1 & W2 & H)].
  split; [|exact W1].
  apply world_ext; assumption.
Qed.

(** Any grid of the declared size is overwritten into the grid that a fresh
    page load generates. *)
Corollary generateWorld_from_any_grid (seed : Z) (w : World) :
  wf_world w -> generateWorld seed w = generateWorld seed empty_world.
Proof.
  intros H. apply (generateWorld_deterministic seed w empty_world H wf_empty_world).
Qed.

(** Calling the generator a second time reproduces the grid. *)
Corollary generateWorld_twice (seed : Z) (w : World) :
  wf_world w ->
  generateWorld seed (generateWorld seed w) = generateWorld seed w.
Proof.
  intros H. destruct (generateWorld_deterministic seed w w H H) as [_ Hw].
  apply (generateWorld_deterministic seed _ _ Hw H).
Qed.

End Determinism.

Section PrototypeGenerator.
Open Scope Q_scope.

(** C1: evaluation at the failing input.  The prototype's generator is run
    twice with seed 1337 on the freshly allocated grid; the two runs differ
    only in what [Math.random()] returns on its first call (0.5, then 0).
    The first run leaves dirt at column 0, row 71, the second puts a stone
    patch there: the grid is not a function of the seed. *)
Theorem mainjs_generateWorld_not_reproducible :
  let quiet : nat -> Q := fun _ => 1 # 2 in
  let lucky : nat -> Q := fun n => if Nat.eqb n 0 then 0 else 1 # 2 in
  valid_rand quiet /\ valid_rand lucky /\
  getTile (MainJs.generateWorld quiet 1337 empty_world) 0 71 = DIRT /\
  getTile (MainJs.generateWorld lucky 1337 empty_world) 0 71 = STONE /\
  MainJs.generateWorld quiet 1337 empty_world
    <> MainJs.generateWorld lucky 1337 empty_world.
Proof.
  cbv zeta.
  assert (getTile (MainJs.generateWorld (fun _ => 1 # 2) 1337 empty_world) 0 71 = DIRT)
    as Hq by (vm_compute; reflexivity).
  assert (getTile (MainJs.generateWorld (fun n => if Nat.eqb n 0 then 0 else 1 # 2)
                     1337 empty_world) 0 71 = STONE)
    as Hl by (vm_compute; reflexivity).
  split; [intros n; split; lra|].
  split; [intros n; cbv beta; destruct (Nat.eqb n 0); split; lra|].
  split; [exact Hq|]. split; [exact Hl|].
  intros E. rewrite E in Hq. rewrite Hq in Hl. discriminate Hl.
Qed.

End PrototypeGenerator.

(** * Further properties of the code *)

(** ** Grid accessors *)

Section GridAccess.

Lemma inBounds_true tx ty :
  inBounds tx ty = true <-> 0 <= tx < WORLD_WIDTH /\ 0 <= ty < WORLD_HEIGHT.
Proof.
  unfold inBounds. rewrite !andb_true_iff, !Z.leb_le, !Z.ltb_lt. lia.
Qed.

Lemma cell_store_same w tx ty id :
  wf_world w -> 0 <= tx < WORLD_WIDTH -> 0 <= ty < WORLD_HEIGHT ->
  cell (store w tx ty id) tx ty = id.
Proof.
  intros Hw Hx Hy. rewrite cell_peek, peek_store, decide_True by auto.
  destruct (proj2 (wf_world_peek w (Z.to_nat tx) (Z.to_nat ty) Hw)) as [t ->];
    [lia|reflexivity].
Qed.

Lemma cell_store_other w tx ty id x y :
  Z.to_nat x <> Z.to_nat tx \/ Z.to_nat y <> Z.to_nat ty ->
  cell (store w tx ty id) x y = cell w x y.
Proof.
  intros H. rewrite !cell_peek, peek_store, decide_False by tauto. reflexivity.
Qed.

(** A write either leaves a slot as it was or is the write to that slot. *)
Lemma cell_store_cases w tx ty id x y :
  cell (store w tx ty id) x y = cell w x y \/
  (Z.to_nat x = Z.to_nat tx /\ Z.to_nat y = Z.to_nat ty /\
   cell (store w tx ty id) x y = id).
Proof.
  rewrite !cell_peek, peek_store.
  destruct (decide _) as [[Hx Hy]|]; [|left; reflexivity].
  destruct (peek w (Z.to_nat x) (Z.to_nat y)); simpl; [right; auto|left; reflexivity].
Qed.

(** X1.  Inside the bounds a tile written with [setTile] is the tile
    [getTile] reads back, every other coordinate reads as before, and the
    grid keeps its size. *)
Theorem setTile_then_getTile (w : World) (tx ty : Z) (id : Tile) :
  wf_world w ->
  0 <= tx < WORLD_WIDTH -> 0 <= ty < WORLD_HEIGHT ->
  getTile (setTile w tx ty id) tx ty = id /\
  (forall x y, (x, y) <> (tx, ty) ->
               getTile (setTile w tx ty id) x y = getTile w x y) /\
  wf_world (setTile w tx ty id).
Proof.
  intros Hw Hx Hy.
  assert (inBounds tx ty = true) as Hin by (apply inBounds_true; auto).
  unfold setTile, getTile. rewrite Hin. simpl.
  split; [apply cell_store_same; assumption|].
  split; [|apply wf_world_store, Hw].
  intros x y Hne. destruct (inBounds x y) eqn:Hb; simpl; [|reflexivity].
  apply inBounds_true in Hb. apply cell_store_other.
  destruct (decide (x = tx)) as [->|]; [|left; lia].
  right. assert (y <> ty) by congruence. lia.
Qed.

Lemma setTile_then_getTile_witness :
  getTile (setTile world1337 100 65 BRICK) 100 65 = BRICK /\
  (forall x y, (x, y) <> (100, 65) ->
               getTile (setTile world1337 100 65 BRICK) x y = getTile world1337 x y) /\
  wf_world (setTile world1337 100 65 BRICK).
Proof.
  apply (setTile_then_getTile world1337 100 65 BRICK).
  - rewrite world1337_generated.
    apply (generateWorld_deterministic 1337 empty_world empty_world);
      apply wf_empty_world.
  - unfold WORLD_WIDTH. lia.
  - unfold WORLD_HEIGHT. lia.
Defined.

End GridAccess.

(** ** The seeded generator and the height walk *)

Section SeededGenerator.

Lemma lxor_below k a b :
  0 <= k -> 0 <= a < 2 ^ k -> 0 <= b < 2 ^ k -> 0 <= Z.lxor a b < 2 ^ k.
Proof.
  intros Hk Ha Hb.
  assert (0 <= Z.lxor a b) as Hn by (apply Z.lxor_nonneg; lia).
  split; [exact Hn|].
  destruct (Z.eq_dec (Z.lxor a b) 0) as [->|Hz]; [lia|].
  assert (0 < k) as Hkp.
  { destruct (Z.eq_dec k 0) as [->|]; [|lia]. exfalso. apply Hz.
    assert (a = 0) as -> by (change (2 ^ 0) with 1 in Ha; lia).
    assert (b = 0) as -> by (change (2 ^ 0) with 1 in Hb; lia).
    reflexivity. }
  assert (forall c, 0 <= c < 2 ^ k -> Z.log2 c < k) as Hc.
  { intros c Hcr. destruct (Z.eq_dec c 0) as [->|]; [simpl; lia|].
    apply Z.log2_lt_pow2; lia. }
  apply Z.log2_lt_pow2; [lia|].
  pose proof (Z.log2_lxor a b ltac:(lia) ltac:(lia)) as Hl.
  pose proof (Hc a Ha). pose proof (Hc b Hb). lia.
Qed.

Lemma shiftr_below k n a :
  0 <= n -> 0 <= a < 2 ^ k -> 0 <= Z.shiftr a n < 2 ^ k.
Proof.
  intros Hn Ha. rewrite Z.shiftr_div_pow2 by lia.
  assert (0 < 2 ^ n) by (apply Z.pow_pos_nonneg; lia).
  split; [apply Z.div_pos; lia|].
  apply Z.le_lt_trans with a; [|lia].
  apply Z.div_le_upper_bound; nia.
Qed.

Lemma u32_range z : 0 <= u32 z < 2 ^ 32.
Proof. unfold u32. change 4294967296 with (2 ^ 32). apply Z.mod_pos_bound. lia. Qed.

(** The value [rand()] returns is a 32-bit pattern over 2^32. *)
Lemma mulberry32_bits (a : Z) :
  exists n, 0 <= n < 4294967296 /\ fst (mulberry32 a) = (n # 4294967296)%Q.
Proof.
  unfold mulberry32. cbv zeta. cbn [fst].
  set (t0 := u32 (dbl (a + 0x6d2b79f5))).
  set (t1 := imul (Z.lxor t0 (Z.shiftr t0 15)) (Z.lor t0 1)).
  set (t2 := Z.lxor t1 (u32 (t1 + imul (Z.lxor t1 (Z.shiftr t1 7)) (Z.lor t1 61)))).
  assert (0 <= t1 < 2 ^ 32) as H1 by apply u32_range.
  assert (0 <= t2 < 2 ^ 32) as H2.
  { apply lxor_below; [lia|exact H1|apply u32_range]. }
  assert (0 <= Z.lxor t2 (Z.shiftr t2 14) < 2 ^ 32) as H3.
  { apply lxor_below; [lia|exact H2|apply shiftr_below; [lia|exact H2]]. }
  change (2 ^ 32) with 4294967296 in H3.
  eexists. split; [exact H3|reflexivity].
Qed.

Lemma rand_range a : (0 <= fst (mulberry32 a) /\ fst (mulberry32 a) < 1)%Q.
Proof.
  destruct (mulberry32_bits a) as (n & Hn & ->).
  unfold Qle, Qlt. cbn [Qnum Qden]. lia.
Qed.

(** Integers below 2^53 in magnitude are doubles. *)
Lemma dbl_exact z : Z.abs z < 2 ^ 53 -> dbl z = z.
Proof.
  intros H. unfold dbl. apply Z.ltb_lt in H. rewrite H. reflexivity.
Qed.

(** From 2^53 on the sum is rounded: the odd exact sum 2^53 + 0x6d2b79f5 is
    not a double, the state becomes its even neighbour. *)
Lemma mulberry32_state_rounds :
  snd (mulberry32 (2 ^ 53)) = 2 ^ 53 + 0x6d2b79f5 - 1.
Proof. reflexivity. Qed.

(** X2.  From every finite integer state, [rand()] returns a multiple of
    2^-32 in [0, 1); two such states whose successors agree on their low 32
    bits give the same value; and while the exact sum stays below 2^53 in magnitude the
    state advances by exactly 0x6d2b79f5. *)
Theorem mulberry32_unit_interval (a : Z) :
  finite_double a = true ->
  (0 <= fst (mulberry32 a))%Q /\ (fst (mulberry32 a) < 1)%Q /\
  Qden (fst (mulberry32 a)) = 4294967296%positive /\
  (forall b, finite_double b = true ->
             u32 (snd (mulberry32 a)) = u32 (snd (mulberry32 b)) ->
             fst (mulberry32 a) = fst (mulberry32 b)) /\
  (Z.abs (a + 0x6d2b79f5) < 2 ^ 53 -> snd (mulberry32 a) = a + 0x6d2b79f5).
Proof.
  intros _.
  destruct (rand_range a) as [H0 H1].
  split; [exact H0|]. split; [exact H1|].
  split; [destruct (mulberry32_bits a) as (n & _ & ->); reflexivity|].
  split.
  - intros b _ Hb. unfold mulberry32 in *. cbv zeta in *. cbn [fst snd] in *.
    rewrite Hb. reflexivity.
  - intros Hs. unfold mulberry32. cbv zeta. cbn [snd].
    apply dbl_exact. exact Hs.
Qed.

Lemma mulberry32_unit_interval_witness :
  finite_double 1337 = true /\
  snd (mulberry32 1337) = 1337 + 0x6d2b79f5 /\
  fst (mulberry32 1337) = fst (mulberry32 (1337 + 4294967296)).
Proof.
  split; [reflexivity|].
  destruct (mulberry32_unit_interval 1337 eq_refl) as (_ & _ & _ & Hv & Hs).
  split.
  - apply Hs. vm_compute. reflexivity.
  - apply Hv; vm_compute; reflexivity.
Defined.

End SeededGenerator.

Section Heights.

Lemma gen_heights_spec n :
  forall a h,
    length (fst (gen_heights n a h)) = n /\
    Forall (fun g => 20 <= g <= WORLD_HEIGHT - 15) (fst (gen_heights n a h)) /\
    (20 <= h <= WORLD_HEIGHT - 15 -> gentle h (fst (gen_heights n a h))).
Proof.
  induction n as [|n IH]; intros a h; cbn [gen_heights].
  - simpl. repeat split; constructor.
  - destruct (mulberry32 a) as [r1 a1]. destruct (mulberry32 a1) as [r2 a2].
    set (h' := Z.max 20 (Z.min (WORLD_HEIGHT - 15) _)).
    assert (20 <= h' <= WORLD_HEIGHT - 15) as Hb
      by (subst h'; unfold WORLD_HEIGHT; lia).
    specialize (IH a2 h'). destruct (gen_heights n a2 h') as [hs a3].
    destruct IH as (Hl & Hf & Hg). simpl in *.
    split; [lia|]. split; [constructor; assumption|].
    intros Hh. split; [|apply Hg, Hb].
    subst h'. unfold Qsign.
    pose proof (Z.sgn_spec (Qnum ((r1 - (1 # 2)) * 2))) as Hs.
    destruct (Qltb r2 (55 # 100)); unfold WORLD_HEIGHT in *; lia.
Qed.

(** X3.  For every seed the random walk yields one surface height per
    column, each within [20, WORLD_HEIGHT - 15]; it starts within one tile of
    row 66 and neighbouring columns differ by at most one tile. *)
Theorem heights_bounded_and_gentle (seed : Z) :
  length (heights_of seed) = Z.to_nat WORLD_WIDTH /\
  Forall (fun g => 20 <= g <= WORLD_HEIGHT - 15) (heights_of seed) /\
  gentle 66 (heights_of seed).
Proof.
  unfold heights_of.
  destruct (gen_heights_spec (Z.to_nat WORLD_WIDTH) seed
              (Qfloor (ofZ WORLD_HEIGHT * (55 # 100)))) as (Hl & Hf & Hg).
  split; [exact Hl|]. split; [exact Hf|].
  change (Qfloor (ofZ WORLD_HEIGHT * (55 # 100))) with 66 in *.
  apply Hg. unfold WORLD_HEIGHT. lia.
Qed.

End Heights.

(** ** The shape of generated columns *)

Section LoopInvariants.
Context {S : Type}.

Lemma for_count_inv (P : Z -> S -> Prop) (body : Z -> S -> S) :
  forall n i s,
    (forall j t, i <= j < i + Z.of_nat n -> P j t -> P (j + 1) (body j t)) ->
    P i s -> P (i + Z.of_nat n) (for_count n i body s).
Proof.
  induction n as [|n IH]; intros i s Hstep H0; simpl for_count.
  - replace (i + Z.of_nat 0) with i by lia. exact H0.
  - replace (i + Z.of_nat (Datatypes.S n)) with (i + 1 + Z.of_nat n) by lia.
    apply IH.
    + intros j t Hj. apply Hstep. lia.
    + apply Hstep; [lia|exact H0].
Qed.

Lemma for_lt_inv (P : S -> Prop) (body : Z -> S -> S) lo hi s :
  (forall j t, lo <= j < hi -> P t -> P (body j t)) ->
  P s -> P (for_lt lo hi body s).
Proof.
  intros Hstep H0. unfold for_lt.
  apply (for_count_inv (fun _ => P) body (Z.to_nat (hi - lo)) lo s); [|exact H0].
  intros j t Hj. apply Hstep. lia.
Qed.

Lemma for_lt_inv_indexed (P : Z -> S -> Prop) (body : Z -> S -> S) lo hi s :
  lo <= hi ->
  (forall j t, lo <= j < hi -> P j t -> P (j + 1) (body j t)) ->
  P lo s -> P hi (for_lt lo hi body s).
Proof.
  intros Hle Hstep H0. unfold for_lt.
  replace hi with (lo + Z.of_nat (Z.to_nat (hi - lo))) at 1 by lia.
  apply for_count_inv; [|exact H0].
  intros j t Hj. apply Hstep. lia.
Qed.

End LoopInvariants.

Section ColumnWrites.

Lemma layers_cells (f : Z -> Tile) x w :
  wf_world w -> 0 <= x < WORLD_WIDTH ->
  let w' := for_lt 0 WORLD_HEIGHT (fun y w => store w x y (f y)) w in
  wf_world w' /\
  (forall y, 0 <= y < WORLD_HEIGHT -> cell w' x y = f y) /\
  (forall x' y', 0 <= x' -> x' <> x -> cell w' x' y' = cell w x' y').
Proof.
  intros Hw Hx. cbv zeta.
  apply (for_lt_inv_indexed
           (fun j u => wf_world u /\
              (forall y, 0 <= y < j -> cell u x y = f y) /\
              (forall x' y', 0 <= x' -> x' <> x -> cell u x' y' = cell w x' y'))).
  - unfold WORLD_HEIGHT. lia.
  - intros j u Hj (Wu & Hc & Ho).
    split; [apply wf_world_store, Wu|]. split.
    + intros y Hy. destruct (Z.eq_dec y j) as [->|Hne].
      * apply cell_store_same; [exact Wu|exact Hx|lia].
      * rewrite cell_store_other by (right; lia). apply Hc. lia.
    + intros x' y' Hx' Hne. rewrite cell_store_other by (left; lia).
      apply Ho; assumption.
  - split; [exact Hw|]. split; [intros y Hy; lia|reflexivity].
Qed.

Lemma stone_patch_cells x sy sh sw w :
  0 <= x -> 0 <= sy ->
  changed_only (fun x' y' old new =>
                  new = STONE /\ old <> AIR /\ x <= x' /\ sy <= y')
    w (stone_patch x sy sh sw w) /\
  (wf_world w -> wf_world (stone_patch x sy sh sw w)).
Proof.
  intros Hx Hsy. unfold stone_patch.
  set (P := fun x' y' old new => new = STONE /\ old <> AIR /\ x <= x' /\ sy <= y').
  apply (for_lt_inv (fun u => changed_only P w u /\ (wf_world w -> wf_world u))).
  - intros yy u Hyy Hu.
    apply (for_lt_inv (fun u => changed_only P w u /\ (wf_world w -> wf_world u)));
      [|exact Hu].
    intros xx v Hxx [Hv Wv].
    destruct (negb (bool_decide (cell v xx yy = AIR))) eqn:E; [|split; assumption].
    apply negb_true_iff, bool_decide_eq_false in E.
    split; [|intros Hw; apply wf_world_store, Wv, Hw].
    intros x' y' Hx' Hy'.
    destruct (cell_store_cases v xx yy STONE x' y') as [->|(Ex & Ey & ->)];
      [apply Hv; assumption|].
    assert (x' = xx) as -> by lia. assert (y' = yy) as -> by lia.
    right. unfold P. split; [reflexivity|]. split; [|lia].
    destruct (Hv xx yy Hx' Hy') as [Eq|(_ & Hold & _)]; [congruence|exact Hold].
  - split; [|tauto]. intros x' y' _ _. left. reflexivity.
Qed.

Lemma tree_trunk_cells x groundY treeHeight w :
  0 <= x ->
  changed_only (fun x' y' old new =>
                  new = WOOD /\ x' = x /\ groundY - treeHeight <= y' < groundY)
    w (tree_trunk x groundY treeHeight w) /\
  (wf_world w -> wf_world (tree_trunk x groundY treeHeight w)).
Proof.
  intros Hx. unfold tree_trunk.
  set (P := fun x' y' (old new : Tile) =>
              new = WOOD /\ x' = x /\ groundY - treeHeight <= y' < groundY).
  apply (for_lt_inv (fun u => changed_only P w u /\ (wf_world w -> wf_world u))).
  - intros ty u Hty [Hu Wu].
    destruct (groundY - ty - 1 >=? 0) eqn:E; [|split; assumption].
    apply Z.geb_le in E.
    split; [|intros Hw; apply wf_world_store, Wu, Hw].
    intros x' y' Hx' Hy'.
    destruct (cell_store_cases u x (groundY - ty - 1) WOOD x' y') as [->|(Ex & Ey & ->)];
      [apply Hu; assumption|].
    right. unfold P. split; [reflexivity|]. lia.
  - split; [|tauto]. intros x' y' _ _. left. reflexivity.
Qed.

End ColumnWrites.

Section ColumnShape.

Lemma Qfloor_lt_iff' (q : Q) (z : Z) : (q < inject_Z z)%Q -> Qfloor q < z.
Proof.
  intros H. apply Z.lt_nge. intros C. apply Qfloor_ge_iff in C. lra.
Qed.

Lemma layer_tile_cases b g y :
  (g + 20 < y -> layer_tile b g y = STONE) /\
  (g + 3 < y <= g + 20 -> layer_tile b g y = DIRT) /\
  (g < y <= g + 3 -> layer_tile b g y = subsurface_tile b) /\
  (y = g -> layer_tile b g y = surface_tile b) /\
  (y < g -> layer_tile b g y = AIR).
Proof.
  unfold layer_tile.
  destruct (y >? g + 20) eqn:E1; [apply Z.gtb_lt in E1|rewrite Z.gtb_ltb, Z.ltb_ge in E1];
  (destruct (y >? g + 3) eqn:E2; [apply Z.gtb_lt in E2|rewrite Z.gtb_ltb, Z.ltb_ge in E2]);
  (destruct (y =? g) eqn:E3; [apply Z.eqb_eq in E3|apply Z.eqb_neq in E3]);
  (destruct (y >? g) eqn:E4; [apply Z.gtb_lt in E4|rewrite Z.gtb_ltb, Z.ltb_ge in E4]);
  (destruct (y <=? g + 3) eqn:E5; [apply Z.leb_le in E5|apply Z.leb_gt in E5]);
  destruct b; simpl; repeat split; intros; try reflexivity; lia.
Qed.

Lemma MainJs_layer_tile g y : MainJs.layer_tile g y = layer_tile forest g y.
Proof. reflexivity. Qed.

Lemma sprinkle_patch_cells x g a w :
  0 <= x -> 0 <= g ->
  changed_only (fun x' y' old new =>
                  new = STONE /\ old <> AIR /\ x <= x' /\ g + 5 <= y')
    w (snd (sprinkle_patch x g (a, w))) /\
  (wf_world w -> wf_world (snd (sprinkle_patch x g (a, w)))).
Proof.
  intros Hx Hg. unfold sprinkle_patch.
  destruct (mulberry32 a) as [r a1]. destruct (Qltb r (1 # 10)).
  - pose proof (rand_range a1) as [Hr _].
    destruct (mulberry32 a1) as [r1 b1]. destruct (mulberry32 b1) as [r2 b2].
    destruct (mulberry32 b2) as [r3 b3]. cbn [fst snd] in *.
    assert (0 <= Qfloor (r1 * 10)) as Hf.
    { apply Qfloor_ge_iff. change (inject_Z 0) with 0%Q. lra. }
    destruct (stone_patch_cells x (g + 5 + Qfloor (r1 * 10)) (3 + Qfloor (r2 * 4))
                (3 + Qfloor (r3 * 6)) w Hx ltac:(lia)) as [Hc Hw].
    split; [|exact Hw].
    intros x' y' Hx' Hy'. destruct (Hc x' y' Hx' Hy') as [E|(E1 & E2 & E3 & E4)];
      [left; exact E|right]. repeat split; try assumption. lia.
  - cbn [snd]. split; [|tauto]. intros x' y' _ _. left. reflexivity.
Qed.

Lemma grow_tree_cells b x g a w :
  0 <= x ->
  changed_only (fun x' y' old new =>
                  new = WOOD /\ x' = x /\ b = forest /\ g - 7 <= y' < g)
    w (snd (grow_tree b x g (a, w))) /\
  (wf_world w -> wf_world (snd (grow_tree b x g (a, w)))).
Proof.
  intros Hx. unfold grow_tree. destruct b.
  - destruct (mulberry32 a) as [r a1]. destruct (Qltb r (3 # 100)).
    + pose proof (rand_range a1) as [_ Hr].
      destruct (mulberry32 a1) as [r4 a2]. cbn [fst snd] in *.
      assert (Qfloor (r4 * 3) < 3) as Hf.
      { apply Qfloor_lt_iff'. change (inject_Z 3) with 3%Q. lra. }
      destruct (tree_trunk_cells x g (5 + Qfloor (r4 * 3)) w Hx) as [Hc Hw].
      split; [|exact Hw].
      intros x' y' Hx' Hy'. destruct (Hc x' y' Hx' Hy') as [E|(E1 & E2 & E3)];
        [left; exact E|right]. repeat split; try assumption; lia.
    + cbn [snd]. split; [|tauto]. intros x' y' _ _. left. reflexivity.
  - cbn [snd]. split; [|tauto]. intros x' y' _ _. left. reflexivity.
Qed.

End ColumnShape.

Section GeneratedColumns.

Lemma changed_only_refl P w : changed_only P w w.
Proof. intros x y _ _. left. reflexivity. Qed.

(** A column laid by the layer loop keeps its shape through the patch and
    the tree that follow. *)
Lemma column_from_layers b g x w1 w2 w3 :
  20 <= g <= WORLD_HEIGHT - 15 -> 0 <= x ->
  (forall y, 0 <= y < WORLD_HEIGHT -> cell w1 x y = layer_tile b g y) ->
  changed_only (fun x' y' old new =>
                  new = STONE /\ old <> AIR /\ x <= x' /\ g + 5 <= y') w1 w2 ->
  changed_only (fun x' y' old new =>
                  new = WOOD /\ x' = x /\ b = forest /\ g - 7 <= y' < g) w2 w3 ->
  column_shape b g w3 x.
Proof.
  intros Hg Hx Hlay Hpatch Htree. unfold WORLD_HEIGHT in *.
  assert (forall y, 0 <= y < 120 ->
            cell w3 x y = layer_tile b g y \/
            (cell w3 x y = STONE /\ g + 5 <= y) \/
            (cell w3 x y = WOOD /\ b = forest /\ g - 7 <= y < g)) as Hcell.
  { intros y Hy.
    destruct (Htree x y Hx ltac:(lia)) as [E3|(E3 & _ & Hb & Hr)];
      [|right; right; auto].
    destruct (Hpatch x y Hx ltac:(lia)) as [E2|(E2 & _ & _ & Hr)].
    - left. rewrite E3, E2. apply Hlay, Hy.
    - right. left. rewrite E3, E2. auto. }
  unfold column_shape, WORLD_HEIGHT.
  split; [|split; [|split; [|split; [|split]]]].
  - intros y Hy. destruct (layer_tile_cases b g y) as (C1 & _).
    destruct (Hcell y ltac:(lia)) as [E|[[E ?]|(E & ? & ?)]]; rewrite E;
      first [lia | reflexivity | apply C1; lia].
  - intros y Hy Hy'. destruct (layer_tile_cases b g y) as (_ & C2 & _).
    destruct (Hcell y ltac:(lia)) as [E|[[E ?]|(E & ? & ?)]]; rewrite E;
      first [lia | right; reflexivity | left; apply C2; lia].
  - destruct (layer_tile_cases b g (g + 4)) as (_ & C2 & _).
    destruct (Hcell (g + 4) ltac:(lia)) as [E|[[E ?]|(E & ? & ?)]]; rewrite E;
      first [lia | apply C2; lia].
  - intros y Hy. destruct (layer_tile_cases b g y) as (_ & _ & C3 & _).
    destruct (Hcell y ltac:(lia)) as [E|[[E ?]|(E & ? & ?)]]; rewrite E;
      first [lia | apply C3; lia].
  - destruct (layer_tile_cases b g g) as (_ & _ & _ & C4 & _).
    destruct (Hcell g ltac:(lia)) as [E|[[E ?]|(E & ? & ?)]]; rewrite E;
      first [lia | apply C4; lia].
  - intros y Hy. destruct (layer_tile_cases b g y) as (_ & _ & _ & _ & C5).
    destruct (Hcell y ltac:(lia)) as [E|[[E ?]|(E & ? & ?)]]; rewrite E;
      first [lia | left; apply C5; lia
            | right; repeat split; first [reflexivity | assumption | lia]].
Qed.

Lemma column_shape_ext b g w w' x :
  0 <= g ->
  (forall y, 0 <= y -> cell w' x y = cell w x y) ->
  column_shape b g w x -> column_shape b g w' x.
Proof.
  intros Hg He (S1 & S2 & S3 & S4 & S5 & S6). unfold column_shape.
  split; [|split; [|split; [|split; [|split]]]].
  - intros y Hy. rewrite He by lia. apply S1, Hy.
  - intros y Hy Hy'. rewrite He by lia. apply S2; assumption.
  - rewrite He by lia. exact S3.
  - intros y Hy. rewrite He by lia. apply S4, Hy.
  - rewrite He by lia. exact S5.
  - intros y Hy. rewrite He by lia. apply S6, Hy.
Qed.

(** One pass of the column loop of the extended generator. *)
Lemma gen_column_shape heights biomes x a w g b :
  wf_world w -> 0 <= x < WORLD_WIDTH ->
  heights !! Z.to_nat x = Some g -> biomes !! Z.to_nat x = Some b ->
  20 <= g <= WORLD_HEIGHT - 15 ->
  let w' := snd (gen_column heights biomes x (a, w)) in
  wf_world w' /\ column_shape b g w' x /\
  (forall x' y', 0 <= x' < x -> 0 <= y' -> cell w' x' y' = cell w x' y').
Proof.
  intros Hw Hx Eg Eb Hg. cbv zeta. unfold gen_column. rewrite Eg, Eb. cbn [default from_option id].
  destruct (layers_cells (layer_tile b g) x w Hw Hx) as (W1 & L1 & O1).
  set (w1 := for_lt 0 WORLD_HEIGHT _ w) in *. clearbody w1.
  destruct (sprinkle_patch_cells x g a w1 ltac:(lia) ltac:(lia)) as [C2 W2].
  destruct (sprinkle_patch x g (a, w1)) as [a2 w2]. cbn [snd] in *.
  destruct (grow_tree_cells b x g a2 w2 ltac:(lia)) as [C3 W3].
  destruct (grow_tree b x g (a2, w2)) as [a3 w3]. cbn [snd] in *.
  split; [auto|]. split.
  - apply (column_from_layers b g x w1 w2 w3); try assumption; lia.
  - intros x' y' Hx' Hy'.
    destruct (C3 x' y' ltac:(lia) Hy') as [->|(_ & ? & _)]; [|lia].
    destruct (C2 x' y' ltac:(lia) Hy') as [->|(_ & _ & ? & _)]; [|lia].
    apply O1; lia.
Qed.

Lemma columns_shape heights biomes a w :
  wf_world w ->
  length heights = Z.to_nat WORLD_WIDTH -> length biomes = Z.to_nat WORLD_WIDTH ->
  Forall (fun g => 20 <= g <= WORLD_HEIGHT - 15) heights ->
  let w' := snd (for_lt 0 WORLD_WIDTH (gen_column heights biomes) (a, w)) in
  wf_world w' /\
  forall x g b, 0 <= x < WORLD_WIDTH ->
    heights !! Z.to_nat x = Some g -> biomes !! Z.to_nat x = Some b ->
    column_shape b g w' x.
Proof.
  intros Hw Lh Lb Hh. cbv zeta.
  apply (for_lt_inv_indexed
           (fun j (s : Z * World) =>
              wf_world (snd s) /\
              forall x g b, 0 <= x < j ->
                heights !! Z.to_nat x = Some g -> biomes !! Z.to_nat x = Some b ->
                column_shape b g (snd s) x)).
  - unfold WORLD_WIDTH. lia.
  - intros j [a1 u] Hj [Wu Hcols]. cbn [snd] in *.
    destruct (lookup_lt_is_Some_2 heights (Z.to_nat j)) as [gj Eg]; [lia|].
    destruct (lookup_lt_is_Some_2 biomes (Z.to_nat j)) as [bj Eb]; [lia|].
    rewrite Forall_lookup in Hh.
    destruct (gen_column_shape heights biomes j a1 u gj bj Wu Hj Eg Eb (Hh _ _ Eg))
      as (W' & Sj & Fr).
    split; [exact W'|]. intros x g b Hx Exg Exb.
    destruct (Z.eq_dec x j) as [->|Hne].
    + rewrite Eg in Exg. rewrite Eb in Exb. injection Exg as <-. injection Exb as <-.
      exact Sj.
    + pose proof (Hh _ _ Exg) as Hg. simpl in Hg.
      apply (column_shape_ext b g u); [lia| |apply (Hcols x g b); [lia|assumption..]].
      intros y Hy. apply Fr; lia.
  - cbn [snd]. split; [exact Hw|]. intros x g b Hx. lia.
Qed.

Lemma gen_biomes_length n :
  forall a b l, length (fst (gen_biomes n a b l)) = n.
Proof.
  induction n as [|n IH]; intros a b l; cbn [gen_biomes]; [reflexivity|].
  destruct (l <=? 0).
  - destruct (mulberry32 a) as [r a1]. specialize (IH a1
      (match b with forest => desert | desert => forest end) (20 + Qfloor (r * 30) - 1)).
    destruct (gen_biomes n a1 _ _) as [bs a2]. simpl in *. lia.
  - specialize (IH a b (l - 1)). destruct (gen_biomes n a b (l - 1)) as [bs a2].
    simpl in *. lia.
Qed.

(** The whole grid after [generateWorld(seed)]: size kept, every column in
    shape. *)
Lemma generateWorld_shape (seed : Z) (w : World) :
  wf_world w ->
  length (heights_of seed) = Z.to_nat WORLD_WIDTH /\
  length (biomes_of seed) = Z.to_nat WORLD_WIDTH /\
  Forall (fun g => 20 <= g <= WORLD_HEIGHT - 15) (heights_of seed) /\
  wf_world (generateWorld seed w) /\
  forall x g b, 0 <= x < WORLD_WIDTH ->
    heights_of seed !! Z.to_nat x = Some g -> biomes_of seed !! Z.to_nat x = Some b ->
    column_shape b g (generateWorld seed w) x.
Proof.
  intros Hw.
  destruct (gen_heights_spec (Z.to_nat WORLD_WIDTH) seed
              (Qfloor (ofZ WORLD_HEIGHT * (55 # 100)))) as (Lh & Hh & _).
  unfold generateWorld, heights_of, biomes_of in *.
  destruct (gen_heights _ _ _) as [heights a1]. cbn [fst] in *.
  destruct (mulberry32 a1) as [r a2].
  pose proof (gen_biomes_length (Z.to_nat WORLD_WIDTH) a2 forest (20 + Qfloor (r * 30)))
    as Lb.
  destruct (gen_biomes _ _ _ _) as [biomes a3]. cbn [fst] in *.
  split; [exact Lh|]. split; [exact Lb|]. split; [exact Hh|].
  apply (columns_shape heights biomes a3 w Hw Lh Lb Hh).
Qed.

(** X4.  For every seed and every column [x], the grid produced by the
    extended [generateWorld] has, at that column's surface height [g] (between
    20 and WORLD_HEIGHT - 15) the biome's surface tile, three rows of its
    sub-surface tile and one of dirt under it, then dirt or stone, and stone
    only from 21 rows down; above the surface there is nothing but air, or in
    a forest the wood of a trunk at most 7 rows high. *)
Theorem generated_column_shape (seed : Z) (w : World) (x : Z) :
  wf_world w -> 0 <= x < WORLD_WIDTH ->
  exists g b,
    heights_of seed !! Z.to_nat x = Some g /\
    biomes_of seed !! Z.to_nat x = Some b /\
    20 <= g <= WORLD_HEIGHT - 15 /\
    column_shape b g (generateWorld seed w) x.
Proof.
  intros Hw Hx.
  destruct (generateWorld_shape seed w Hw) as (Lh & Lb & Hh & _ & Hc).
  destruct (lookup_lt_is_Some_2 (heights_of seed) (Z.to_nat x)) as [g Eg]; [lia|].
  destruct (lookup_lt_is_Some_2 (biomes_of seed) (Z.to_nat x)) as [b Eb]; [lia|].
  exists g, b. split; [exact Eg|]. split; [exact Eb|].
  rewrite Forall_lookup in Hh. split; [apply (Hh _ _ Eg)|].
  apply Hc; assumption.
Qed.

Lemma generated_column_shape_witness :
  exists g b,
    heights_of 1337 !! Z.to_nat 100 = Some g /\
    biomes_of 1337 !! Z.to_nat 100 = Some b /\
    20 <= g <= WORLD_HEIGHT - 15 /\
    column_shape b g (generateWorld 1337 empty_world) 100.
Proof.
  apply (generated_column_shape 1337 empty_world 100).
  - apply wf_empty_world.
  - unfold WORLD_WIDTH. lia.
Defined.

End GeneratedColumns.

(** ** Spawning *)

Section SpawnScan.

(** A test that holds on every integer of a range, checked by running it. *)
Lemma forallb_seqZ (P : Z -> Prop) `{!forall y, Decision (P y)} (lo n : Z) :
  forallb (fun y => bool_decide (P y)) (seqZ lo n) = true ->
  forall y, lo <= y < lo + n -> P y.
Proof.
  intros Hall y Hy. rewrite forallb_forall in Hall.
  apply (bool_decide_eq_true (P y)), Hall, list_elem_of_In, elem_of_seqZ. exact Hy.
Qed.

Lemma spawn_scan_none w p :
  forall n y,
    (forall j, 0 <= j < Z.of_nat n ->
               getTile w (Qfloor (ofZ WORLD_WIDTH / 2)) (y + j) <> GRASS) ->
    spawn_scan n y w p = p.
Proof.
  induction n as [|n IH]; intros y H; cbn [spawn_scan]; [reflexivity|].
  rewrite bool_decide_eq_false_2.
  - apply IH. intros j Hj. replace (y + 1 + j) with (y + (j + 1)) by lia.
    apply H. lia.
  - replace y with (y + 0) by lia. apply H. lia.
Qed.

Lemma spawn_scan_found w p :
  forall n y k,
    0 <= k < Z.of_nat n ->
    (forall j, 0 <= j < k ->
               getTile w (Qfloor (ofZ WORLD_WIDTH / 2)) (y + j) <> GRASS) ->
    getTile w (Qfloor (ofZ WORLD_WIDTH / 2)) (y + k) = GRASS ->
    spawn_scan n y w p =
      set_pos p (ofZ WORLD_WIDTH / 2 * TILE_SIZE) ((ofZ (y + k) - 2) * TILE_SIZE).
Proof.
  induction n as [|n IH]; intros y k Hk Hfree Hgrass; [lia|].
  cbn [spawn_scan]. destruct (Z.eq_dec k 0) as [->|Hne].
  - replace (y + 0) with y in * by lia.
    rewrite bool_decide_eq_true_2 by exact Hgrass. reflexivity.
  - rewrite bool_decide_eq_false_2.
    + replace (y + k) with (y + 1 + (k - 1)) in * by lia.
      apply IH; [lia| |exact Hgrass].
      intros j Hj. replace (y + 1 + j) with (y + (j + 1)) by lia. apply Hfree. lia.
    + replace y with (y + 0) by lia. apply Hfree. lia.
Qed.

(** X5.  [spawnPlayerOnSurface] puts the actor two tiles above the topmost
    Grass tile of the centre column and touches nothing but its position; if
    that column holds no Grass the actor is left exactly as it was. *)
Theorem spawn_finds_topmost_grass (w : World) (p : Player) :
  let column := Qfloor (ofZ WORLD_WIDTH / 2) in
  ((forall y, 0 <= y < WORLD_HEIGHT -> getTile w column y <> GRASS) ->
   spawnPlayerOnSurface w p = p) /\
  (forall y, 0 <= y < WORLD_HEIGHT ->
     getTile w column y = GRASS ->
     (forall y', 0 <= y' < y -> getTile w column y' <> GRASS) ->
     spawnPlayerOnSurface w p =
       set_pos p (ofZ WORLD_WIDTH / 2 * TILE_SIZE) ((ofZ y - 2) * TILE_SIZE)).
Proof.
  cbv zeta. unfold spawnPlayerOnSurface. split.
  - intros H. apply spawn_scan_none. intros j Hj. apply H. lia.
  - intros y Hy Hg Hfree.
    rewrite (spawn_scan_found w p (Z.to_nat WORLD_HEIGHT) 0 y); [reflexivity|lia| |].
    + intros j Hj. apply Hfree. lia.
    + exact Hg.
Qed.

Lemma spawn_finds_topmost_grass_witness :
  spawnPlayerOnSurface empty_world initial_player = initial_player /\
  spawnPlayerOnSurface world1337 initial_player =
    set_pos initial_player (ofZ WORLD_WIDTH / 2 * TILE_SIZE) ((ofZ 65 - 2) * TILE_SIZE).
Proof.
  split.
  - apply (spawn_finds_topmost_grass empty_world initial_player).
    intros y Hy.
    apply (forallb_seqZ (fun y => getTile empty_world 100 y <> GRASS) 0 120);
      [vm_compute; reflexivity|exact Hy].
  - apply (proj2 (spawn_finds_topmost_grass world1337 initial_player) 65).
    + unfold WORLD_HEIGHT. lia.
    + vm_compute. reflexivity.
    + intros y Hy.
      apply (forallb_seqZ (fun y => getTile world1337 100 y <> GRASS) 0 65);
        [vm_compute; reflexivity|exact Hy].
Defined.

End SpawnScan.

Section SpawnOnGenerated.

Lemma centre_column : Qfloor (ofZ WORLD_WIDTH / 2) = 100.
Proof. reflexivity. Qed.

Lemma getTile_cell w x y :
  0 <= x < WORLD_WIDTH -> 0 <= y < WORLD_HEIGHT -> getTile w x y = cell w x y.
Proof.
  intros Hx Hy. unfold getTile.
  rewrite (proj2 (inBounds_true x y)) by auto. reflexivity.
Qed.

(** What the spawn scan does on a column in shape. *)
Lemma spawn_on_column b g w p :
  20 <= g <= WORLD_HEIGHT - 15 ->
  column_shape b g w 100 ->
  spawnPlayerOnSurface w p =
    match b with
    | forest => set_pos p (ofZ WORLD_WIDTH / 2 * TILE_SIZE) ((ofZ g - 2) * TILE_SIZE)
    | desert => p
    end.
Proof.
  intros Hg (S1 & S2 & S3 & S4 & S5 & S6). unfold spawnPlayerOnSurface.
  destruct b.
  - rewrite (spawn_scan_found w p (Z.to_nat WORLD_HEIGHT) 0 g); [reflexivity|lia| |].
    + intros y' Hy'. rewrite centre_column, getTile_cell by (unfold WORLD_WIDTH; lia).
      destruct (S6 y' ltac:(lia)) as [E|(E & _)]; rewrite Z.add_0_l in *; rewrite E;
        discriminate.
    + rewrite centre_column, getTile_cell by (unfold WORLD_WIDTH; lia). exact S5.
  - apply spawn_scan_none. intros y Hy. rewrite Z.add_0_l.
    rewrite centre_column, getTile_cell by (unfold WORLD_WIDTH; lia).
    destruct (Z.lt_trichotomy y g) as [Hl|[->|Hl]].
    + destruct (S6 y ltac:(lia)) as [->|(_ & Hb & _)]; discriminate.
    + rewrite S5. discriminate.
    + destruct (Z_le_gt_dec y (g + 3)) as [H3|H3]; [rewrite S4 by lia; discriminate|].
      destruct (Z.eq_dec y (g + 4)) as [->|H4]; [rewrite S3; discriminate|].
      destruct (Z_le_gt_dec y (g + 20)) as [H20|H20].
      * destruct (S2 y ltac:(lia) ltac:(lia)) as [->| ->]; discriminate.
      * rewrite S1 by lia. discriminate.
Qed.

(** X6.  On the grid of the extended [generateWorld], for every seed: if
    the centre column lies in a forest the actor is spawned two tiles above
    that column's surface height; if it lies in a desert, whose surface is
    Sand, the scan finds no Grass and the actor stays where it was. *)
Theorem spawn_on_generated_world (seed : Z) (w : World) (p : Player) :
  wf_world w ->
  exists g b,
    heights_of seed !! 100%nat = Some g /\
    biomes_of seed !! 100%nat = Some b /\
    spawnPlayerOnSurface (generateWorld seed w) p =
      match b with
      | forest => set_pos p (ofZ WORLD_WIDTH / 2 * TILE_SIZE) ((ofZ g - 2) * TILE_SIZE)
      | desert => p
      end.
Proof.
  intros Hw.
  destruct (generateWorld_shape seed w Hw) as (Lh & Lb & Hh & _ & Hc).
  destruct (lookup_lt_is_Some_2 (heights_of seed) 100) as [g Eg];
    [rewrite Lh; unfold WORLD_WIDTH; lia|].
  destruct (lookup_lt_is_Some_2 (biomes_of seed) 100) as [b Eb];
    [rewrite Lb; unfold WORLD_WIDTH; lia|].
  exists g, b. split; [exact Eg|]. split; [exact Eb|].
  rewrite Forall_lookup in Hh.
  apply spawn_on_column; [apply (Hh _ _ Eg)|].
  apply (Hc 100 g b); [unfold WORLD_WIDTH; lia|exact Eg|exact Eb].
Qed.

Lemma spawn_on_generated_world_witness :
  exists g b,
    heights_of 1337 !! 100%nat = Some g /\
    biomes_of 1337 !! 100%nat = Some b /\
    spawnPlayerOnSurface (generateWorld 1337 empty_world) initial_player =
      match b with
      | forest => set_pos initial_player (ofZ WORLD_WIDTH / 2 * TILE_SIZE)
                    ((ofZ g - 2) * TILE_SIZE)
      | desert => initial_player
      end.
Proof.
  apply (spawn_on_generated_world 1337 empty_world initial_player).
  apply wf_empty_world.
Defined.

End SpawnOnGenerated.

(** ** The prototype's generator *)

Section PrototypeColumns.

Variable unseeded : nat -> Q.

(** One pass of the column loop of the prototype: no biome, no tree, and
    the patch decided by whatever [Math.random] returns. *)
Lemma mainjs_gen_column_shape heights x a k w g :
  wf_world w -> 0 <= x < WORLD_WIDTH ->
  heights !! Z.to_nat x = Some g ->
  20 <= g <= WORLD_HEIGHT - 15 ->
  let w' := snd (MainJs.gen_column unseeded heights x (a, k, w)) in
  wf_world w' /\ column_shape forest g w' x /\
  (forall y, 0 <= y < g -> cell w' x y = AIR) /\
  (forall x' y', 0 <= x' < x -> 0 <= y' -> cell w' x' y' = cell w x' y').
Proof.
  intros Hw Hx Eg Hg. cbv zeta. unfold MainJs.gen_column.
  rewrite Eg. cbn [default from_option id].
  destruct (layers_cells (MainJs.layer_tile g) x w Hw Hx) as (W1 & L1 & O1).
  set (w1 := for_lt 0 WORLD_HEIGHT _ w) in *. clearbody w1.
  assert (exists w2,
            snd (if Qltb (unseeded k) (1 # 10)
                 then
                   let '(r1, a0) := mulberry32 a in
                   let '(r2, a1) := mulberry32 a0 in
                   let '(r3, a2) := mulberry32 a1 in
                   (a2, Datatypes.S k,
                    stone_patch x (g + 5 + Qfloor (r1 * 10)) (3 + Qfloor (r2 * 4))
                      (3 + Qfloor (r3 * 6)) w1)
                 else (a, Datatypes.S k, w1)) = w2 /\
            wf_world w2 /\
            changed_only (fun x' y' old new =>
                            new = STONE /\ old <> AIR /\ x <= x' /\ g + 5 <= y') w1 w2)
    as (w2 & -> & W2 & C2).
  { destruct (Qltb (unseeded k) (1 # 10)).
    - pose proof (rand_range a) as [Hr _].
      destruct (mulberry32 a) as [r1 b1]. destruct (mulberry32 b1) as [r2 b2].
      destruct (mulberry32 b2) as [r3 b3]. cbn [fst snd] in *.
      assert (0 <= Qfloor (r1 * 10)) as Hf.
      { apply Qfloor_ge_iff. change (inject_Z 0) with 0%Q. lra. }
      destruct (stone_patch_cells x (g + 5 + Qfloor (r1 * 10)) (3 + Qfloor (r2 * 4))
                  (3 + Qfloor (r3 * 6)) w1 ltac:(lia) ltac:(lia)) as [Hc Hwf].
      eexists. split; [reflexivity|]. split; [apply Hwf, W1|].
      intros x' y' Hx' Hy'. destruct (Hc x' y' Hx' Hy') as [E|(E1 & E2 & E3 & E4)];
        [left; exact E|right]. repeat split; try assumption. lia.
    - eexists. split; [reflexivity|]. split; [exact W1|apply changed_only_refl]. }
  split; [exact W2|]. split; [|split].
  - apply (column_from_layers forest g x w1 w2 w2);
      [exact Hg|lia| |exact C2|apply changed_only_refl].
    intros y Hy. rewrite L1 by exact Hy. apply MainJs_layer_tile.
  - intros y Hy. destruct (C2 x y ltac:(lia) ltac:(lia)) as [->|(_ & _ & _ & ?)]; [|lia].
    rewrite L1 by (unfold WORLD_HEIGHT in *; lia).
    rewrite MainJs_layer_tile. apply layer_tile_cases. lia.
  - intros x' y' Hx' Hy'.
    destruct (C2 x' y' ltac:(lia) Hy') as [->|(_ & _ & ? & _)]; [|lia].
    apply O1; lia.
Qed.

Lemma mainjs_columns_shape heights a w :
  wf_world w ->
  length heights = Z.to_nat WORLD_WIDTH ->
  Forall (fun g => 20 <= g <= WORLD_HEIGHT - 15) heights ->
  let w' := snd (for_lt 0 WORLD_WIDTH (MainJs.gen_column unseeded heights) (a, O, w)) in
  wf_world w' /\
  forall x g, 0 <= x < WORLD_WIDTH -> heights !! Z.to_nat x = Some g ->
    column_shape forest g w' x /\ (forall y, 0 <= y < g -> cell w' x y = AIR).
Proof.
  intros Hw Lh Hh. cbv zeta.
  apply (for_lt_inv_indexed
           (fun j (s : Z * nat * World) =>
              wf_world (snd s) /\
              forall x g, 0 <= x < j -> heights !! Z.to_nat x = Some g ->
                column_shape forest g (snd s) x /\
                (forall y, 0 <= y < g -> cell (snd s) x y = AIR))).
  - unfold WORLD_WIDTH. lia.
  - intros j [[a1 k] u] Hj [Wu Hcols]. cbn [snd] in *.
    destruct (lookup_lt_is_Some_2 heights (Z.to_nat j)) as [gj Eg]; [lia|].
    rewrite Forall_lookup in Hh.
    destruct (mainjs_gen_column_shape heights j a1 k u gj Wu Hj Eg (Hh _ _ Eg))
      as (W' & Sj & Aj & Fr).
    split; [exact W'|]. intros x g Hx Exg.
    destruct (Z.eq_dec x j) as [->|Hne].
    + rewrite Eg in Exg. injection Exg as <-. split; assumption.
    + pose proof (Hh _ _ Exg) as Hg. simpl in Hg.
      destruct (Hcols x g ltac:(lia) Exg) as [Sx Ax]. split.
      * apply (column_shape_ext forest g u); [lia| |exact Sx].
        intros y Hy. apply Fr; lia.
      * intros y Hy. rewrite Fr by lia. apply Ax, Hy.
  - cbn [snd]. split; [exact Hw|]. intros x g Hx. lia.
Qed.

End PrototypeColumns.

Section PrototypeWorld.

(** X7.  Whatever [Math.random] returns, every column of the prototype's
    grid has the forest shape with nothing but air above its Grass surface
    (the unseeded draws only move stone patches below it), and
    [spawnPlayerOnSurface] always finds the centre column's surface and puts
    the actor two tiles above it. *)
Theorem mainjs_world_shape_and_spawn (unseeded : nat -> Q) (seed : Z) (w : World)
  (p : Player) :
  wf_world w ->
  let w' := MainJs.generateWorld unseeded seed w in
  (forall x, 0 <= x < WORLD_WIDTH ->
     exists g, heights_of seed !! Z.to_nat x = Some g /\
               column_shape forest g w' x /\
               (forall y, 0 <= y < g -> cell w' x y = AIR)) /\
  (exists g, heights_of seed !! 100%nat = Some g /\
             spawnPlayerOnSurface w' p =
               set_pos p (ofZ WORLD_WIDTH / 2 * TILE_SIZE) ((ofZ g - 2) * TILE_SIZE)).
Proof.
  intros Hw. cbv zeta.
  destruct (gen_heights_spec (Z.to_nat WORLD_WIDTH) seed
              (Qfloor (ofZ WORLD_HEIGHT * (55 # 100)))) as (Lh & Hh & _).
  unfold MainJs.generateWorld, heights_of in *.
  destruct (gen_heights _ _ _) as [heights a1]. cbn [fst] in *.
  destruct (mainjs_columns_shape unseeded heights a1 w Hw Lh Hh) as [_ Hc].
  split.
  - intros x Hx.
    destruct (lookup_lt_is_Some_2 heights (Z.to_nat x)) as [g Eg]; [lia|].
    exists g. split; [exact Eg|]. apply Hc; assumption.
  - destruct (lookup_lt_is_Some_2 heights 100) as [g Eg];
      [rewrite Lh; unfold WORLD_WIDTH; lia|].
    exists g. split; [exact Eg|].
    rewrite Forall_lookup in Hh.
    apply (spawn_on_column forest g); [apply (Hh _ _ Eg)|].
    apply (Hc 100 g); [unfold WORLD_WIDTH; lia|exact Eg].
Qed.

Lemma mainjs_world_shape_and_spawn_witness :
  let w' := MainJs.generateWorld (fun _ => 0%Q) 1337 empty_world in
  (forall x, 0 <= x < WORLD_WIDTH ->
     exists g, heights_of 1337 !! Z.to_nat x = Some g /\
               column_shape forest g w' x /\
               (forall y, 0 <= y < g -> cell w' x y = AIR)) /\
  (exists g, heights_of 1337 !! 100%nat = Some g /\
             spawnPlayerOnSurface w' initial_player =
               set_pos initial_player (ofZ WORLD_WIDTH / 2 * TILE_SIZE)
                 ((ofZ g - 2) * TILE_SIZE)).
Proof.
  apply (mainjs_world_shape_and_spawn (fun _ => 0%Q) 1337 empty_world initial_player).
  apply wf_empty_world.
Defined.

End PrototypeWorld.

(** ** Outcomes of the resolver *)

Section SweepOutcome.
Open Scope Q_scope.

Lemma Qsgn_neg d : d < 0 -> Qsgn d = -1.
Proof.
  destruct d as [n den]. unfold Qlt, Qsgn, Qsign, ofZ. simpl. intros H.
  destruct n; try lia. reflexivity.
Qed.

(** The sign test [dir > 0] of the sweeps, on the sign of a non-zero delta. *)
Lemma Qsgn_dir d :
  ~ d == 0 ->
  (0 < d /\ Qsgn d = 1 /\ Qltb 0 (Qsgn d) = true) \/
  (d < 0 /\ Qsgn d = -1 /\ Qltb 0 (Qsgn d) = false).
Proof.
  intros H. destruct (Qlt_le_dec 0 d) as [Hp|Hn].
  - left. rewrite (Qsgn_pos d Hp). auto.
  - right. assert (d < 0) as Hl.
    { destruct (Qlt_le_dec d 0) as [|Hge]; [assumption|]. exfalso. apply H. lra. }
    rewrite (Qsgn_neg d Hl). auto.
Qed.

Lemma Qabs_sgn d : ~ d == 0 -> Qabs d * Qsgn d == d.
Proof.
  intros H. destruct (Qsgn_dir d H) as [(Hp & -> & _)|(Hn & -> & _)].
  - rewrite Qabs_pos; lra.
  - rewrite Qabs_neg; lra.
Qed.

Lemma column_hit_inv w tx top bottom :
  column_hit w tx top bottom = true ->
  exists ty, (top <= ty <= bottom)%Z /\ isSolid (getTile w tx ty) = true.
Proof.
  unfold column_hit. intros C. apply existsb_exists in C as (ty & Hin & Hs).
  apply list_elem_of_In, elem_of_seqZ in Hin. exists ty. split; [lia|exact Hs].
Qed.

Lemma row_hit_inv w ty left right :
  row_hit w ty left right = true ->
  exists tx, (left <= tx <= right)%Z /\ isSolid (getTile w tx ty) = true.
Proof.
  unfold row_hit. intros C. apply existsb_exists in C as (tx & Hin & Hs).
  apply list_elem_of_In, elem_of_seqZ in Hin. exists tx. split; [lia|exact Hs].
Qed.

(** A horizontal sweep that returns from the function does so against a solid
    tile of the rows the box spans, with the box's leading edge on that
    tile's near edge. *)
Lemma sweepX_hit w px py pw ph dx dir step :
  forall fuel moved newX r,
    sweepX fuel w px py pw ph dx dir step moved newX = Some (inl r) ->
    hitY r = false /\
    exists tx ty,
      (tile_index (py - ph / 2) <= ty <= tile_index (py + ph / 2 - 1))%Z /\
      isSolid (getTile w tx ty) = true /\
      res_x r = if Qltb 0 dir then ofZ tx * TILE_SIZE - pw / 2
                else (ofZ tx + 1) * TILE_SIZE + pw / 2.
Proof.
  induction fuel as [|fuel IH]; intros moved newX r; simpl; [discriminate|].
  destruct (Qltb moved (Qabs dx)); [|discriminate].
  destruct (column_hit _ _ _ _) eqn:Hc.
  - intros [= <-]. simpl. split; [reflexivity|].
    apply column_hit_inv in Hc as (ty & Hty & Hs).
    eexists _, ty. split; [exact Hty|]. split; [exact Hs|].
    destruct (Qltb 0 dir); reflexivity.
  - apply IH.
Qed.

(** A horizontal sweep that falls through has moved the whole delta. *)
Lemma sweepX_through w px py pw ph dx dir step :
  Qabs dx * dir == dx ->
  forall fuel moved newX x',
    (Qabs dx <= moved -> newX == px + dx) ->
    sweepX fuel w px py pw ph dx dir step moved newX = Some (inr x') ->
    x' == px + dx.
Proof.
  intros Hd. induction fuel as [|fuel IH]; intros moved newX x' Hinv; simpl;
    [discriminate|].
  destruct (Qltb moved (Qabs dx)) eqn:Hlt.
  - destruct (column_hit _ _ _ _); [discriminate|].
    apply IH. intros Hge.
    rewrite Q.min_l by exact Hge. rewrite Hd. reflexivity.
  - intros [= <-]. apply Hinv, Qltb_ge, Hlt.
Qed.

(** The three ways a vertical sweep ends.  On a hit, the row tested is the
    one under the bottom edge minus one unit (moving down) or at the top edge
    (moving up) of the box displaced by some [s] of at most the delta. *)
Lemma sweepY_outcome w newX py pw ph dy dir step :
  Qabs dy * dir == dy -> 0 < Qabs step ->
  forall fuel moved newY r,
    0 <= moved ->
    (Qabs dy <= moved -> newY == py + dy) ->
    sweepY fuel w newX py pw ph dy dir step moved newY = Some r ->
    (hitY r = false /\ grounded r = false /\ res_y r == py + dy) \/
    (hitY r = true /\
     exists tx ty s,
       (tile_index (newX - pw / 2) <= tx <= tile_index (newX + pw / 2))%Z /\
       isSolid (getTile w tx ty) = true /\
       0 < s <= Qabs dy /\
       if Qltb 0 dir
       then ty = tile_index (py + s * dir + ph / 2 - 1) /\
            grounded r = true /\ res_y r = ofZ ty * TILE_SIZE - ph / 2
       else ty = tile_index (py + s * dir - ph / 2) /\
            grounded r = false /\ res_y r = (ofZ ty + 1) * TILE_SIZE + ph / 2).
Proof.
  intros Hd Hstep. induction fuel as [|fuel IH]; intros moved newY r Hm Hinv; simpl;
    [discriminate|].
  destruct (Qltb moved (Qabs dy)) eqn:Hlt.
  - apply Qltb_lt in Hlt.
    assert (0 < Qmin (Qabs dy) (moved + Qabs step) <= Qabs dy) as Hs.
    { split; [apply Q.min_glb_lt; lra|apply Q.le_min_l]. }
    destruct (row_hit _ _ _ _) eqn:Hr.
    + apply row_hit_inv in Hr as (tx & Htx & Hs').
      destruct (Qltb 0 dir) eqn:Hdir; intros [= <-]; right; simpl;
        (split; [reflexivity|]); eexists tx, _, _;
        (split; [exact Htx|]); (split; [exact Hs'|]); (split; [exact Hs|]);
        repeat split; reflexivity.
    + apply IH; [lra|]. intros Hge.
      rewrite Q.min_l by exact Hge. rewrite Hd. reflexivity.
  - intros [= <-]. left. simpl. split; [reflexivity|]. split; [reflexivity|].
    apply Hinv, Qltb_ge, Hlt.
Qed.

Lemma step_positive d :
  ~ d == 0 -> 0 < Qabs (Qsgn d * Qmin (Qabs d) TILE_SIZE).
Proof. intros H. destruct (step_abs d H) as [E Hp]. rewrite E. exact Hp. Qed.

(** The resolver, case by case. *)
Lemma aabbVsTiles_cases w px py pw ph dx dy r :
  aabbVsTiles w px py pw ph dx dy = Some r ->
  (* stopped by a wall: the vertical sweep is not run *)
  (hitX r = true /\ hitY r = false /\ grounded r = false /\ res_y r = py /\
   ~ dx == 0 /\
   exists tx ty,
     (tile_index (py - ph / 2) <= ty <= tile_index (py + ph / 2 - 1))%Z /\
     isSolid (getTile w tx ty) = true /\
     res_x r = if Qltb 0 (Qsgn dx) then ofZ tx * TILE_SIZE - pw / 2
               else (ofZ tx + 1) * TILE_SIZE + pw / 2) \/
  (hitX r = false /\ res_x r == px + dx /\
   ((hitY r = false /\ grounded r = false /\ res_y r == py + dy) \/
    (hitY r = true /\ ~ dy == 0 /\
     exists tx ty s,
       (tile_index (res_x r - pw / 2) <= tx <= tile_index (res_x r + pw / 2))%Z /\
       isSolid (getTile w tx ty) = true /\
       0 < s <= Qabs dy /\
       if Qltb 0 (Qsgn dy)
       then ty = tile_index (py + s * Qsgn dy + ph / 2 - 1) /\
            grounded r = true /\ res_y r = ofZ ty * TILE_SIZE - ph / 2
       else ty = tile_index (py + s * Qsgn dy - ph / 2) /\
            grounded r = false /\ res_y r = (ofZ ty + 1) * TILE_SIZE + ph / 2))).
Proof.
  unfold aabbVsTiles.
  destruct (Qnonzero dx) eqn:Ex.
  - apply Qnonzero_true in Ex.
    destruct (sweepX _ _ _ _ _ _ _ _ _ _ _) as [[r0|x']|] eqn:Hx;
      cbn [mbind option_bind]; [| |discriminate].
    + intros [= <-]. left.
      destruct (sweepX_keeps_y _ _ _ _ _ _ _ _ _ _ _ _ Hx) as (Hy & Hh & Hg).
      destruct (sweepX_hit _ _ _ _ _ _ _ _ _ _ _ _ Hx) as (HhY & Hsolid).
      repeat (split; [assumption|]). exact Hsolid.
    + pose proof (sweepX_through w px py pw ph dx _ _ (Qabs_sgn dx Ex) _ _ _ _
                    (fun _ => Qeq_refl _) Hx) as Hx'.
      destruct (Qnonzero dy) eqn:Ey.
      * apply Qnonzero_true in Ey. intros Hy. right.
        destruct (sweepY_keeps_x _ _ _ _ _ _ _ _ _ _ _ _ Hy) as [Erx Ehx].
        split; [exact Ehx|]. split; [rewrite Erx; exact Hx'|].
        destruct (sweepY_outcome w x' py pw ph dy _ _ (Qabs_sgn dy Ey)
                    (step_positive dy Ey) _ _ _ _ (Qle_refl 0)
                    (fun _ => Qeq_refl _) Hy) as [H|[H1 H2]]; [left; exact H|].
        right. split; [exact H1|]. split; [exact Ey|]. rewrite Erx. exact H2.
      * intros [= <-]. right. simpl. apply Qnonzero_false in Ey.
        split; [reflexivity|]. split; [exact Hx'|]. left. auto with qarith.
  - cbn [mbind option_bind]. destruct (Qnonzero dy) eqn:Ey.
    + apply Qnonzero_true in Ey. intros Hy. right.
      destruct (sweepY_keeps_x _ _ _ _ _ _ _ _ _ _ _ _ Hy) as [Erx Ehx].
      split; [exact Ehx|]. split; [rewrite Erx; reflexivity|].
      destruct (sweepY_outcome w (px + dx) py pw ph dy _ _ (Qabs_sgn dy Ey)
                  (step_positive dy Ey) _ _ _ _ (Qle_refl 0)
                  (fun _ => Qeq_refl _) Hy) as [H|[H1 H2]]; [left; exact H|].
      right. split; [exact H1|]. split; [exact Ey|]. rewrite Erx. exact H2.
    + intros [= <-]. right. simpl.
      split; [reflexivity|]. split; [reflexivity|]. left. auto with qarith.
Qed.

(** X8.  Every resolver call returns, and its flags are consistent: a
    horizontal hit excludes a vertical hit and grounding and leaves y at its
    input value (the vertical delta is dropped); grounded implies a vertical
    hit on a downward move; and without any hit the result is exactly the
    requested position. *)
Theorem resolver_flags_consistent (w : World) (px py pw ph dx dy : Q) :
  exists r, aabbVsTiles w px py pw ph dx dy = Some r /\
    (hitX r = true -> hitY r = false /\ grounded r = false /\ res_y r = py) /\
    (grounded r = true -> hitY r = true /\ hitX r = false /\ 0 < dy) /\
    (hitX r = false -> res_x r == px + dx) /\
    (hitX r = false -> hitY r = false -> res_y r == py + dy).
Proof.
  destruct (aabbVsTiles_total w px py pw ph dx dy) as [r Hr]. exists r.
  split; [exact Hr|].
  destruct (aabbVsTiles_cases _ _ _ _ _ _ _ _ Hr)
    as [(H1 & H2 & H3 & H4 & _)
       |(H1 & H2 & [(H3 & H4 & H5)|(H3 & Hnz & tx & ty & s & _ & _ & _ & H6)])].
  - rewrite H1, H2, H3. repeat split; try discriminate; auto.
  - rewrite H1, H3, H4. repeat split; try discriminate; auto.
  - rewrite H1, H3. split; [discriminate|].
    split; [|split; [auto|discriminate]].
    intros Hg. split; [reflexivity|]. split; [reflexivity|].
    destruct (Qsgn_dir dy Hnz) as [(Hp & _ & E)|(Hn & _ & E)]; rewrite E in H6;
      [exact Hp|]. destruct H6 as (_ & H6 & _). congruence.
Qed.

(** X9.  A reported hit is always against a solid tile: for a horizontal hit
    a solid tile in the rows the box spans, with the box's leading edge put
    exactly on that tile's near edge; for a vertical hit a solid tile in the
    columns the box spans at its resolved x, with the box put on top of it
    (grounded) or under it (not grounded). *)
Theorem hit_is_against_solid_tile (w : World) (px py pw ph dx dy : Q) :
  exists r, aabbVsTiles w px py pw ph dx dy = Some r /\
    (hitX r = true ->
     exists tx ty,
       isSolid (getTile w tx ty) = true /\
       (tile_index (py - ph / 2) <= ty <= tile_index (py + ph / 2 - 1))%Z /\
       ((0 < dx /\ res_x r == ofZ tx * TILE_SIZE - pw / 2) \/
        (dx < 0 /\ res_x r == (ofZ tx + 1) * TILE_SIZE + pw / 2))) /\
    (hitY r = true ->
     exists tx ty,
       isSolid (getTile w tx ty) = true /\
       (tile_index (res_x r - pw / 2) <= tx <= tile_index (res_x r + pw / 2))%Z /\
       ((0 < dy /\ grounded r = true /\ res_y r == ofZ ty * TILE_SIZE - ph / 2) \/
        (dy < 0 /\ grounded r = false /\
         res_y r == (ofZ ty + 1) * TILE_SIZE + ph / 2))).
Proof.
  destruct (aabbVsTiles_total w px py pw ph dx dy) as [r Hr]. exists r.
  split; [exact Hr|].
  destruct (aabbVsTiles_cases _ _ _ _ _ _ _ _ Hr)
    as [(H1 & H2 & _ & _ & Hnz & tx & ty & Hty & Hs & Hx)
       |(H1 & _ & [(H3 & _)|(H3 & Hnz & tx & ty & s & Htx & Hs & _ & Hy)])].
  - split; [|rewrite H2; discriminate].
    intros _. exists tx, ty. split; [exact Hs|]. split; [exact Hty|].
    destruct (Qsgn_dir dx Hnz) as [(Hp & _ & E)|(Hn & _ & E)]; rewrite E in Hx;
      rewrite Hx; [left|right]; split; auto with qarith.
  - rewrite H1, H3. split; discriminate.
  - split; [rewrite H1; discriminate|].
    intros _. exists tx, ty. split; [exact Hs|]. split; [exact Htx|].
    destruct (Qsgn_dir dy Hnz) as [(Hp & _ & E)|(Hn & _ & E)]; rewrite E in Hy;
      destruct Hy as (_ & Hg & Hy); rewrite Hy; [left|right]; repeat split;
      auto with qarith.
Qed.

End SweepOutcome.

(** ** Motion of a frame *)

Section FrameMotion.
Open Scope Q_scope.

(** What the two resolver calls of a frame do to the actor's fields. *)
Lemma integrate_fields w p p' :
  integrate w p = Some p' ->
  exists rx ry,
    aabbVsTiles w (pl_x p) (pl_y p) (width p) (height p) (vx p) 0 = Some rx /\
    aabbVsTiles w (res_x rx) (pl_y p) (width p) (height p) 0 (vy p) = Some ry /\
    pl_x p' = res_x rx /\ pl_y p' = res_y ry /\
    vx p' = (if hitX rx then 0 else vx p) /\
    vy p' = (if hitY ry then 0 else vy p) /\
    onGround p' = grounded ry /\
    width p' = width p /\ height p' = height p /\ facing p' = facing p.
Proof.
  unfold integrate.
  destruct (aabbVsTiles w (pl_x p) _ _ _ _ _) as [rx|] eqn:Ex; [|discriminate].
  cbn [mbind option_bind].
  match goal with |- context [aabbVsTiles ?a ?b ?c ?d ?e ?f ?g] =>
    destruct (aabbVsTiles a b c d e f g) as [ry|] eqn:Ey end; [|discriminate].
  cbn [mbind option_bind]. intros [= <-]. exists rx, ry.
  split; [reflexivity|].
  split; [destruct (hitX rx); exact Ey|].
  destruct (hitX rx), (hitY ry); simpl; repeat split; reflexivity.
Qed.

Lemma apply_input_speed inp p :
  - MAX_RUN_SPEED <= vx (apply_input inp p) <= MAX_RUN_SPEED /\
  vy (apply_input inp p) <= TERMINAL_VELOCITY.
Proof.
  unfold apply_input.
  repeat match goal with |- context [if ?c then _ else _] => destruct c end;
    cbn [vx vy set_vx set_vy set_facing set_onGround];
    (split; [split; [apply Q.le_max_l|]|apply Q.le_min_l]);
    (apply Q.max_lub; [unfold MAX_RUN_SPEED; lra|apply Q.le_min_l]).
Qed.

(** X10.  Every frame runs to the end and leaves the actor within the speed
    limits: horizontal speed at most MAX_RUN_SPEED in either direction, fall
    speed at most TERMINAL_VELOCITY, and no vertical speed at all when it is
    on the ground. *)
Theorem frame_speed_limits (dt : Q) (inp : Input) (o : Rand) (g : Game) :
  exists g' o',
    update dt inp o g = Some (g', o') /\
    - MAX_RUN_SPEED <= vx (player g') <= MAX_RUN_SPEED /\
    vy (player g') <= TERMINAL_VELOCITY /\
    (onGround (player g') = true -> vy (player g') == 0).
Proof.
  destruct (update_player dt inp o g) as (g' & o' & we & w & o1 & Hu & Hw & Hi).
  exists g', o'. split; [exact Hu|].
  cbv zeta in Hi.
  match type of Hi with integrate (world ?G) (apply_input _ (player ?G)) = _ =>
    set (g1 := G) in * end.
  pose proof (integrate_grounded_still _ _ _ Hi) as Hstill.
  destruct (integrate_fields _ _ _ Hi)
    as (rx & ry & _ & _ & _ & _ & Evx & Evy & _).
  destruct (apply_input_speed inp (player g1)) as [Hvx Hvy].
  split; [rewrite Evx; destruct (hitX rx); [unfold MAX_RUN_SPEED; lra|exact Hvx]|].
  split; [rewrite Evy; destruct (hitY ry); [unfold TERMINAL_VELOCITY; lra|exact Hvy]|].
  intros Hg. rewrite (Hstill Hg). reflexivity.
Qed.

End FrameMotion.

(** ** Walls, and resting on the floor *)

Section Wall.
Open Scope Q_scope.

Lemma column_hit_true w tx top bottom ty :
  (top <= ty <= bottom)%Z -> isSolid (getTile w tx ty) = true ->
  column_hit w tx top bottom = true.
Proof.
  intros Hr Hs. unfold column_hit. apply existsb_exists. exists ty. split; [|exact Hs].
  apply list_elem_of_In, elem_of_seqZ. lia.
Qed.

Lemma column_hit_false w tx top bottom :
  (forall ty, (top <= ty <= bottom)%Z -> getTile w tx ty = AIR) ->
  column_hit w tx top bottom = false.
Proof.
  intros H. unfold column_hit. apply not_true_is_false. intros C.
  apply existsb_exists in C as (ty & Hin & Hs).
  apply list_elem_of_In, elem_of_seqZ in Hin.
  rewrite H in Hs by lia. discriminate.
Qed.

Variable w : World.
Variables px py pw ph dx step : Q.
Variable C : Z.

Let top := tile_index (py - ph / 2).
Let bottom := tile_index (py + ph / 2 - 1).

Hypothesis step_size : 0 < Qabs step /\ Qabs step <= TILE_SIZE.
Hypothesis dx_pos : 0 < dx.
Hypothesis free_before :
  forall c ty, (tile_index (px + pw / 2) <= c < C)%Z ->
               (top <= ty <= bottom)%Z -> getTile w c ty = AIR.
Hypothesis blocked :
  exists ty, (top <= ty <= bottom)%Z /\ isSolid (getTile w C ty) = true.
Hypothesis reaches : ofZ C * TILE_SIZE - (px + pw / 2) <= dx.

(** The rightward sweep stops at the first solid column [C]. *)
Lemma sweepX_stops :
  forall fuel moved newX,
    0 <= moved ->
    px + pw / 2 + moved < ofZ C * TILE_SIZE ->
    (Z.to_nat (Qceiling ((Qabs dx - moved) / Qabs step)) < fuel)%nat ->
    sweepX fuel w px py pw ph dx 1 step moved newX =
      Some (inl (mkResult (ofZ C * TILE_SIZE - pw / 2) py false true false)).
Proof.
  destruct step_size as [HS1 HS2]. unfold TILE_SIZE in HS2.
  unfold top, bottom in *.
  assert (Qabs dx == dx) as EA by (apply Qabs_pos; lra).
  induction fuel as [|fuel IH]; intros moved newX Hm Hbefore Hf; [lia|].
  simpl.
  assert (moved < Qabs dx) as Hlt by (unfold TILE_SIZE in *; lra).
  rewrite (proj2 (Qltb_lt _ _) Hlt).
  change (Qltb 0 1) with true. cbv iota.
  set (s := Qmin (Qabs dx) (moved + Qabs step)).
  assert (0 <= s /\ s <= moved + Qabs step /\ (s == Qabs dx \/ s == moved + Qabs step))
    as (Hs0 & Hs1 & Hs2).
  { destruct (Q.min_spec (Qabs dx) (moved + Qabs step)) as [[? E]|[? E]];
      fold s in E; rewrite E; repeat split; try lra; auto. }
  set (right := tile_index (px + s * 1 + pw / 2)).
  assert (tile_index (px + pw / 2) <= right)%Z as Hb0.
  { apply tile_index_ge.
    pose proof (proj1 (tile_index_ge (px + pw / 2) _) (Z.le_refl _)). lra. }
  assert (right < C + 1)%Z as Hb1.
  { apply tile_index_lt. rewrite inject_Z_succ. unfold ofZ, TILE_SIZE in *. lra. }
  destruct (Z.eq_dec right C) as [Heq|Hne].
  - rewrite Heq. destruct blocked as (ty & Hr & Hsolid).
    rewrite (column_hit_true w C _ _ ty Hr Hsolid). reflexivity.
  - rewrite column_hit_false.
    2:{ intros ty Hr. apply free_before; [lia|exact Hr]. }
    assert (right < C)%Z as Hbl by lia.
    apply tile_index_lt in Hbl. unfold ofZ, TILE_SIZE in *.
    apply IH.
    + lra.
    + destruct Hs2 as [E|E]; lra.
    + apply budget_step; assumption.
Qed.

End Wall.

Section WallSnap.
Open Scope Q_scope.

(** X11.  Moving right towards the first solid column in the rows the box
    spans, the resolver stops the box with its right edge exactly on that
    column's left edge as soon as the requested delta covers the gap (not the
    gap plus one unit, as for the floor), reports hitX and drops the vertical
    delta, whatever it was. *)
Theorem wall_snap (w : World) (px py pw ph dx dy : Q) (C : Z) :
  (tile_index (px + pw / 2) < C)%Z ->
  (forall c ty, (tile_index (px + pw / 2) <= c < C)%Z ->
                (tile_index (py - ph / 2) <= ty <= tile_index (py + ph / 2 - 1))%Z ->
                getTile w c ty = AIR) ->
  (exists ty, (tile_index (py - ph / 2) <= ty <= tile_index (py + ph / 2 - 1))%Z /\
              isSolid (getTile w C ty) = true) ->
  ofZ C * TILE_SIZE - (px + pw / 2) <= dx ->
  exists r, aabbVsTiles w px py pw ph dx dy = Some r /\
            res_x r == ofZ C * TILE_SIZE - pw / 2 /\
            res_y r == py /\
            hitX r = true /\ hitY r = false /\ grounded r = false.
Proof.
  intros Hstart Hfree Hsolid Hdx.
  assert (0 < dx) as Hpos.
  { apply tile_index_lt in Hstart. unfold ofZ in *. lra. }
  assert (~ dx == 0) as Hnz by lra.
  unfold aabbVsTiles.
  rewrite (proj2 (Qnonzero_true dx) Hnz), (Qsgn_pos dx Hpos).
  destruct (sweep_fuel_enough dx _ Hnz eq_refl) as [HS Hfuel].
  destruct (step_abs dx Hnz) as [Eabs _].
  rewrite (Qsgn_pos dx Hpos) in HS, Hfuel, Eabs.
  erewrite (sweepX_stops w px py pw ph dx _ C).
  - cbn [mbind option_bind]. eexists. split; [reflexivity|]. simpl.
    repeat split; reflexivity.
  - split; [exact HS|]. rewrite Eabs. apply Q.le_min_r.
  - exact Hpos.
  - exact Hfree.
  - exact Hsolid.
  - exact Hdx.
  - lra.
  - apply tile_index_lt in Hstart. unfold ofZ in *. lra.
  - exact Hfuel.
Qed.

End WallSnap.

Section Resting.
Open Scope Q_scope.

(** The landing of a straight fall (the vertical sweep run to its hit). *)
Lemma aabbVsTiles_lands w px py pw ph dx dy R :
  dx == 0 ->
  (tile_index (py + ph / 2 - 1) < R)%Z ->
  (forall r tx, (tile_index (py + ph / 2 - 1) <= r < R)%Z ->
                (tile_index (px - pw / 2) <= tx <= tile_index (px + pw / 2))%Z ->
                getTile w tx r = AIR) ->
  (exists tx, (tile_index (px - pw / 2) <= tx <= tile_index (px + pw / 2))%Z /\
              isSolid (getTile w tx R) = true) ->
  ofZ R * TILE_SIZE - (py + ph / 2) + 1 <= dy ->
  exists r, aabbVsTiles w px py pw ph dx dy = Some r /\
            res_x r == px /\
            res_y r == ofZ R * TILE_SIZE - ph / 2 /\
            grounded r = true /\ hitY r = true.
Proof.
  intros Hx Hstart Hfree Hsolid Hdy.
  assert (0 < dy) as Hpos.
  { apply tile_index_lt in Hstart. unfold ofZ in *. lra. }
  assert (~ dy == 0) as Hnz by lra.
  rewrite (aabbVsTiles_dx0 _ _ _ _ _ _ _ Hx).
  rewrite (proj2 (Qnonzero_true dy) Hnz), (Qsgn_pos dy Hpos).
  destruct (sweep_fuel_enough dy _ Hnz eq_refl) as [HS Hfuel].
  destruct (step_abs dy Hnz) as [Eabs _].
  rewrite (Qsgn_pos dy Hpos) in HS, Hfuel, Eabs.
  assert (px + dx - pw / 2 == px - pw / 2) as El by lra.
  assert (px + dx + pw / 2 == px + pw / 2) as Er by lra.
  erewrite (sweepY_lands w (px + dx) py pw ph dy _ R).
  - eexists. split; [reflexivity|]. simpl. repeat split; try reflexivity. lra.
  - split; [exact HS|]. rewrite Eabs. apply Q.le_min_r.
  - exact Hpos.
  - intros r tx. rewrite El, Er. apply Hfree.
  - destruct Hsolid as (tx & Hr & Hs). exists tx. rewrite El, Er. auto.
  - exact Hdy.
  - lra.
  - apply tile_index_lt in Hstart. unfold ofZ in *. lra.
  - exact Hfuel.
Qed.

(** A call with no horizontal delta reports no horizontal hit and keeps x. *)
Lemma aabbVsTiles_no_dx w px py pw ph dx dy r :
  dx == 0 -> aabbVsTiles w px py pw ph dx dy = Some r ->
  hitX r = false /\ res_x r == px.
Proof.
  intros Hx Hr.
  destruct (aabbVsTiles_cases _ _ _ _ _ _ _ _ Hr) as [(_ & _ & _ & _ & Hnz & _)|(H1 & H2 & _)];
    [contradiction|].
  split; [exact H1|]. rewrite H2. lra.
Qed.

(** A box whose bottom edge lies on the top edge of row [R] and that is
    asked to move down by less than one unit is not stopped by that row. *)
Lemma aabbVsTiles_slips w px py pw ph dy R r :
  py + ph / 2 == ofZ R * TILE_SIZE ->
  0 < dy -> dy < 1 ->
  (forall tx, (tile_index (px - pw / 2) <= tx <= tile_index (px + pw / 2))%Z ->
              getTile w tx (R - 1) = AIR) ->
  aabbVsTiles w px py pw ph 0 dy = Some r ->
  hitY r = false /\ grounded r = false /\ res_y r == py + dy.
Proof.
  intros Hrest Hpos Hlt Hfree Hr.
  destruct (aabbVsTiles_no_dx _ _ _ _ _ _ _ _ (Qeq_refl 0) Hr) as [_ Hx].
  destruct (aabbVsTiles_cases _ _ _ _ _ _ _ _ Hr)
    as [(_ & _ & _ & _ & Hnz & _)
       |(_ & _ & [H|(_ & _ & tx & ty & s & Htx & Hs & Hrange & Hy)])].
  - exfalso. apply Hnz. reflexivity.
  - exact H.
  - exfalso. rewrite (Qsgn_pos dy Hpos) in Hy. change (Qltb 0 1) with true in Hy.
    destruct Hy as (Ety & _).
    rewrite (Qabs_pos dy) in Hrange by lra.
    assert (ty = (R - 1)%Z) as ->.
    { rewrite Ety. apply Qfloor_spec. rewrite inject_Z_pred.
      unfold ofZ, TILE_SIZE in *. split.
      - apply Qle_shift_div_l; [reflexivity|]. lra.
      - apply Qlt_shift_div_r; [reflexivity|]. lra. }
    rewrite Hfree in Hs; [discriminate|].
    assert (tile_index (res_x r - pw / 2) = tile_index (px - pw / 2)) as <-
      by (apply tile_index_comp; rewrite Hx; reflexivity).
    assert (tile_index (res_x r + pw / 2) = tile_index (px + pw / 2)) as <-
      by (apply tile_index_comp; rewrite Hx; reflexivity).
    exact Htx.
Qed.

(** The velocities after the input block when no key is held. *)
Lemma apply_input_idle inp p :
  key_left inp = false -> key_right inp = false -> key_jump inp = false ->
  vx (apply_input inp p) =
    Qmax (- MAX_RUN_SPEED) (Qmin MAX_RUN_SPEED (vx p * FRICTION)) /\
  vy (apply_input inp p) = Qmin TERMINAL_VELOCITY (vy p + GRAVITY) /\
  pl_x (apply_input inp p) = pl_x p /\ pl_y (apply_input inp p) = pl_y p /\
  width (apply_input inp p) = width p /\ height (apply_input inp p) = height p.
Proof.
  intros Hl Hr Hj. unfold apply_input. rewrite Hl, Hr, Hj. simpl.
  repeat split; reflexivity.
Qed.

Lemma idle_speed v :
  v == 0 -> Qmax (- MAX_RUN_SPEED) (Qmin MAX_RUN_SPEED (v * FRICTION)) == 0.
Proof.
  intros H. unfold MAX_RUN_SPEED, FRICTION.
  rewrite Q.min_r by (rewrite H; lra). rewrite Q.max_r by (rewrite H; lra).
  rewrite H. lra.
Qed.

(** One frame of motion of an idle actor: x is kept, and what happens to y
    is what the vertical call returns for the fall speed after gravity. *)
Lemma integrate_idle w inp p p' :
  key_left inp = false -> key_right inp = false -> key_jump inp = false ->
  vx p == 0 ->
  integrate w (apply_input inp p) = Some p' ->
  exists rx ry,
    res_x rx == pl_x p /\
    aabbVsTiles w (res_x rx) (pl_y p) (width p) (height p) 0
      (Qmin TERMINAL_VELOCITY (vy p + GRAVITY)) = Some ry /\
    pl_x p' == pl_x p /\ pl_y p' = res_y ry /\ vx p' == 0 /\
    vy p' = (if hitY ry then 0 else Qmin TERMINAL_VELOCITY (vy p + GRAVITY)) /\
    onGround p' = grounded ry /\
    width p' = width p /\ height p' = height p.
Proof.
  intros Hl Hr Hj Hvx Hi.
  destruct (apply_input_idle inp p Hl Hr Hj) as (Evx & Evy & Ex & Ey & Ew & Eh).
  destruct (integrate_fields _ _ _ Hi)
    as (rx & ry & Hrx & Hry & Fx & Fy & Fvx & Fvy & Fg & Fw & Fh & _).
  rewrite Evx, Evy, Ex, Ey, Ew, Eh in *.
  destruct (aabbVsTiles_no_dx _ _ _ _ _ _ _ _ (idle_speed _ Hvx) Hrx) as [Hh Hx].
  exists rx, ry. split; [exact Hx|]. split; [exact Hry|].
  split; [rewrite Fx; exact Hx|]. split; [exact Fy|].
  split; [rewrite Fvx, Hh; apply idle_speed, Hvx|].
  repeat split; assumption.
Qed.

(** Two frames of motion of an idle actor that stands exactly on row [R]. *)
Lemma resting_two_frames (w : World) (inp : Input) (p : Player) (R : Z) :
  key_left inp = false -> key_right inp = false -> key_jump inp = false ->
  vx p == 0 -> vy p == 0 ->
  pl_y p + height p / 2 == ofZ R * TILE_SIZE ->
  (forall tx, (tile_index (pl_x p - width p / 2) <= tx
               <= tile_index (pl_x p + width p / 2))%Z ->
              getTile w tx (R - 1) = AIR) ->
  (exists tx, (tile_index (pl_x p - width p / 2) <= tx
               <= tile_index (pl_x p + width p / 2))%Z /\
              isSolid (getTile w tx R) = true) ->
  exists p1 p2,
    integrate w (apply_input inp p) = Some p1 /\
    onGround p1 = false /\ pl_y p1 == pl_y p + GRAVITY /\ vy p1 == GRAVITY /\
    integrate w (apply_input inp p1) = Some p2 /\
    onGround p2 = true /\ pl_y p2 == pl_y p /\ vy p2 == 0 /\
    pl_x p2 == pl_x p /\ vx p2 == 0.
Proof.
  intros Hl Hr Hj Hvx Hvy Hrest Hfree Hsolid.
  destruct (integrate_total w (apply_input inp p)) as [p1 H1].
  destruct (integrate_idle w inp p p1 Hl Hr Hj Hvx H1)
    as (rx & ry & Hx & Hry & Fx & Fy & Fvx & Fvy & Fg & Fw & Fh).
  assert (Qmin TERMINAL_VELOCITY (vy p + GRAVITY) == GRAVITY) as Ev.
  { unfold TERMINAL_VELOCITY, GRAVITY. rewrite Q.min_r; rewrite Hvy; lra. }
  assert (forall x, x == pl_x p ->
            tile_index (x - width p / 2) = tile_index (pl_x p - width p / 2) /\
            tile_index (x + width p / 2) = tile_index (pl_x p + width p / 2)) as Hcols.
  { intros x E. split; apply tile_index_comp; rewrite E; reflexivity. }
  destruct (aabbVsTiles_slips w (res_x rx) (pl_y p) (width p) (height p)
              (Qmin TERMINAL_VELOCITY (vy p + GRAVITY)) R ry Hrest)
    as (HhY & Hg & Hy); [rewrite Ev; reflexivity|rewrite Ev; reflexivity| |exact Hry|].
  { intros tx. destruct (Hcols _ Hx) as [-> ->]. apply Hfree. }
  rewrite HhY in Fvy. rewrite Hg in Fg.
  assert (pl_y p1 == pl_y p + GRAVITY) as Ey1 by (rewrite Fy, Hy, Ev; reflexivity).
  assert (vy p1 == GRAVITY) as Ev1 by (rewrite Fvy; exact Ev).
  destruct (integrate_total w (apply_input inp p1)) as [p2 H2].
  destruct (integrate_idle w inp p1 p2 Hl Hr Hj Fvx H2)
    as (rx2 & ry2 & Hx2 & Hry2 & Fx2 & Fy2 & Fvx2 & Fvy2 & Fg2 & _).
  assert (Qmin TERMINAL_VELOCITY (vy p1 + GRAVITY) == 2 * GRAVITY) as Ev2.
  { unfold TERMINAL_VELOCITY, GRAVITY in *. rewrite Q.min_r; rewrite Ev1; lra. }
  assert (res_x rx2 == pl_x p) as Hx2' by (rewrite Hx2; exact Fx).
  destruct (aabbVsTiles_lands w (res_x rx2) (pl_y p1) (width p1) (height p1) 0
              (Qmin TERMINAL_VELOCITY (vy p1 + GRAVITY)) R)
    as (r & Hr2 & _ & Hy2 & Hg2 & HhY2).
  - reflexivity.
  - apply tile_index_lt. rewrite Fh, Ey1. unfold ofZ, GRAVITY in *. lra.
  - intros r tx Hrow. rewrite Fw. destruct (Hcols _ Hx2') as [-> ->].
    assert (r = (R - 1)%Z) as ->; [|apply Hfree].
    destruct Hrow as [Hlo Hhi].
    assert (R - 1 <= tile_index (pl_y p1 + height p1 / 2 - 1))%Z as Hge.
    { apply tile_index_ge. rewrite inject_Z_pred, Fh, Ey1.
      unfold ofZ, TILE_SIZE, GRAVITY in *. lra. }
    lia.
  - destruct Hsolid as (tx & Htx & Hs). exists tx. rewrite Fw.
    destruct (Hcols _ Hx2') as [-> ->]. auto.
  - rewrite Ev2, Fh, Ey1. unfold GRAVITY. lra.
  - rewrite Hr2 in Hry2. injection Hry2 as <-.
    exists p1, p2. split; [exact H1|]. split; [exact Fg|].
    split; [exact Ey1|]. split; [exact Ev1|]. split; [exact H2|].
    split; [rewrite Fg2; exact Hg2|].
    split; [rewrite Fy2, Hy2, Fh; lra|].
    split; [rewrite Fvy2, HhY2; reflexivity|].
    split; [rewrite Fx2; exact Fx|exact Fvx2].
Qed.

(** X12.  An idle actor standing exactly on a solid row does not stay
    grounded: gravity gives it a fall speed of GRAVITY, which is less than the
    one unit the floor test looks ahead, so the next frame moves it down by
    GRAVITY and reports it airborne; the frame after that lands it again at the
    same position with no vertical speed.  onGround thus alternates from frame
    to frame. *)
Theorem resting_actor_alternates (w : World) (inp : Input) (p : Player) (R : Z) :
  key_left inp = false -> key_right inp = false -> key_jump inp = false ->
  vx p == 0 -> vy p == 0 ->
  pl_y p + height p / 2 == ofZ R * TILE_SIZE ->
  (forall tx, (tile_index (pl_x p - width p / 2) <= tx
               <= tile_index (pl_x p + width p / 2))%Z ->
              getTile w tx (R - 1) = AIR) ->
  (exists tx, (tile_index (pl_x p - width p / 2) <= tx
               <= tile_index (pl_x p + width p / 2))%Z /\
              isSolid (getTile w tx R) = true) ->
  exists p1 p2,
    integrate w (apply_input inp p) = Some p1 /\
    onGround p1 = false /\ pl_y p1 == pl_y p + GRAVITY /\ vy p1 == GRAVITY /\
    integrate w (apply_input inp p1) = Some p2 /\
    onGround p2 = true /\ pl_y p2 == pl_y p /\ vy p2 == 0 /\
    pl_x p2 == pl_x p /\ vx p2 == 0.
Proof.
  intros Hl Hr Hj Hvx Hvy Hrest Hfree Hsolid.
  destruct (resting_two_frames w inp p R Hl Hr Hj Hvx Hvy Hrest Hfree Hsolid)
    as (p1 & p2 & H1 & G1 & Y1 & V1 & H2 & G2 & Y2 & V2 & X2 & W2).
  exists p1, p2.
  split; [exact H1|]. split; [exact G1|]. split; [exact Y1|]. split; [exact V1|].
  split; [exact H2|]. split; [exact G2|]. split; [exact Y2|]. split; [exact V2|].
  split; [exact X2|exact W2].
Qed.

Lemma resting_actor_alternates_witness :
  exists p1 p2,
    integrate world1337
      (apply_input no_input (mkPlayer 2400 1519 0 0 18 34 true 1 100 100 0 0 true))
      = Some p1 /\
    onGround p1 = false /\ pl_y p1 == 1519 + GRAVITY /\ vy p1 == GRAVITY /\
    integrate world1337 (apply_input no_input p1) = Some p2 /\
    onGround p2 = true /\ pl_y p2 == 1519 /\ vy p2 == 0 /\
    pl_x p2 == 2400 /\ vx p2 == 0.
Proof.
  apply (resting_actor_alternates world1337 no_input
           (mkPlayer 2400 1519 0 0 18 34 true 1 100 100 0 0 true) 64).
  - reflexivity.
  - reflexivity.
  - reflexivity.
  - reflexivity.
  - reflexivity.
  - reflexivity.
  - intros tx Htx. cbn [pl_x width] in Htx.
    change (tile_index (2400 - 18 / 2)) with 99%Z in Htx.
    change (tile_index (2400 + 18 / 2)) with 100%Z in Htx.
    assert (tx = 99 \/ tx = 100)%Z as [-> | ->] by lia; vm_compute; reflexivity.
  - exists 99%Z. split; [vm_compute; split; discriminate|vm_compute; reflexivity].
Defined.

Lemma wall_snap_witness :
  exists r, aabbVsTiles world1337 2508 1543 18 34 3 (6 # 10) = Some r /\
            res_x r == ofZ 105 * TILE_SIZE - 18 / 2 /\
            res_y r == 1543 /\
            hitX r = true /\ hitY r = false /\ grounded r = false.
Proof.
  apply (wall_snap world1337 2508 1543 18 34 3 (6 # 10) 105).
  - vm_compute. reflexivity.
  - intros c ty Hc Hty.
    change (tile_index (2508 + 18 / 2)) with 104%Z in Hc.
    change (tile_index (1543 - 34 / 2)) with 63%Z in Hty.
    change (tile_index (1543 + 34 / 2 - 1)) with 64%Z in Hty.
    assert (c = 104%Z) as -> by lia.
    assert (ty = 63 \/ ty = 64)%Z as [-> | ->] by lia; vm_compute; reflexivity.
  - exists 64%Z. split; [vm_compute; split; discriminate|vm_compute; reflexivity].
  - vm_compute. discriminate.
Defined.

End Resting.

(** ** Mining, placing and the inventory *)

Section MineAndPlace.

Lemma getTile_air_in_bounds w tx ty :
  getTile w tx ty = AIR -> inBounds tx ty = true.
Proof.
  unfold getTile. destruct (inBounds tx ty); [reflexivity|discriminate].
Qed.

(** [setTile] writes the target and nothing else, and keeps the size. *)
Lemma setTile_effect w tx ty id :
  wf_world w ->
  wf_world (setTile w tx ty id) /\
  (inBounds tx ty = true -> getTile (setTile w tx ty id) tx ty = id) /\
  (forall x y, (x, y) <> (tx, ty) -> getTile (setTile w tx ty id) x y = getTile w x y).
Proof.
  intros Hw. unfold setTile, getTile.
  destruct (inBounds tx ty) eqn:Hin; simpl.
  - apply inBounds_true in Hin as [Hx Hy].
    split; [apply wf_world_store, Hw|].
    split; [intros _; apply cell_store_same; assumption|].
    intros x y Hne. destruct (inBounds x y) eqn:Hb; simpl; [|reflexivity].
    apply inBounds_true in Hb. apply cell_store_other.
    destruct (decide (x = tx)) as [->|]; [|left; lia].
    right. assert (y <> ty) by congruence. lia.
  - split; [exact Hw|]. split; [discriminate|reflexivity].
Qed.

(** Writing a tile over Air and Air over it gives the grid back. *)
Lemma store_undo w tx ty id :
  wf_world w -> getTile w tx ty = AIR ->
  setTile (setTile w tx ty id) tx ty AIR = w.
Proof.
  intros Hw Hair. pose proof (getTile_air_in_bounds _ _ _ Hair) as Hin.
  unfold getTile in Hair. unfold setTile. rewrite Hin in *. simpl in *.
  apply world_ext.
  - apply wf_world_store, wf_world_store, Hw.
  - exact Hw.
  - intros x y Hx. rewrite !peek_store.
    destruct (decide _) as [[-> ->]|]; [|reflexivity].
    apply inBounds_true in Hin.
    destruct (proj2 (wf_world_peek w (Z.to_nat tx) (Z.to_nat ty) Hw)) as [t Ht];
      [lia|].
    rewrite cell_peek, Ht in Hair. simpl in Hair. subst t.
    rewrite Ht. reflexivity.
Qed.

Lemma well_in_reach_inReach p tx ty :
  well_in_reach p tx ty = true -> inReach p tx ty = true.
Proof.
  unfold well_in_reach, inReach. cbv zeta.
  rewrite !Qle_bool_iff. unfold REACH. intros H.
  eapply Qle_trans; [exact H|]. vm_compute. discriminate.
Qed.

(** X13.  A left click on a tile of the grid that is well in reach (squared
    distance from the player at most 35 tiles) and not Air replaces it by Air and adds one to the inventory count of exactly that
    tile kind (a kind never collected counts from zero); no other cell and no
    other count changes. *)
Theorem mine_effect (inp : Input) (tx ty : Z) (p : Player) (w : World)
  (inv : gmap Tile Z) :
  wf_world w ->
  0 <= tx < WORLD_WIDTH -> 0 <= ty < WORLD_HEIGHT ->
  well_in_reach p tx ty = true -> mouse_left inp = true ->
  getTile w tx ty <> AIR ->
  let t := getTile w tx ty in
  let '(w', inv') := interact inp tx ty p w inv in
  wf_world w' /\
  getTile w' tx ty = AIR /\
  (forall x y, (x, y) <> (tx, ty) -> getTile w' x y = getTile w x y) /\
  inv' !! t = Some (default 0 (inv !! t) + 1) /\
  (forall t', t' <> t -> inv' !! t' = inv !! t').
Proof.
  intros Hw Hx Hy Hreach Hleft Hsolid. cbv zeta.
  apply well_in_reach_inReach in Hreach.
  unfold interact, mine. rewrite Hreach, Hleft.
  rewrite bool_decide_eq_false_2 by exact Hsolid. cbn [negb].
  destruct (setTile_effect w tx ty AIR Hw) as (W' & Hset & Hother).
  split; [exact W'|]. split; [apply Hset, inBounds_true; auto|].
  split; [exact Hother|]. split.
  - apply lookup_insert_eq.
  - intros t' Hne. apply lookup_insert_ne. congruence.
Qed.

Lemma mine_effect_witness :
  let p := mkPlayer 2400 1519 0 0 18 34 true 1 100 100 0 0 true in
  let inp := mkInput false false false 0 0 true false O in
  let '(w', inv') := interact inp 100 65 p world1337 ∅ in
  wf_world w' /\
  getTile w' 100 65 = AIR /\
  (forall x y, (x, y) <> (100, 65) -> getTile w' x y = getTile world1337 x y) /\
  inv' !! getTile world1337 100 65
    = Some (default 0 ((∅ : gmap Tile Z) !! getTile world1337 100 65) + 1) /\
  (forall t', t' <> getTile world1337 100 65 -> inv' !! t' = (∅ : gmap Tile Z) !! t').
Proof.
  apply (mine_effect (mkInput false false false 0 0 true false O) 100 65
           (mkPlayer 2400 1519 0 0 18 34 true 1 100 100 0 0 true) world1337 ∅).
  - rewrite world1337_generated.
    apply (generateWorld_deterministic 1337 empty_world empty_world);
      apply wf_empty_world.
  - unfold WORLD_WIDTH. lia.
  - unfold WORLD_HEIGHT. lia.
  - vm_compute. reflexivity.
  - reflexivity.
  - vm_compute. discriminate.
Defined.

(** X14.  Mining next to the edge of the world: for a player inside the
    world, a target outside the grid and well in reach (squared distance at
    most 35 tiles) reads as Stone, so every frame with the left button down
    adds one Stone to the inventory while the grid stays untouched. *)
Theorem mining_outside_the_grid_yields_stone (inp : Input) (tx ty : Z)
  (p : Player) (w : World) (inv : gmap Tile Z) :
  player_in_world p ->
  ~ (0 <= tx < WORLD_WIDTH /\ 0 <= ty < WORLD_HEIGHT) ->
  well_in_reach p tx ty = true -> mouse_left inp = true ->
  interact inp tx ty p w inv = (w, <[STONE := default 0 (inv !! STONE) + 1]> inv).
Proof.
  intros _ Hout Hreach Hleft.
  apply well_in_reach_inReach in Hreach.
  assert (inBounds tx ty = false) as Hb.
  { apply not_true_is_false. intros C. apply Hout, inBounds_true, C. }
  unfold interact, mine, getTile, setTile. rewrite Hreach, Hleft, Hb. reflexivity.
Qed.

Lemma mining_outside_the_grid_yields_stone_witness :
  interact (mkInput false false false 0 0 true false O) 100 (-1)
    (mkPlayer 2400 24 0 0 18 34 false 1 100 100 0 0 false) empty_world ∅
  = (empty_world, <[STONE := default 0 ((∅ : gmap Tile Z) !! STONE) + 1]> ∅).
Proof.
  apply (mining_outside_the_grid_yields_stone
           (mkInput false false false 0 0 true false O) 100 (-1)
           (mkPlayer 2400 24 0 0 18 34 false 1 100 100 0 0 false) empty_world ∅).
  - vm_compute. repeat split; discriminate.
  - unfold WORLD_WIDTH, WORLD_HEIGHT. lia.
  - vm_compute. reflexivity.
  - reflexivity.
Defined.

(** The placing branch when it goes through. *)
Lemma place_done sel tx ty p w inv t :
  HOTBAR !! sel = Some t -> t <> AIR ->
  getTile w tx ty = AIR ->
  has_item inv t = true \/ t = DIRT ->
  intersectsX p tx && intersectsY p ty = false ->
  place sel tx ty p w inv =
    (setTile w tx ty t, if negb (bool_decide (t = DIRT))
                        then alter (fun n => n - 1) t inv else inv).
Proof.
  intros Hsel Hne Hair Hhave Hfree. unfold place. rewrite Hsel.
  rewrite (bool_decide_eq_false_2 _ Hne), (bool_decide_eq_true_2 _ Hair).
  cbn [negb andb]. rewrite Hfree. cbn [negb].
  destruct Hhave as [-> | ->]; [reflexivity|].
  rewrite bool_decide_eq_true_2 by reflexivity. rewrite orb_true_r. reflexivity.
Qed.

(** X15.  Placing the selected tile on an Air cell well in reach (right
    click) and mining it again (left click) gives back the grid as it was; the inventory is as
    it was too, except for Dirt, which costs nothing to place and so has gone
    up by one. *)
Theorem place_then_mine_round_trip (inp1 inp2 : Input) (tx ty : Z) (p : Player)
  (w : World) (inv : gmap Tile Z) (t : Tile) :
  wf_world w ->
  well_in_reach p tx ty = true ->
  mouse_left inp1 = false -> mouse_right inp1 = true ->
  mouse_left inp2 = true ->
  HOTBAR !! selectedHotbar inp1 = Some t -> t <> AIR ->
  getTile w tx ty = AIR ->
  has_item inv t = true \/ t = DIRT ->
  intersectsX p tx && intersectsY p ty = false ->
  let '(w1, inv1) := interact inp1 tx ty p w inv in
  let '(w2, inv2) := interact inp2 tx ty p w1 inv1 in
  getTile w1 tx ty = t /\
  w2 = w /\
  inv2 = if bool_decide (t = DIRT)
         then <[DIRT := default 0 (inv !! DIRT) + 1]> inv else inv.
Proof.
  intros Hw Hreach Hl1 Hr1 Hl2 Hsel Hne Hair Hhave Hfree.
  apply well_in_reach_inReach in Hreach.
  unfold interact. rewrite Hreach, Hl1, Hr1, Hl2.
  rewrite (place_done _ _ _ _ _ _ _ Hsel Hne Hair Hhave Hfree).
  pose proof (getTile_air_in_bounds _ _ _ Hair) as Hin.
  destruct (setTile_effect w tx ty t Hw) as (W1 & Hset & _).
  specialize (Hset Hin). unfold mine. rewrite Hset.
  rewrite (bool_decide_eq_false_2 _ Hne). cbn [negb].
  split; [reflexivity|]. split; [apply store_undo; assumption|].
  destruct (bool_decide (t = DIRT)) eqn:Ed; cbn [negb].
  - apply bool_decide_eq_true in Ed. subst t. reflexivity.
  - apply bool_decide_eq_false in Ed.
    destruct Hhave as [Hhave|]; [|contradiction].
    unfold has_item in Hhave. destruct (inv !! t) as [n|] eqn:En; [|discriminate].
    rewrite lookup_alter_eq, En. simpl.
    apply map_eq. intros t'. destruct (decide (t' = t)) as [->|Hne'].
    + rewrite lookup_insert_eq, En. f_equal. lia.
    + rewrite lookup_insert_ne, lookup_alter_ne by congruence. reflexivity.
Qed.

Lemma place_then_mine_round_trip_witness :
  let p := mkPlayer 2400 1519 0 0 18 34 true 1 100 100 0 0 true in
  let inp1 := mkInput false false false 0 0 false true 1%nat in
  let inp2 := mkInput false false false 0 0 true false 1%nat in
  let inv : gmap Tile Z := {[STONE := 2]} in
  let '(w1, inv1) := interact inp1 102 63 p world1337 inv in
  let '(w2, inv2) := interact inp2 102 63 p w1 inv1 in
  getTile w1 102 63 = STONE /\
  w2 = world1337 /\
  inv2 = if bool_decide (STONE = DIRT)
         then <[DIRT := default 0 (inv !! DIRT) + 1]> inv else inv.
Proof.
  apply (place_then_mine_round_trip
           (mkInput false false false 0 0 false true 1%nat)
           (mkInput false false false 0 0 true false 1%nat) 102 63
           (mkPlayer 2400 1519 0 0 18 34 true 1 100 100 0 0 true) world1337
           {[STONE := 2]} STONE).
  - rewrite world1337_generated.
    apply (generateWorld_deterministic 1337 empty_world empty_world);
      apply wf_empty_world.
  - vm_compute. reflexivity.
  - reflexivity.
  - reflexivity.
  - reflexivity.
  - reflexivity.
  - discriminate.
  - vm_compute. reflexivity.
  - left. vm_compute. reflexivity.
  - vm_compute. reflexivity.
Defined.

End MineAndPlace.

Section InventoryCounts.

Lemma interact_counts_nonneg inp tx ty p w inv :
  counts_nonneg inv -> counts_nonneg (snd (interact inp tx ty p w inv)).
Proof.
  intros Hinv. unfold interact.
  destruct (inReach p tx ty); [|exact Hinv].
  destruct (mouse_left inp).
  - unfold mine. destruct (negb _); [|exact Hinv]. cbn [snd].
    intros t n. destruct (decide (t = getTile w tx ty)) as [->|Hne].
    + rewrite lookup_insert_eq. intros [= <-].
      destruct (inv !! getTile w tx ty) as [m|] eqn:Em; simpl; [|lia].
      specialize (Hinv _ _ Em). lia.
    + rewrite lookup_insert_ne by congruence. apply Hinv.
  - destruct (mouse_right inp); [|exact Hinv].
    unfold place. destruct (HOTBAR !! selectedHotbar inp) as [t|]; [|exact Hinv].
    destruct (_ && _); [|exact Hinv].
    destruct (has_item inv t) eqn:Hhave; cbn [orb].
    + destruct (negb (_ && _)); [|exact Hinv]. cbn [snd].
      destruct (negb (bool_decide (t = DIRT))); [|exact Hinv].
      unfold has_item in Hhave. destruct (inv !! t) as [m|] eqn:Em; [|discriminate].
      apply Z.ltb_lt in Hhave.
      intros t' n. destruct (decide (t' = t)) as [->|Hne].
      * rewrite lookup_alter_eq, Em. simpl. intros [= <-]. lia.
      * rewrite lookup_alter_ne by congruence. apply Hinv.
    + destruct (bool_decide (t = DIRT)) eqn:Ed; [|exact Hinv].
      destruct (negb (_ && _)); [|exact Hinv]. exact Hinv.
Qed.

Lemma updatePlayerHealth_gameState dt o g :
  gameState (fst (updatePlayerHealth dt o g)) = gameState g.
Proof.
  unfold updatePlayerHealth.
  match goal with |- context [let '(_, _) := ?c in _] => destruct c end.
  reflexivity.
Qed.

(** X16.  No frame lets an inventory count go negative: mining only adds,
    and placing takes one only from a count that is positive (Dirt, which may
    be placed from an empty count, is never taken). *)
Theorem inventory_never_negative (dt : Q) (inp : Input) (o : Rand) (g : Game) :
  counts_nonneg (inventory (gameState g)) ->
  exists g' o', update dt inp o g = Some (g', o') /\
                counts_nonneg (inventory (gameState g')).
Proof.
  intros Hinv. unfold update.
  destruct (updateWeather _ _ _ _ _) as [[we w] o1].
  match goal with |- context [updatePlayerHealth ?a ?b ?c] =>
    pose proof (updatePlayerHealth_gameState a b c) as Hgs;
    destruct (updatePlayerHealth a b c) as [g1 o2] end.
  cbn [fst gameState] in Hgs.
  destruct (integrate_total (world g1) (apply_input inp (player g1))) as [p1 ->].
  cbn [mbind option_bind].
  match goal with |- context [interact ?a ?b ?c ?d ?e ?f] =>
    pose proof (interact_counts_nonneg a b c d e f) as Hi;
    destruct (interact a b c d e f) as [w' inv'] end.
  eexists _, _. split; [reflexivity|]. cbn [gameState inventory snd] in *.
  apply Hi. rewrite Hgs. exact Hinv.
Qed.

(** Two frames from the same state, the player standing on the default
    world with one Stone: a right click on the free cell (102, 63) places the
    Stone and leaves a count of zero; a left click on the Grass at (100, 65)
    mines it and starts its count at one. *)
Lemma inventory_never_negative_witness :
  let o : Rand := fun _ => (1 # 2)%Q in
  let g := mkGame world1337
             (mkPlayer 2400 1519 0 0 18 34 true 1 100 100 0 0 true)
             (mkCamera 2000 1219 800 600)
             (mkGameState 0 0 true {[STONE := 1]} initial_weather) in
  let placing := mkInput false false false 460 300 false true 1%nat in
  let mining := mkInput false false false 412 348 true false O in
  (exists g' o', update 1 placing o g = Some (g', o') /\
                 counts_nonneg (inventory (gameState g'))) /\
  option_map (fun r => (getTile (world (fst r)) 102 63,
                        inventory (gameState (fst r)) !! STONE))
             (update 1 placing o g) = Some (STONE, Some 0) /\
  (exists g' o', update 1 mining o g = Some (g', o') /\
                 counts_nonneg (inventory (gameState g'))) /\
  option_map (fun r => (getTile (world (fst r)) 100 65,
                        inventory (gameState (fst r)) !! GRASS,
                        inventory (gameState (fst r)) !! STONE))
             (update 1 mining o g) = Some (AIR, Some 1, Some 1).
Proof.
  cbv zeta.
  assert (counts_nonneg ({[STONE := 1]} : gmap Tile Z)) as Hinv.
  { intros t n Hn. apply lookup_singleton_Some in Hn as [_ <-]. lia. }
  split; [|split; [|split]].
  - apply (inventory_never_negative 1
             (mkInput false false false 460 300 false true 1%nat)).
    exact Hinv.
  - vm_compute. reflexivity.
  - apply (inventory_never_negative 1
             (mkInput false false false 412 348 true false O)).
    exact Hinv.
  - vm_compute. reflexivity.
Defined.

End InventoryCounts.

(** ** Damage and the health step *)

Section Damage.
Open Scope Q_scope.

(** X17.  A hit starts one second of invulnerability, so a second
    [damagePlayer] call right after any first one changes nothing, whatever
    its amount and time stamp. *)
Theorem second_hit_is_ignored (now1 now2 amount1 amount2 : Q) (p : Player) :
  damagePlayer now2 amount2 (damagePlayer now1 amount1 p)
  = damagePlayer now1 amount1 p /\
  (invulnerableTime p <= 0 ->
   invulnerableTime (damagePlayer now1 amount1 p) = 1 /\
   health (damagePlayer now1 amount1 p) = Qmax 0 (health p - amount1)) /\
  (0 < invulnerableTime p -> damagePlayer now1 amount1 p = p).
Proof.
  unfold damagePlayer.
  destruct (Qltb 0 (invulnerableTime p)) eqn:E.
  - rewrite E. split; [reflexivity|]. apply Qltb_lt in E.
    split; [intros H; lra|reflexivity].
  - cbn [invulnerableTime set_lastDamageTime set_invulnerableTime set_health].
    change (Qltb 0 1) with true. cbv iota. split; [reflexivity|].
    apply Qltb_ge in E. split; [auto|intros H; lra].
Qed.

Lemma second_hit_is_ignored_witness :
  damagePlayer 2 50 (damagePlayer 1 30 initial_player)
  = damagePlayer 1 30 initial_player /\
  invulnerableTime (damagePlayer 1 30 initial_player) = 1 /\
  health (damagePlayer 1 30 initial_player) = Qmax 0 (health initial_player - 30).
Proof.
  destruct (second_hit_is_ignored 1 2 30 50 initial_player) as (H1 & H2 & _).
  split; [exact H1|]. apply H2. vm_compute. discriminate.
Defined.

(** A hit leaves the maximum alone. *)
Lemma damagePlayer_maxHealth now amount p :
  maxHealth (damagePlayer now amount p) = maxHealth p.
Proof. unfold damagePlayer. destruct (Qltb _ _); reflexivity. Qed.

(** X18.  The health step never leaves the actor dead: whatever the damage
    of the step, an actor whose maximum is positive ends it with positive
    health (one whose health ran out is put back to the maximum), and the
    maximum itself never changes. *)
Theorem health_step_never_leaves_dead (dt : Q) (o : Rand) (g : Game) :
  0 < maxHealth (player g) ->
  0 < health (player (fst (updatePlayerHealth dt o g))) /\
  maxHealth (player (fst (updatePlayerHealth dt o g))) = maxHealth (player g).
Proof.
  intros Hmax. unfold updatePlayerHealth.
  set (p1 := if Qltb 0 (invulnerableTime (player g)) then _ else _).
  assert (maxHealth p1 = maxHealth (player g)) as H1.
  { subst p1. destruct (Qltb _ _); reflexivity. }
  clearbody p1.
  set (p2 := if fall_damage_due p1 then _ else _).
  assert (maxHealth p2 = maxHealth (player g)) as H2.
  { subst p2. destruct (fall_damage_due p1); [|exact H1].
    destruct (_ <? _)%Z; [|exact H1]. rewrite damagePlayer_maxHealth. exact H1. }
  clearbody p2.
  set (p3 := set_wasOnGround p2 (onGround p2)).
  assert (maxHealth p3 = maxHealth (player g)) as H3 by exact H2.
  clearbody p3.
  set (q := if bool_decide _ && negb _ then _ else _).
  assert (maxHealth (fst q) = maxHealth (player g)) as H4.
  { subst q. destruct (_ && _); [|exact H3].
    simpl. destruct (_ && _); [|exact H3].
    simpl. rewrite damagePlayer_maxHealth. exact H3. }
  destruct q as [p4 o4]. simpl in H4.
  set (p5 := if Qltb (health p4) (maxHealth p4) && _ then _ else _).
  assert (maxHealth p5 = maxHealth (player g)) as H5.
  { subst p5. destruct (_ && _); exact H4. }
  clearbody p5. simpl.
  destruct (Qle_bool (health p5) 0) eqn:Hdead.
  - unfold spawnPlayerOnSurface.
    destruct (spawn_scan_health (Z.to_nat WORLD_HEIGHT) 0 (world g)
                (set_health p5 (maxHealth p5))) as [-> ->].
    simpl. rewrite H5. split; [exact Hmax|reflexivity].
  - apply Qle_bool_gt in Hdead. split; [exact Hdead|exact H5].
Qed.

Lemma health_step_never_leaves_dead_witness :
  0 < health (player (fst (updatePlayerHealth 1 (fun _ => 1 # 2)
                             (with_player falling_game
                                (set_health initial_player 0))))) /\
  maxHealth (player (fst (updatePlayerHealth 1 (fun _ => 1 # 2)
                            (with_player falling_game (set_health initial_player 0)))))
  = maxHealth (player (with_player falling_game (set_health initial_player 0))).
Proof.
  apply (health_step_never_leaves_dead 1 (fun _ => 1 # 2)
           (with_player falling_game (set_health initial_player 0))).
  vm_compute. reflexivity.
Defined.

(** X19.  Outside a storm at night the health step draws no random number,
    and unless the fall-damage guard holds it cannot hurt: a living actor's
    health stays or, by regeneration, grows. *)
Theorem health_step_harmless_outside_night_storm (dt : Q) (o : Rand) (g : Game) :
  0 <= dt ->
  wtype (weather (gameState g)) <> storm \/ isDaytime (gameState g) = true ->
  fall_damage_due (player g) = false ->
  0 < health (player g) ->
  snd (updatePlayerHealth dt o g) = o /\
  health (player g) <= health (player (fst (updatePlayerHealth dt o g))).
Proof.
  intros Hdt Hcalm Hfall Hlive. unfold updatePlayerHealth.
  set (p1 := if Qltb 0 (invulnerableTime (player g)) then _ else _).
  assert (health p1 = health (player g) /\ fall_damage_due p1 = false) as [H1 F1].
  { subst p1. destruct (Qltb _ _); split; first [reflexivity | exact Hfall]. }
  clearbody p1. rewrite F1.
  assert (bool_decide (wtype (weather (gameState g)) = storm)
          && negb (isDaytime (gameState g)) = false) as ->.
  { destruct Hcalm as [Hc| ->].
    - rewrite (bool_decide_eq_false_2 _ Hc). reflexivity.
    - apply andb_false_r. }
  cbn [fst snd player]. split; [reflexivity|].
  set (p3 := set_wasOnGround p1 (onGround p1)).
  assert (health p3 = health (player g)) as H3 by exact H1.
  clearbody p3.
  set (p5 := if Qltb (health p3) (maxHealth p3) && _ then _ else _).
  assert (health (player g) <= health p5) as H5.
  { subst p5. destruct (Qltb (health p3) (maxHealth p3)) eqn:E;
      [|cbn [andb]; rewrite H3; lra].
    apply Qltb_lt in E. destruct (Qltb 5 _); cbn [andb]; [|rewrite H3; lra].
    cbn [health set_health]. rewrite <- H3.
    apply Q.min_glb; [lra|].
    assert (0 <= (1 # 100) * dt / 60) by (unfold Qdiv; cbn [Qinv Qnum Qden]; nra).
    lra. }
  clearbody p5.
  destruct (Qle_bool (health p5) 0) eqn:Hdead; [|exact H5].
  apply Qle_bool_iff in Hdead. lra.
Qed.

Lemma health_step_harmless_outside_night_storm_witness :
  snd (updatePlayerHealth 1 (fun _ => 1 # 2) falling_game) = (fun _ => 1 # 2) /\
  health (player falling_game)
  <= health (player (fst (updatePlayerHealth 1 (fun _ => 1 # 2) falling_game))).
Proof.
  apply (health_step_harmless_outside_night_storm 1 (fun _ => 1 # 2) falling_game).
  - vm_compute. discriminate.
  - left. vm_compute. discriminate.
  - vm_compute. reflexivity.
  - vm_compute. reflexivity.
Defined.

End Damage.

(** ** Weather *)

Section NewWeather.
Open Scope Q_scope.

(** X20.  [startNewWeather] always leaves an active weather: rain with
    intensity in [0.3, 1] lasting between 30 and 150 seconds, or a storm with
    intensity in [0.6, 1] lasting between 20 and 80 seconds, with an empty
    particle list; it consumes exactly three random draws.  The ranges are
    closed: the exact sums stay below the upper ends, the rounded sums of the
    code can reach them. *)
Theorem startNewWeather_ranges (o : Rand) (we : Weather) :
  valid_rand o ->
  let we' := fst (startNewWeather o we) in
  ((wtype we' = rain /\ 3 # 10 <= intensity we' <= 1 /\ 30 <= timeLeft we' <= 150) \/
   (wtype we' = storm /\ 6 # 10 <= intensity we' <= 1 /\ 20 <= timeLeft we' <= 80)) /\
  particles we' = [] /\
  forall n, snd (startNewWeather o we) n = o (3 + n)%nat.
Proof.
  intros Ho. cbv zeta. unfold startNewWeather, draw.
  pose proof (Ho 1%nat) as [A1 B1]. pose proof (Ho 2%nat) as [A2 B2].
  destruct (Qltb (o 0%nat) (7 # 10)); cbn [fst snd wtype intensity timeLeft particles].
  - split; [left; repeat split; lra|]. split; reflexivity.
  - split; [right; repeat split; lra|]. split; reflexivity.
Qed.

Lemma startNewWeather_ranges_witness :
  let o : Rand := fun _ => 1 # 2 in
  let we' := fst (startNewWeather o initial_weather) in
  ((wtype we' = rain /\ 3 # 10 <= intensity we' <= 1 /\ 30 <= timeLeft we' <= 150) \/
   (wtype we' = storm /\ 6 # 10 <= intensity we' <= 1 /\ 20 <= timeLeft we' <= 80)) /\
  particles we' = [] /\
  forall n, snd (startNewWeather o initial_weather) n = o (3 + n)%nat.
Proof.
  apply (startNewWeather_ranges (fun _ => 1 # 2) initial_weather).
  intros n. split; [discriminate|reflexivity].
Defined.

End NewWeather.

Section Rainfall.
Open Scope Q_scope.

Lemma sand_to_dirt_refl ty w : sand_to_dirt ty w w.
Proof. intros x y. left. reflexivity. Qed.

Lemma sand_to_dirt_trans ty w1 w2 w3 :
  sand_to_dirt ty w1 w2 -> sand_to_dirt ty w2 w3 -> sand_to_dirt ty w1 w3.
Proof.
  intros H12 H23 x y.
  destruct (H23 x y) as [E|(E1 & E2 & E3)].
  - rewrite E. apply H12.
  - destruct (H12 x y) as [E|(E1' & E2' & _)].
    + right. rewrite <- E. auto.
    + rewrite E2' in E1. discriminate.
Qed.

Lemma sand_to_dirt_solid ty w w' x y :
  sand_to_dirt ty w w' -> isSolid (getTile w' x y) = isSolid (getTile w x y).
Proof.
  intros H. destruct (H x y) as [->|(-> & -> & _)]; reflexivity.
Qed.

(** The particle loop: what is left of the list, and what became of the
    grid. *)
Lemma move_particles_spec dt ty cam ps :
  forall w o,
    wf_world w ->
    let '(ps', w', _) := move_particles dt ty cam ps w o in
    wf_world w' /\ sand_to_dirt ty w w' /\
    (length ps' <= length ps)%nat /\
    Forall (fun q => part_y q <= cam_y cam + cam_height cam /\
                     isSolid (getTile w' (tile_index (part_x q))
                                         (tile_index (part_y q))) = false) ps'.
Proof.
  induction ps as [|q ps IH]; intros w o Hw; cbn [move_particles].
  - split; [exact Hw|]. split; [apply sand_to_dirt_refl|]. split; [lia|constructor].
  - specialize (IH w o Hw).
    destruct (move_particles dt ty cam ps w o) as [[rest w1] o1].
    destruct IH as (W1 & S1 & L1 & F1).
    cbn [part_x part_y speed length_].
    set (y' := part_y q + speed q * dt / 5).
    destruct (Qltb (cam_y cam + cam_height cam) y') eqn:Hout.
    { split; [exact W1|]. split; [exact S1|]. split; [simpl; lia|exact F1]. }
    apply Qltb_ge in Hout.
    destruct (isSolid (getTile w1 (tile_index (part_x q)) (tile_index y'))) eqn:Hsolid.
    + destruct (bool_decide (ty = rain) &&
                bool_decide (getTile w1 (tile_index (part_x q)) (tile_index y') = SAND))
        eqn:Hsand.
      2:{ split; [exact W1|]. split; [exact S1|]. split; [simpl; lia|exact F1]. }
      apply andb_true_iff in Hsand as [Hrain Hsand].
      apply bool_decide_eq_true in Hrain. apply bool_decide_eq_true in Hsand.
      destruct (draw o1) as [r o2]. destruct (Qltb r (1 # 1000)).
      2:{ split; [exact W1|]. split; [exact S1|]. split; [simpl; lia|exact F1]. }
      destruct (setTile_effect w1 (tile_index (part_x q)) (tile_index y') DIRT W1)
        as (W2 & Hset & Hother).
      assert (sand_to_dirt ty w1
                (setTile w1 (tile_index (part_x q)) (tile_index y') DIRT)) as S2.
      { intros x y.
        destruct (decide ((x, y) = (tile_index (part_x q), tile_index y')))
          as [[= -> ->]|Hne]; [|left; apply Hother, Hne].
        right. split; [exact Hsand|]. split; [|exact Hrain].
        apply Hset. unfold getTile in Hsand.
        destruct (inBounds _ _); [reflexivity|discriminate]. }
      split; [exact W2|]. split; [apply (sand_to_dirt_trans _ _ _ _ S1 S2)|].
      split; [simpl; lia|].
      eapply Forall_impl; [exact F1|]. intros c [Hc1 Hc2].
      split; [exact Hc1|]. rewrite (sand_to_dirt_solid _ _ _ _ _ S2). exact Hc2.
    + split; [exact W1|]. split; [exact S1|]. split; [simpl; lia|].
      constructor; [|exact F1]. cbn [part_x part_y]. auto.
Qed.

(** X21.  The weather step changes the grid in one way only: under rain a
    Sand cell may have become Dirt.  No cell changes in clear weather or in a
    storm, no cell changes its solidity, and the grid keeps its size. *)
Theorem weather_only_turns_sand_to_dirt (dt : Q) (cam : Camera) (we : Weather)
  (w : World) (o : Rand) :
  wf_world w ->
  let '(we', w', _) := updateWeather dt cam we w o in
  wf_world w' /\
  (forall x y, getTile w' x y = getTile w x y \/
               (getTile w x y = SAND /\ getTile w' x y = DIRT /\ wtype we' = rain)) /\
  (forall x y, isSolid (getTile w' x y) = isSolid (getTile w x y)).
Proof.
  intros Hw. unfold updateWeather.
  destruct (weather_tick dt we o) as [we1 o1].
  unfold updateWeatherParticles.
  destruct (bool_decide (wtype we1 = clear)).
  { split; [exact Hw|]. split; [left|]; reflexivity. }
  destruct (spawn_particles _ _ _ _ _) as [ps o2].
  pose proof (move_particles_spec dt (wtype we1) cam ps w o2 Hw) as H.
  destruct (move_particles dt (wtype we1) cam ps w o2) as [[ps' w'] o3].
  destruct H as (W' & S' & _). cbn [wtype].
  split; [exact W'|]. split; [exact S'|].
  intros x y. apply (sand_to_dirt_solid _ _ _ _ _ S').
Qed.

(** A rain drop just above the Sand at (110, 64) of the default world, with
    the draw that lets the rain act: the Sand becomes Dirt. *)
Lemma weather_only_turns_sand_to_dirt_witness :
  getTile world1337 110 64 = SAND /\
  let '(we', w', _) :=
    updateWeather 1 (mkCamera 2400 1200 800 600)
      (mkWeather rain (1 # 10) 10 [mkParticle 2650 1535 10 12]) world1337
      (fun _ => 0) in
  (wf_world w' /\
   (forall x y, getTile w' x y = getTile world1337 x y \/
                (getTile world1337 x y = SAND /\ getTile w' x y = DIRT /\
                 wtype we' = rain)) /\
   (forall x y, isSolid (getTile w' x y) = isSolid (getTile world1337 x y))) /\
  getTile w' 110 64 = DIRT /\ particles we' = [].
Proof.
  split; [vm_compute; reflexivity|].
  assert (wf_world world1337) as Hw.
  { rewrite world1337_generated.
    apply (generateWorld_deterministic 1337 empty_world empty_world);
      apply wf_empty_world. }
  pose proof (weather_only_turns_sand_to_dirt 1 (mkCamera 2400 1200 800 600)
                (mkWeather rain (1 # 10) 10 [mkParticle 2650 1535 10 12])
                world1337 (fun _ => 0) Hw) as H.
  assert (let r := updateWeather 1 (mkCamera 2400 1200 800 600)
                     (mkWeather rain (1 # 10) 10 [mkParticle 2650 1535 10 12])
                     world1337 (fun _ => 0) in
          getTile (snd (fst r)) 110 64 = DIRT /\ particles (fst (fst r)) = [])
    as E by (vm_compute; split; reflexivity).
  cbv zeta in E.
  destruct (updateWeather _ _ _ _ _) as [[we' w'] o'].
  cbn [fst snd] in E. split; [exact H|exact E].
Defined.

(** X22.  After the particle step of an active weather every particle
    still in the list, old or just spawned, has been moved, lies at or above
    the lower edge of the view and is in a tile that is not solid: those that
    left the view or hit a solid tile are gone. *)
Theorem surviving_particles_are_in_free_tiles (dt : Q) (cam : Camera)
  (we : Weather) (w : World) (o : Rand) :
  wf_world w -> wtype we <> clear ->
  let '(we', w', _) := updateWeatherParticles dt cam we w o in
  Forall (fun q => part_y q <= cam_y cam + cam_height cam /\
                   isSolid (getTile w' (tile_index (part_x q))
                                       (tile_index (part_y q))) = false)
         (particles we').
Proof.
  intros Hw Hact. unfold updateWeatherParticles.
  rewrite (bool_decide_eq_false_2 _ Hact).
  destruct (spawn_particles _ _ _ _ _) as [ps o2].
  pose proof (move_particles_spec dt (wtype we) cam ps w o2 Hw) as H.
  destruct (move_particles dt (wtype we) cam ps w o2) as [[ps' w'] o3].
  destruct H as (_ & _ & _ & F). exact F.
Qed.

Lemma surviving_particles_are_in_free_tiles_witness :
  let cam := mkCamera 0 0 800 600 in
  let '(we', w', _) :=
    updateWeatherParticles 1 cam (mkWeather rain (1 # 2) 10 []) empty_world
      (fun _ => 1 # 2) in
  Forall (fun q => part_y q <= cam_y cam + cam_height cam /\
                   isSolid (getTile w' (tile_index (part_x q))
                                       (tile_index (part_y q))) = false)
         (particles we').
Proof.
  apply (surviving_particles_are_in_free_tiles 1 (mkCamera 0 0 800 600)
           (mkWeather rain (1 # 2) 10 []) empty_world (fun _ => 1 # 2)).
  - apply wf_empty_world.
  - discriminate.
Defined.

End Rainfall.

(** ** Clock and camera *)

Section Clock.
Open Scope Q_scope.

(** On a non-negative number truncation is the floor. *)
Lemma Qtrunc_nonneg q : 0 <= q -> inject_Z (Qtrunc q) <= q < inject_Z (Qtrunc q) + 1.
Proof.
  intros H. assert (Qtrunc q = Qfloor q) as ->.
  { destruct q as [n d]. unfold Qtrunc, Qfloor. cbn [Qnum Qden].
    apply Z.quot_div_nonneg; [|lia]. unfold Qle in H. simpl in H. lia. }
  split; [apply Qfloor_le|apply Qfloor_ub].
Qed.

(** The remainder [a % b] of a non-negative [a] by a positive [b]. *)
Lemma Qrem_nonneg a b :
  0 <= a -> 0 < b ->
  0 <= Qrem a b < b /\ a == b * ofZ (Qtrunc (a / b)) + Qrem a b /\
  (0 <= Qtrunc (a / b))%Z.
Proof.
  intros Ha Hb. unfold Qrem, ofZ.
  assert (0 <= a / b) as Hq by (apply Qle_shift_div_l; lra).
  destruct (Qtrunc_nonneg (a / b) Hq) as [H1 H2].
  set (k := inject_Z (Qtrunc (a / b))) in *.
  assert (a == a / b * b) as Ea by (field; lra).
  assert (k * b <= a / b * b) as H3
    by (apply Qmult_le_compat_r; [exact H1|lra]).
  assert (a / b * b < (k + 1) * b) as H4
    by (apply Qmult_lt_compat_r; [exact Hb|exact H2]).
  rewrite <- Ea in H3, H4.
  split; [split; lra|]. split; [lra|].
  apply Z.quot_pos; [|lia].
  destruct (a / b) as [n d]. unfold Qle in Hq. simpl in Hq. simpl. lia.
Qed.

(** X23.  The day/night clock: a frame advances the total time by dt / 60
    and, for non-negative times, sets dayTime to the fraction of the current
    600-second cycle that has elapsed, a number in [0, 1); it is day exactly
    while that fraction is below DAY_PORTION. *)
Theorem clock_is_cycle_fraction (dt : Q) (gs : GameState) :
  0 <= totalTime gs -> 0 <= dt ->
  let gs' := update_clock dt gs in
  totalTime gs' == totalTime gs + dt / 60 /\
  0 <= dayTime gs' < 1 /\
  (exists cycles : Z,
     (0 <= cycles)%Z /\
     totalTime gs' == (ofZ cycles + dayTime gs') * DAY_NIGHT_CYCLE_DURATION) /\
  (isDaytime gs' = true <-> dayTime gs' < DAY_PORTION) /\
  inventory gs' = inventory gs /\ weather gs' = weather gs.
Proof.
  intros Ht Hdt. cbv zeta. unfold update_clock.
  cbn [totalTime dayTime isDaytime inventory weather].
  set (T := totalTime gs + dt / 60).
  assert (0 <= T) as HT.
  { subst T. assert (0 <= dt / 60) by (apply Qle_shift_div_l; lra). lra. }
  destruct (Qrem_nonneg T DAY_NIGHT_CYCLE_DURATION HT ltac:(reflexivity))
    as ([R0 R1] & Rk & Hk).
  unfold DAY_NIGHT_CYCLE_DURATION in *.
  split; [reflexivity|]. split; [|split; [|split]].
  - split; [apply Qle_shift_div_l; lra|apply Qlt_shift_div_r; lra].
  - exists (Qtrunc (T / 600)). split; [exact Hk|].
    rewrite Rk at 1. field.
  - apply Qltb_lt.
  - split; reflexivity.
Qed.

Lemma clock_is_cycle_fraction_witness :
  let gs := mkGameState 0 900 true ∅ initial_weather in
  let gs' := update_clock 60 gs in
  totalTime gs' == totalTime gs + 60 / 60 /\
  0 <= dayTime gs' < 1 /\
  (exists cycles : Z,
     (0 <= cycles)%Z /\
     totalTime gs' == (ofZ cycles + dayTime gs') * DAY_NIGHT_CYCLE_DURATION) /\
  (isDaytime gs' = true <-> dayTime gs' < DAY_PORTION) /\
  inventory gs' = inventory gs /\ weather gs' = weather gs.
Proof.
  apply (clock_is_cycle_fraction 60 (mkGameState 0 900 true ∅ initial_weather)).
  - vm_compute. discriminate.
  - vm_compute. discriminate.
Defined.

End Clock.

Section CameraFollow.
Open Scope Q_scope.

(** X24.  The camera never shows anything left of or above the world, and
    when the view is not larger than the world it never shows anything right
    of or below it either; following moves it by 15% of the way to the actor
    before the clamp, and never changes the view's size. *)
Theorem camera_stays_in_world (p : Player) (cam : Camera) :
  let c := follow_camera p cam in
  0 <= cam_x c /\ 0 <= cam_y c /\
  (cam_width cam <= ofZ WORLD_WIDTH * TILE_SIZE ->
   cam_x c + cam_width c <= ofZ WORLD_WIDTH * TILE_SIZE) /\
  (cam_height cam <= ofZ WORLD_HEIGHT * TILE_SIZE ->
   cam_y c + cam_height c <= ofZ WORLD_HEIGHT * TILE_SIZE) /\
  cam_width c = cam_width cam /\ cam_height c = cam_height cam.
Proof.
  cbv zeta. unfold follow_camera. cbn [cam_x cam_y cam_width cam_height].
  split; [apply Q.le_max_l|]. split; [apply Q.le_max_l|].
  split; [|split; [|split; reflexivity]].
  - intros H.
    match goal with |- Qmax 0 (Qmin ?a ?b) + _ <= _ =>
      assert (Qmax 0 (Qmin a b) <= b) as Hle
        by (apply Q.max_lub; [lra|apply Q.le_min_r]) end.
    lra.
  - intros H.
    match goal with |- Qmax 0 (Qmin ?a ?b) + _ <= _ =>
      assert (Qmax 0 (Qmin a b) <= b) as Hle
        by (apply Q.max_lub; [lra|apply Q.le_min_r]) end.
    lra.
Qed.

Lemma camera_stays_in_world_witness :
  let c := follow_camera initial_player (mkCamera 0 0 800 600) in
  0 <= cam_x c /\ 0 <= cam_y c /\
  cam_x c + cam_width c <= ofZ WORLD_WIDTH * TILE_SIZE /\
  cam_y c + cam_height c <= ofZ WORLD_HEIGHT * TILE_SIZE.
Proof.
  destruct (camera_stays_in_world initial_player (mkCamera 0 0 800 600))
    as (H1 & H2 & H3 & H4 & _).
  cbv zeta. split; [exact H1|]. split; [exact H2|].
  split; [apply H3|apply H4]; vm_compute; discriminate.
Defined.

End CameraFollow.

(** ** Crafting *)

Section Crafting.

(** With the button up the loop crafts nothing. *)
Lemma craft_loop_idle menuX menuWidth mx my recipes :
  forall recipeY inv,
    craft_loop menuX menuWidth mx my recipes recipeY (false, inv) = (false, inv).
Proof.
  induction recipes as [|r rs IH]; intros recipeY inv; cbn [craft_loop];
    [reflexivity|].
  cbn [andb]. rewrite andb_false_r. apply IH.
Qed.

(** The loop crafts one affordable recipe whose button is under the pressed
    mouse, and no other. *)
Lemma craft_loop_spec menuX menuWidth mx my recipes :
  forall recipeY mouseLeft inv,
    let '(left', inv') :=
      craft_loop menuX menuWidth mx my recipes recipeY (mouseLeft, inv) in
    (left' = mouseLeft /\ inv' = inv) \/
    (mouseLeft = true /\ left' = false /\
     exists (i : nat) r y,
       recipes !! i = Some r /\ canCraft inv r = true /\
       (y == recipeY + 40 * inject_Z (Z.of_nat i))%Q /\
       craft_clicked menuX menuWidth y mx my = true /\
       inv' = produce r (consume r inv)).
Proof.
  induction recipes as [|r rs IH]; intros recipeY mouseLeft inv; cbn [craft_loop].
  - left. auto.
  - assert (forall l' i',
              (l' = mouseLeft /\ i' = inv) \/
              (mouseLeft = true /\ l' = false /\
               exists (i : nat) r' y,
                 rs !! i = Some r' /\ canCraft inv r' = true /\
                 (y == recipeY + 40 + 40 * inject_Z (Z.of_nat i))%Q /\
                 craft_clicked menuX menuWidth y mx my = true /\
                 i' = produce r' (consume r' inv)) ->
              (l' = mouseLeft /\ i' = inv) \/
              (mouseLeft = true /\ l' = false /\
               exists (i : nat) r' y,
                 (r :: rs) !! i = Some r' /\ canCraft inv r' = true /\
                 (y == recipeY + 40 * inject_Z (Z.of_nat i))%Q /\
                 craft_clicked menuX menuWidth y mx my = true /\
                 i' = produce r' (consume r' inv))) as Hshift.
    { intros l' i' [H|(H1 & H2 & i & r' & y & Hi & Hc & Hy & Hk & He)];
        [left; exact H|].
      right. split; [exact H1|]. split; [exact H2|].
      exists (Datatypes.S i), r', y. split; [exact Hi|]. split; [exact Hc|].
      split; [|split; assumption].
      rewrite Hy, Nat2Z.inj_succ. unfold Z.succ. rewrite inject_Z_plus.
      change (inject_Z 1) with 1%Q. ring. }
    destruct (canCraft inv r) eqn:Hc; cbn [andb].
    + destruct mouseLeft; cbn [andb].
      * destruct (craft_clicked menuX menuWidth recipeY mx my) eqn:Hk.
        -- rewrite craft_loop_idle. right. split; [reflexivity|].
           split; [reflexivity|]. exists O, r, recipeY.
           split; [reflexivity|]. split; [exact Hc|].
           split; [|split; [exact Hk|reflexivity]].
           change (inject_Z (Z.of_nat 0)) with 0%Q. ring.
        -- specialize (IH (recipeY + 40)%Q true inv).
           destruct (craft_loop _ _ _ _ rs _ _) as [l' i']. apply Hshift, IH.
      * rewrite craft_loop_idle. left. auto.
    + specialize (IH (recipeY + 40)%Q mouseLeft inv).
      destruct (craft_loop _ _ _ _ rs _ _) as [l' i']. apply Hshift, IH.
Qed.

Lemma craft_clicked_rect menuX menuWidth recipeY mx my :
  craft_clicked menuX menuWidth recipeY mx my = true ->
  (menuX + menuWidth - 70 <= mx <= menuX + menuWidth - 20 /\
   recipeY - 10 <= my <= recipeY + 10)%Q.
Proof.
  unfold craft_clicked. rewrite !andb_true_iff, !Qle_bool_iff. tauto.
Qed.

(** X25.  One call of [drawCraftingMenu] crafts at most once: either the
    inventory and the mouse button are as before, or the button was down and
    is now released, the mouse is on the Craft button of one recipe of the
    table (the i-th, 40 units below the one before), all inputs of that
    recipe were in stock, and that recipe alone has been applied. *)
Theorem one_craft_per_click (cam : Camera) (mx my : Q) (mouseLeft : bool)
  (inv : gmap Tile Z) :
  let '(left', inv') := drawCraftingMenu cam mx my mouseLeft inv in
  (left' = mouseLeft /\ inv' = inv) \/
  (mouseLeft = true /\ left' = false /\
   exists (i : nat) r,
     RECIPES !! i = Some r /\ canCraft inv r = true /\
     let menuX := ((cam_width cam - 300) / 2)%Q in
     let recipeY := ((cam_height cam - 250) / 2 + 100 + 40 * inject_Z (Z.of_nat i))%Q in
     (menuX + 230 <= mx <= menuX + 280 /\ recipeY - 10 <= my <= recipeY + 10)%Q /\
     inv' = produce r (consume r inv)).
Proof.
  unfold drawCraftingMenu. cbv zeta.
  match goal with |- context [craft_loop ?a ?b ?c ?d ?e ?f (?l, ?i)] =>
    pose proof (craft_loop_spec a b c d e f l i) as H;
    destruct (craft_loop a b c d e f (l, i)) as [left' inv'] end.
  destruct H as [H|(H1 & H2 & i & r & y & Hi & Hc & Hy & Hk & He)]; [left; exact H|].
  right. split; [exact H1|]. split; [exact H2|].
  exists i, r. split; [exact Hi|]. split; [exact Hc|]. split; [|exact He].
  apply craft_clicked_rect in Hk as [[Hx1 Hx2] [Hy1 Hy2]].
  rewrite Hy in Hy1, Hy2. repeat split; lra.
Qed.

Lemma stock_of (inv : gmap Tile Z) (id : Tile) (count : Z) :
  negb (default 0 (inv !! id) <? count) = true -> 0 < count ->
  exists n, inv !! id = Some n /\ count <= n.
Proof.
  intros H Hc. apply negb_true_iff, Z.ltb_ge in H.
  destruct (inv !! id) as [n|]; simpl in H; [eauto|lia].
Qed.

(** Applying an affordable recipe of the table keeps the counts
    non-negative, and changes them by the recipe's amounts. *)
Lemma recipe_counts (inv : gmap Tile Z) (r : Recipe) :
  r ∈ RECIPES -> canCraft inv r = true -> counts_nonneg inv ->
  counts_nonneg (produce r (consume r inv)).
Proof.
  intros Hin Hc Hinv. unfold RECIPES in Hin.
  repeat (apply elem_of_cons in Hin as [->|Hin]); [| | |inversion Hin];
    unfold canCraft in Hc; cbn [input forallb] in Hc;
    rewrite ?andb_true_r in Hc;
    unfold produce, consume; cbn [input output fold_left].
  - destruct (stock_of _ _ _ Hc ltac:(lia)) as (n & En & Hn).
    intros t m. destruct (decide (t = GLASS)) as [->|Hg].
    + rewrite lookup_insert_eq. intros [= <-].
      rewrite lookup_alter_ne by discriminate.
      destruct (inv !! GLASS) as [k|] eqn:Ek; simpl; [|lia].
      specialize (Hinv _ _ Ek). lia.
    + rewrite lookup_insert_ne by congruence.
      destruct (decide (t = SAND)) as [->|Hs].
      * rewrite lookup_alter_eq, En. simpl. intros [= <-]. lia.
      * rewrite lookup_alter_ne by congruence. apply Hinv.
  - destruct (stock_of _ _ _ Hc ltac:(lia)) as (n & En & Hn).
    intros t m. destruct (decide (t = BRICK)) as [->|Hg].
    + rewrite lookup_insert_eq. intros [= <-].
      rewrite lookup_alter_ne by discriminate.
      destruct (inv !! BRICK) as [k|] eqn:Ek; simpl; [|lia].
      specialize (Hinv _ _ Ek). lia.
    + rewrite lookup_insert_ne by congruence.
      destruct (decide (t = STONE)) as [->|Hs].
      * rewrite lookup_alter_eq, En. simpl. intros [= <-]. lia.
      * rewrite lookup_alter_ne by congruence. apply Hinv.
  - apply andb_true_iff in Hc as [Hc1 Hc2].
    destruct (stock_of _ _ _ Hc1 ltac:(lia)) as (n1 & En1 & Hn1).
    destruct (stock_of _ _ _ Hc2 ltac:(lia)) as (n2 & En2 & Hn2).
    intros t m. destruct (decide (t = TORCH)) as [->|Hg].
    + rewrite lookup_insert_eq. intros [= <-].
      rewrite !lookup_alter_ne by discriminate.
      destruct (inv !! TORCH) as [k|] eqn:Ek; simpl; [|lia].
      specialize (Hinv _ _ Ek). lia.
    + rewrite lookup_insert_ne by congruence.
      destruct (decide (t = WOOD)) as [->|Hw].
      * rewrite lookup_alter_eq, lookup_alter_ne, En2 by discriminate.
        simpl. intros [= <-]. lia.
      * rewrite lookup_alter_ne by congruence.
        destruct (decide (t = STONE)) as [->|Hs].
        -- rewrite lookup_alter_eq, En1. simpl. intros [= <-]. lia.
        -- rewrite lookup_alter_ne by congruence. apply Hinv.
Qed.

(** X26.  Crafting never drives an inventory count below zero: a recipe is
    applied only when each of its inputs is in stock in the amount it takes. *)
Theorem crafting_keeps_counts_nonneg (cam : Camera) (mx my : Q) (left : bool)
  (inv : gmap Tile Z) :
  counts_nonneg inv ->
  counts_nonneg (snd (drawCraftingMenu cam mx my left inv)).
Proof.
  intros Hinv. unfold drawCraftingMenu. cbv zeta.
  match goal with |- context [craft_loop ?a ?b ?c ?d ?e ?f (?l, ?i)] =>
    pose proof (craft_loop_spec a b c d e f l i) as H;
    destruct (craft_loop a b c d e f (l, i)) as [left' inv'] end.
  cbn [snd]. destruct H as [[_ ->]|(_ & _ & i & r & y & Hi & Hc & _ & _ & ->)];
    [exact Hinv|].
  apply recipe_counts; [|assumption..].
  apply list_elem_of_lookup. exists i. exact Hi.
Qed.

(** A click on the Brick button with exactly the three Stone it takes: the
    Stone count goes to zero and one Brick is made. *)
Lemma crafting_keeps_counts_nonneg_witness :
  let r := drawCraftingMenu (mkCamera 0 0 800 600) 500 315 true
             {[STONE := 3; WOOD := 1]} in
  counts_nonneg (snd r) /\
  snd r !! STONE = Some 0 /\ snd r !! BRICK = Some 1 /\ snd r !! WOOD = Some 1 /\
  fst r = false.
Proof.
  cbv zeta. split.
  - apply (crafting_keeps_counts_nonneg (mkCamera 0 0 800 600) 500 315 true
             {[STONE := 3; WOOD := 1]}).
    intros t n H.
    apply lookup_insert_Some in H as [[_ <-]|[_ H]]; [lia|].
    apply lookup_singleton_Some in H as [_ <-]. lia.
  - vm_compute. repeat split; reflexivity.
Defined.

End Crafting.

(** ** Animation *)

Section Animation.
Open Scope Q_scope.

(** X27.  The animation step adds dt to the clock and never turns the walk
    cycle back; within the game's speed limit the cap of 1.5 on the walk speed
    is never reached, so the cycle advances by exactly |vx| / 4.5 * 0.35 * dt
    on the ground and by 30% of that in the air. *)
Theorem walk_cycle_advance (p : Player) (anim : option PlayerAnim.Anim) (dt : Q) :
  0 <= dt -> Qabs (vx p) <= MAX_RUN_SPEED ->
  let before := default (PlayerAnim.mkAnim 0 0 PlayerAnim.idle) anim in
  let after := PlayerAnim.update p anim dt in
  PlayerAnim.time after == PlayerAnim.time before + dt /\
  PlayerAnim.walk before <= PlayerAnim.walk after /\
  PlayerAnim.walk after - PlayerAnim.walk before ==
    Qabs (vx p) / (45 # 10) * (35 # 100) * dt * (if onGround p then 1 else 3 # 10) /\
  PlayerAnim.state after = PlayerAnim.determineState p.
Proof.
  intros Hdt Hv. cbv zeta. unfold PlayerAnim.update.
  cbn [PlayerAnim.time PlayerAnim.walk PlayerAnim.state].
  set (a := default _ anim).
  pose proof (Qabs_nonneg (vx p)) as Hn. unfold MAX_RUN_SPEED in Hv.
  assert (Qmin (15 # 10) (Qabs (vx p) / (45 # 10)) == Qabs (vx p) / (45 # 10)) as E.
  { apply Q.min_r. apply Qle_shift_div_r; [reflexivity|]. lra. }
  assert (0 <= Qabs (vx p) / (45 # 10)) as Hq
    by (apply Qle_shift_div_l; [reflexivity|lra]).
  split; [reflexivity|]. rewrite E.
  split; [|split; [ring|reflexivity]].
  assert (0 <= Qabs (vx p) / (45 # 10) * (35 # 100) * dt) as Hp.
  { apply Qmult_le_0_compat; [|exact Hdt]. apply Qmult_le_0_compat; [exact Hq|lra]. }
  destruct (onGround p); lra.
Qed.

Lemma walk_cycle_advance_witness :
  let p := mkPlayer 2400 1519 (52 # 10) 0 18 34 true 1 100 100 0 0 true in
  let before := default (PlayerAnim.mkAnim 0 0 PlayerAnim.idle) None in
  let after := PlayerAnim.update p None 1 in
  PlayerAnim.time after == PlayerAnim.time before + 1 /\
  PlayerAnim.walk before <= PlayerAnim.walk after /\
  PlayerAnim.walk after - PlayerAnim.walk before ==
    Qabs (vx p) / (45 # 10) * (35 # 100) * 1 * (if onGround p then 1 else 3 # 10) /\
  PlayerAnim.state after = PlayerAnim.determineState p.
Proof.
  apply (walk_cycle_advance
           (mkPlayer 2400 1519 (52 # 10) 0 18 34 true 1 100 100 0 0 true) None 1).
  - vm_compute. discriminate.
  - vm_compute. discriminate.
Defined.

(** X28.  The sprite of an idle actor standing on the ground flickers: the
    animation state computed after each frame's motion is 'fall' on one frame
    and 'idle' on the next, because onGround alternates. *)
Theorem standing_sprite_flickers (w : World) (inp : Input) (p : Player) (R : Z) :
  key_left inp = false -> key_right inp = false -> key_jump inp = false ->
  vx p == 0 -> vy p == 0 ->
  pl_y p + height p / 2 == ofZ R * TILE_SIZE ->
  (forall tx, (tile_index (pl_x p - width p / 2) <= tx
               <= tile_index (pl_x p + width p / 2))%Z ->
              getTile w tx (R - 1) = AIR) ->
  (exists tx, (tile_index (pl_x p - width p / 2) <= tx
               <= tile_index (pl_x p + width p / 2))%Z /\
              isSolid (getTile w tx R) = true) ->
  exists p1 p2,
    integrate w (apply_input inp p) = Some p1 /\
    PlayerAnim.determineState p1 = PlayerAnim.fall /\
    integrate w (apply_input inp p1) = Some p2 /\
    PlayerAnim.determineState p2 = PlayerAnim.idle.
Proof.
  intros Hl Hr Hj Hvx Hvy Hrest Hfree Hsolid.
  destruct (resting_two_frames w inp p R Hl Hr Hj Hvx Hvy Hrest Hfree Hsolid)
    as (p1 & p2 & H1 & G1 & _ & V1 & H2 & G2 & _ & _ & _ & W2).
  exists p1, p2. split; [exact H1|]. split; [|split; [exact H2|]].
  - unfold PlayerAnim.determineState. rewrite G1. cbn [negb].
    rewrite (proj2 (Qltb_ge _ _)); [reflexivity|].
    rewrite V1. unfold GRAVITY. lra.
  - unfold PlayerAnim.determineState. rewrite G2. cbn [negb].
    rewrite (proj2 (Qltb_ge _ _)); [reflexivity|].
    rewrite W2. vm_compute. discriminate.
Qed.

Lemma standing_sprite_flickers_witness :
  exists p1 p2,
    integrate world1337
      (apply_input no_input (mkPlayer 2400 1519 0 0 18 34 true 1 100 100 0 0 true))
      = Some p1 /\
    PlayerAnim.determineState p1 = PlayerAnim.fall /\
    integrate world1337 (apply_input no_input p1) = Some p2 /\
    PlayerAnim.determineState p2 = PlayerAnim.idle.
Proof.
  apply (standing_sprite_flickers world1337 no_input
           (mkPlayer 2400 1519 0 0 18 34 true 1 100 100 0 0 true) 64).
  - reflexivity.
  - reflexivity.
  - reflexivity.
  - reflexivity.
  - reflexivity.
  - reflexivity.
  - intros tx Htx. cbn [pl_x width] in Htx.
    change (tile_index (2400 - 18 / 2)) with 99%Z in Htx.
    change (tile_index (2400 + 18 / 2)) with 100%Z in Htx.
    assert (tx = 99 \/ tx = 100)%Z as [-> | ->] by lia; vm_compute; reflexivity.
  - exists 99%Z. split; [vm_compute; split; discriminate|vm_compute; reflexivity].
Defined.

End Animation.

(** ** Hotbar *)

Section Hotbar.

(** X29.  The hotbar selection always names a slot: from an index in
    [0, 9) every key leaves an index in [0, 9), at which HOTBAR has an entry
    (so placing never reads past the table); E and Q step round the nine slots
    in opposite directions and undo each other. *)
Theorem hotbar_selection_stays_valid (repeat : bool) (key : Key) (sel : Z) :
  0 <= sel < HOTBAR_SIZE ->
  0 <= keydown repeat key sel < HOTBAR_SIZE /\
  is_Some (HOTBAR !! Z.to_nat (keydown repeat key sel)) /\
  keydown false KeyE (keydown false KeyQ sel) = sel /\
  keydown false KeyQ (keydown false KeyE sel) = sel.
Proof.
  unfold HOTBAR_SIZE. intros Hsel.
  assert (0 <= keydown repeat key sel < 9) as Hk.
  { unfold keydown, HOTBAR_SIZE. destruct repeat; [exact Hsel|].
    destruct key as [d| | |]; try exact Hsel.
    - destruct ((1 <=? d) && (d <=? 9)) eqn:E; [|exact Hsel].
      apply andb_true_iff in E as [E1 E2].
      apply Z.leb_le in E1. apply Z.leb_le in E2. lia.
    - pose proof (Z.rem_bound_pos (sel - 1 + 9) 9 ltac:(lia) ltac:(lia)). lia.
    - pose proof (Z.rem_bound_pos (sel + 1) 9 ltac:(lia) ltac:(lia)). lia. }
  split; [exact Hk|]. split.
  - apply lookup_lt_is_Some. change (length HOTBAR) with 9%nat. lia.
  - unfold keydown, HOTBAR_SIZE. cbv iota.
    rewrite !Z.rem_mod_nonneg; try lia.
    + split.
      * destruct (Z.eq_dec sel 0) as [->|Hne]; [reflexivity|].
        replace (sel - 1 + 9) with ((sel - 1) + 1 * 9) by lia.
        rewrite Z.mod_add, (Z.mod_small (sel - 1)) by lia.
        replace (sel - 1 + 1) with sel by lia. apply Z.mod_small. lia.
      * destruct (Z.eq_dec sel 8) as [->|Hne]; [reflexivity|].
        rewrite (Z.mod_small (sel + 1)) by lia.
        replace (sel + 1 - 1 + 9) with (sel + 1 * 9) by lia.
        rewrite Z.mod_add by lia. apply Z.mod_small. lia.
    + pose proof (Z.rem_bound_pos (sel + 1) 9 ltac:(lia) ltac:(lia)). lia.
    + pose proof (Z.rem_bound_pos (sel - 1 + 9) 9 ltac:(lia) ltac:(lia)). lia.
Qed.

Lemma hotbar_selection_stays_valid_witness :
  0 <= keydown false KeyQ 0 < HOTBAR_SIZE /\
  is_Some (HOTBAR !! Z.to_nat (keydown false KeyQ 0)) /\
  keydown false KeyE (keydown false KeyQ 0) = 0 /\
  keydown false KeyQ (keydown false KeyE 0) = 0.
Proof.
  apply (hotbar_selection_stays_valid false KeyQ 0). unfold HOTBAR_SIZE. lia.
Defined.

End Hotbar.

(** ** The column loop, pass by pass *)

Section LoopSplitting.
Context {S : Type}.

Lemma for_count_app (body : Z -> S -> S) :
  forall n m i s,
    for_count (n + m) i body s = for_count m (i + Z.of_nat n) body (for_count n i body s).
Proof.
  induction n as [|n IH]; intros m i s.
  - cbn [Nat.add for_count]. replace (i + Z.of_nat 0) with i by lia. reflexivity.
  - cbn [Nat.add for_count]. rewrite IH. f_equal. lia.
Qed.

Lemma for_lt_split (body : Z -> S -> S) lo mid hi s :
  lo <= mid <= hi ->
  for_lt lo hi body s = for_lt mid hi body (for_lt lo mid body s).
Proof.
  intros H. unfold for_lt.
  replace (Z.to_nat (hi - lo)) with (Z.to_nat (mid - lo) + Z.to_nat (hi - mid))%nat by lia.
  rewrite for_count_app. f_equal. lia.
Qed.

Lemma for_lt_one (body : Z -> S -> S) lo s : for_lt lo (lo + 1) body s = body lo s.
Proof.
  unfold for_lt. replace (lo + 1 - lo) with 1 by lia. reflexivity.
Qed.

End LoopSplitting.

Section OwnColumn.

Lemma same_column_store X w1 w2 tx ty id :
  same_column X w1 w2 -> same_column X (store w1 tx ty id) (store w2 tx ty id).
Proof.
  intros (H1 & H2 & H). split; [|split]; try (apply wf_world_store; assumption).
  intros y. rewrite !peek_store, (H y). reflexivity.
Qed.

Lemma same_column_store_l X w1 w2 tx ty id :
  Z.to_nat tx <> X -> same_column X w1 w2 -> same_column X (store w1 tx ty id) w2.
Proof.
  intros Hc (H1 & H2 & H). split; [|split]; try (apply wf_world_store); try assumption.
  intros y. rewrite peek_store, decide_False by (intros [? _]; congruence). apply H.
Qed.

Lemma same_column_store_r X w1 w2 tx ty id :
  Z.to_nat tx <> X -> same_column X w1 w2 -> same_column X w1 (store w2 tx ty id).
Proof.
  intros Hc (H1 & H2 & H). split; [|split]; try (apply wf_world_store); try assumption.
  intros y. rewrite peek_store, decide_False by (intros [? _]; congruence). apply H.
Qed.

Lemma same_column_cell X w1 w2 tx ty :
  same_column X w1 w2 -> Z.to_nat tx = X -> cell w1 tx ty = cell w2 tx ty.
Proof.
  intros (_ & _ & H) <-. rewrite !cell_peek, H. reflexivity.
Qed.

(** The layer loop makes column [x] the same whatever the grid held. *)
Lemma layers_same (f : Z -> Tile) x w1 w2 :
  wf_world w1 -> wf_world w2 -> 0 <= x < WORLD_WIDTH ->
  same_column (Z.to_nat x)
    (for_lt 0 WORLD_HEIGHT (fun y w => store w x y (f y)) w1)
    (for_lt 0 WORLD_HEIGHT (fun y w => store w x y (f y)) w2).
Proof.
  intros H1 H2 Hx.
  destruct (layers_cells f x w1 H1 Hx) as (W1 & L1 & _).
  destruct (layers_cells f x w2 H2 Hx) as (W2 & L2 & _).
  set (u1 := for_lt 0 WORLD_HEIGHT _ w1) in *.
  set (u2 := for_lt 0 WORLD_HEIGHT _ w2) in *. clearbody u1 u2.
  split; [exact W1|]. split; [exact W2|]. intros y.
  destruct (decide (y < Z.to_nat WORLD_HEIGHT)%nat) as [Hy|Hy].
  - destruct (proj2 (wf_world_peek u1 (Z.to_nat x) y W1)) as [t1 E1]; [lia|].
    destruct (proj2 (wf_world_peek u2 (Z.to_nat x) y W2)) as [t2 E2]; [lia|].
    specialize (L1 (Z.of_nat y) ltac:(lia)). specialize (L2 (Z.of_nat y) ltac:(lia)).
    rewrite cell_peek, Nat2Z.id, E1 in L1. rewrite cell_peek, Nat2Z.id, E2 in L2.
    simpl in L1, L2. rewrite E1, E2. congruence.
  - destruct (peek u1 (Z.to_nat x) y) eqn:E1.
    { exfalso. apply Hy. apply (wf_world_peek u1 (Z.to_nat x) y W1). eauto. }
    destruct (peek u2 (Z.to_nat x) y) eqn:E2; [|reflexivity].
    exfalso. apply Hy. apply (wf_world_peek u2 (Z.to_nat x) y W2). eauto.
Qed.

(** One test-and-write of the patch loops keeps column [x] the same. *)
Lemma patch_step_same x xx yy u1 u2 :
  0 <= x -> x <= xx ->
  same_column (Z.to_nat x) u1 u2 ->
  same_column (Z.to_nat x)
    (if negb (bool_decide (cell u1 xx yy = AIR)) then store u1 xx yy STONE else u1)
    (if negb (bool_decide (cell u2 xx yy = AIR)) then store u2 xx yy STONE else u2).
Proof.
  intros Hx Hxx Hs. destruct (decide (xx = x)) as [->|Hne].
  - rewrite (same_column_cell _ u1 u2 x yy Hs eq_refl).
    destruct (negb _); [apply same_column_store|]; exact Hs.
  - assert (Z.to_nat xx <> Z.to_nat x) as Hc by lia.
    destruct (negb (bool_decide (cell u1 xx yy = AIR))),
             (negb (bool_decide (cell u2 xx yy = AIR)));
      repeat first [apply same_column_store_l; [exact Hc|]
                   | apply same_column_store_r; [exact Hc|]];
      exact Hs.
Qed.

(** A patch step right of column [x] does not show in column [x]. *)
Lemma patch_step_right x xx yy u1 u2 :
  0 <= x -> x < xx ->
  same_column (Z.to_nat x) u1 u2 ->
  same_column (Z.to_nat x)
    (if negb (bool_decide (cell u1 xx yy = AIR)) then store u1 xx yy STONE else u1) u2.
Proof.
  intros Hx Hxx Hs. destruct (negb _); [|exact Hs].
  apply same_column_store_l; [lia|exact Hs].
Qed.

(** Within its own column a patch of any width writes what a patch one
    column wide writes. *)
Lemma stone_patch_width x sy sh sw u1 u2 :
  0 <= x < WORLD_WIDTH -> 1 <= sw ->
  same_column (Z.to_nat x) u1 u2 ->
  same_column (Z.to_nat x) (stone_patch x sy sh sw u1) (stone_patch x sy sh 1 u2).
Proof.
  intros Hx Hsw Hs. unfold stone_patch.
  set (body := fun (yy : Z) (hi : Z) (w : World) =>
                 for_lt x hi (fun xx w =>
                   if negb (bool_decide (cell w xx yy = AIR))
                   then store w xx yy STONE else w) w).
  unfold for_lt at 1 3.
  generalize (Z.to_nat (Z.min (sy + sh) WORLD_HEIGHT - sy)) as n.
  intros n. revert u1 u2 Hs. generalize sy as yy.
  induction n as [|n IH]; intros yy u1 u2 Hs; cbn [for_count]; [exact Hs|].
  apply IH.
  rewrite (for_lt_split _ x (x + 1) (Z.min (x + sw) WORLD_WIDTH)) by lia.
  replace (Z.min (x + 1) WORLD_WIDTH) with (x + 1) by lia.
  rewrite !for_lt_one.
  apply (for_lt_inv (fun u => same_column (Z.to_nat x) u _)).
  - intros xx u Hxx Hu. apply patch_step_right; [lia|lia|exact Hu].
  - apply patch_step_same; [lia|lia|exact Hs].
Qed.

Lemma stone_patch_same x sy sh sw u1 u2 :
  0 <= x ->
  same_column (Z.to_nat x) u1 u2 ->
  same_column (Z.to_nat x) (stone_patch x sy sh sw u1) (stone_patch x sy sh sw u2).
Proof.
  intros Hx. unfold stone_patch.
  apply for_lt_rel. intros yy t1 t2 _.
  apply for_lt_rel. intros xx v1 v2 Hxx Hs.
  apply patch_step_same; [exact Hx|lia|exact Hs].
Qed.

Lemma tree_trunk_same X x groundY treeHeight w1 w2 :
  same_column X w1 w2 ->
  same_column X (tree_trunk x groundY treeHeight w1)
                (tree_trunk x groundY treeHeight w2).
Proof.
  unfold tree_trunk. apply for_lt_rel. intros ty t1 t2 _ Hs.
  destruct (_ >=? _); [apply same_column_store|]; exact Hs.
Qed.

(** A pass of the column loop writes its own column the same way on any
    grid, and leaves the generator in the same state. *)
Lemma gen_column_same heights biomes x a w1 w2 :
  wf_world w1 -> wf_world w2 -> 0 <= x < WORLD_WIDTH ->
  fst (gen_column heights biomes x (a, w1)) = fst (gen_column heights biomes x (a, w2)) /\
  same_column (Z.to_nat x)
    (snd (gen_column heights biomes x (a, w1)))
    (snd (gen_column heights biomes x (a, w2))).
Proof.
  intros H1 H2 Hx. unfold gen_column.
  set (groundY := default 0 (heights !! Z.to_nat x)).
  set (biome := default forest (biomes !! Z.to_nat x)).
  pose proof (layers_same (layer_tile biome groundY) x w1 w2 H1 H2 Hx) as Hl.
  set (u1 := for_lt 0 WORLD_HEIGHT _ w1) in *.
  set (u2 := for_lt 0 WORLD_HEIGHT _ w2) in *.
  clearbody u1 u2.
  assert (fst (sprinkle_patch x groundY (a, u1)) = fst (sprinkle_patch x groundY (a, u2)) /\
          same_column (Z.to_nat x) (snd (sprinkle_patch x groundY (a, u1)))
                                   (snd (sprinkle_patch x groundY (a, u2)))) as [Ea Hv].
  { unfold sprinkle_patch. destruct (mulberry32 a) as [r a1].
    destruct (Qltb r (1 # 10)); [|simpl; auto].
    destruct (mulberry32 a1) as [r1 b1]. destruct (mulberry32 b1) as [r2 b2].
    destruct (mulberry32 b2) as [r3 b3]. simpl. split; [reflexivity|].
    apply stone_patch_same; [lia|exact Hl]. }
  destruct (sprinkle_patch x groundY (a, u1)) as [a1 v1].
  destruct (sprinkle_patch x groundY (a, u2)) as [a2 v2].
  simpl in Ea, Hv. subst a2.
  unfold grow_tree. destruct biome; [|simpl; auto].
  destruct (mulberry32 a1) as [r b1]. destruct (Qltb r (3 # 100)); [|simpl; auto].
  destruct (mulberry32 b1) as [r4 b2]. simpl. split; [reflexivity|].
  apply tree_trunk_same, Hv.
Qed.

(** The column loop up to any column: same generator state from any grid. *)
Lemma columns_agree_upto heights biomes a w1 w2 X :
  wf_world w1 -> wf_world w2 -> 0 <= X <= WORLD_WIDTH ->
  let s1 := for_lt 0 X (gen_column heights biomes) (a, w1) in
  let s2 := for_lt 0 X (gen_column heights biomes) (a, w2) in
  fst s1 = fst s2 /\ agree (Z.to_nat X) (snd s1) (snd s2).
Proof.
  intros H1 H2 HX. cbv zeta.
  apply (for_lt_rel_indexed
           (fun x (s1 s2 : Z * World) =>
              fst s1 = fst s2 /\ agree (Z.to_nat x) (snd s1) (snd s2))).
  - lia.
  - intros x [a1 u1] [a2 u2] Hx [Ea Hag]. simpl in Ea, Hag. subst a2.
    apply gen_column_agree; [lia|assumption].
  - simpl. split; [reflexivity|]. split; [exact H1|]. split; [exact H2|].
    intros x y Hx. lia.
Qed.

Lemma generateWorld_unfold seed w :
  generateWorld seed w =
  snd (for_lt 0 WORLD_WIDTH (gen_column (heights_of seed) (biomes_of seed))
         (columns_start seed, w)).
Proof.
  unfold generateWorld, heights_of, biomes_of, columns_start.
  destruct (gen_heights _ _ _) as [heights a1]. cbn [fst].
  destruct (mulberry32 a1) as [r a2].
  destruct (gen_biomes _ _ _ _) as [biomes a3]. reflexivity.
Qed.

(** The passes for the columns right of [x] leave column [x] alone. *)
Lemma later_passes_keep_column heights biomes x s :
  length heights = Z.to_nat WORLD_WIDTH -> length biomes = Z.to_nat WORLD_WIDTH ->
  Forall (fun g => 20 <= g <= WORLD_HEIGHT - 15) heights ->
  0 <= x < WORLD_WIDTH -> wf_world (snd s) ->
  let s' := for_lt (x + 1) WORLD_WIDTH (gen_column heights biomes) s in
  wf_world (snd s') /\ forall y, 0 <= y -> cell (snd s') x y = cell (snd s) x y.
Proof.
  intros Lh Lb Hh Hx Hw. cbv zeta.
  apply (for_lt_inv
           (fun t => wf_world (snd t) /\
                     forall y, 0 <= y -> cell (snd t) x y = cell (snd s) x y)).
  - intros j [a u] Hj [Wu Hu]. cbn [snd] in *.
    destruct (lookup_lt_is_Some_2 heights (Z.to_nat j)) as [gj Eg]; [lia|].
    destruct (lookup_lt_is_Some_2 biomes (Z.to_nat j)) as [bj Eb]; [lia|].
    rewrite Forall_lookup in Hh.
    destruct (gen_column_shape heights biomes j a u gj bj Wu ltac:(lia) Eg Eb
                (Hh _ _ Eg)) as (W' & _ & Fr).
    split; [exact W'|]. intros y Hy. rewrite Fr by lia. apply Hu, Hy.
  - split; [exact Hw|]. reflexivity.
Qed.

(** X30.  Every column of the generated grid is exactly what its own pass
    of the column loop writes onto an empty grid: nothing written by the
    passes before it survives in it, and the passes after it do not touch it.
    And within its own column a stone patch of any width writes what a patch
    one column wide writes.  So the width drawn for a stone patch never shows
    in the result. *)
Theorem column_is_its_own_pass (seed : Z) (w : World) (x y : Z) :
  wf_world w -> 0 <= x < WORLD_WIDTH -> 0 <= y < WORLD_HEIGHT ->
  getTile (generateWorld seed w) x y = getTile (own_pass seed x) x y /\
  (forall sy sh sw u, wf_world u -> 1 <= sw ->
     getTile (stone_patch x sy sh sw u) x y = getTile (stone_patch x sy sh 1 u) x y).
Proof.
  intros Hw Hx Hy. split.
  - rewrite !getTile_cell by assumption.
    destruct (generateWorld_shape seed w Hw) as (Lh & Lb & Hh & _).
    rewrite generateWorld_unfold. unfold own_pass, column_state.
    set (H := heights_of seed) in *. set (B := biomes_of seed) in *.
    set (a0 := columns_start seed).
    rewrite (for_lt_split _ 0 (x + 1) WORLD_WIDTH) by lia.
    rewrite (for_lt_split _ 0 x (x + 1)) by lia. rewrite for_lt_one.
    destruct (columns_agree_upto H B a0 w empty_world x Hw wf_empty_world ltac:(lia))
      as [Ea (Wx & _ & _)].
    destruct (for_lt 0 x (gen_column H B) (a0, w)) as [ax wx].
    cbn [fst snd] in Ea, Wx. rewrite <- Ea.
    destruct (gen_column_same H B x ax wx empty_world Wx wf_empty_world Hx)
      as [_ Hsame].
    destruct (later_passes_keep_column H B x (gen_column H B x (ax, wx)) Lh Lb Hh Hx
                (proj1 Hsame)) as [_ Hkeep].
    rewrite Hkeep by lia.
    apply (same_column_cell _ _ _ x y Hsame eq_refl).
  - intros sy sh sw u Hu Hsw.
    assert (same_column (Z.to_nat x) u u) as Hs by (split; [|split]; auto).
    pose proof (stone_patch_width x sy sh sw u u Hx Hsw Hs) as Hp.
    unfold getTile. destruct (negb (inBounds x y)); [reflexivity|].
    apply (same_column_cell _ _ _ x y Hp eq_refl).
Qed.

Lemma column_is_its_own_pass_witness :
  getTile (generateWorld 1337 empty_world) 100 70 = getTile (own_pass 1337 100) 100 70 /\
  (forall sy sh sw u, wf_world u -> 1 <= sw ->
     getTile (stone_patch 100 sy sh sw u) 100 70
     = getTile (stone_patch 100 sy sh 1 u) 100 70).
Proof.
  apply (column_is_its_own_pass 1337 empty_world 100 70).
  - apply wf_empty_world.
  - unfold WORLD_WIDTH. lia.
  - unfold WORLD_HEIGHT. lia.
Defined.

End OwnColumn.
